(** Verification of the core of js-3d-engine: the entity store
    (src/ecs/entity-manager.js, src/components/transform-component.js), the
    system scheduler (src/ecs/system-manager.js), the command stack and the
    reparenting command (src/editor/command-manager.js) and the event
    emitter (src/utils/event-emitter.js).

    The first part embeds the code: JavaScript values, then one module per
    class with its fields as a record and its methods as functions on that
    record.  Loops that the source leaves unbounded take a step budget
    [fuel] and return [None] when it runs out.  The second part states and
    proves properties of these definitions. *)

From stdpp Require Import gmap strings list fin_maps pretty sorting.
From Stdlib Require Import ZArith Lia.
Open Scope Z_scope.
Set Warnings "-register-all,-clear-no-such-hyp".

(** * JavaScript values as the entity store sees them *)
Module Js.

(** Component data, scene documents and stored fields.  Numbers are exact
    integers ([NaN], the infinities and fractions are outside the model);
    an object is the list of its own enumerable properties in insertion
    order. *)
Inductive Value :=
| VUndefined
| VNull
| VBool (b : bool)
| VNum (n : Z)
| VStr (s : string)
| VArr (items : list Value)
| VObj (props : list (string * Value)).

(** A plain object: [{ key: value, ... }]. *)
Definition Data : Type := list (string * Value).

(** [obj[key]] on a plain object ([undefined] when the key is absent). *)
Fixpoint get (d : Data) (key : string) : Value :=
  match d with
  | [] => VUndefined
  | (k, v) :: rest => if bool_decide (k = key) then v else get rest key
  end.

(** [Object.prototype.hasOwnProperty.call(obj, key)] *)
Fixpoint has_key (d : Data) (key : string) : bool :=
  match d with
  | [] => false
  | (k, _) :: rest => bool_decide (k = key) || has_key rest key
  end.

(** [obj[key] = v]: an existing key keeps its place, a new one goes last. *)
Fixpoint put (d : Data) (key : string) (v : Value) : Data :=
  match d with
  | [] => [(key, v)]
  | (k, x) :: rest =>
    if bool_decide (k = key) then (k, v) :: rest else (k, x) :: put rest key v
  end.

(** [delete obj[key]] *)
Definition del (d : Data) (key : string) : Data :=
  filter (λ kv, kv.1 ≠ key) d.

(** [Object.prototype.hasOwnProperty.call(v, key)] for any value (the keys
    asked for are never array indices). *)
Definition has_own (v : Value) (key : string) : bool :=
  match v with
  | VObj d => has_key d key
  | _ => false
  end.

(** [value.key] for any value: only objects carry the properties read here. *)
Definition prop (v : Value) (key : string) : Value :=
  match v with
  | VObj d => get d key
  | _ => VUndefined
  end.

(** Truthiness, as in [if (v)], [v || d] and [!v]. *)
Definition truthy (v : Value) : bool :=
  match v with
  | VUndefined | VNull => false
  | VBool b => b
  | VNum n => negb (n =? 0)
  | VStr s => negb (bool_decide (s = ""))
  | VArr _ | VObj _ => true
  end.

(** [typeof v === 'object' && v !== null] *)
Definition is_object (v : Value) : bool :=
  match v with
  | VArr _ | VObj _ => true
  | _ => false
  end.

(** [a === b].  Primitives compare by value; two arrays or objects are taken
    to be distinct references. *)
Definition strict_eq (a b : Value) : bool :=
  match a, b with
  | VUndefined, VUndefined | VNull, VNull => true
  | VBool x, VBool y => Bool.eqb x y
  | VNum x, VNum y => x =? y
  | VStr x, VStr y => bool_decide (x = y)
  | _, _ => false
  end.

(** [[...v]]: the elements of an array, the characters of a string; any
    other value is not iterable and the spread throws ([None]). *)
Definition spread (v : Value) : option (list Value) :=
  match v with
  | VArr items => Some items
  | VStr s => Some ((λ c, VStr (String c EmptyString)) <$> String.list_ascii_of_string s)
  | _ => None
  end.

(** The own enumerable string-keyed properties: [Object.entries(v)] and
    [{...v}].  An array contributes its indices. *)
Definition entries (v : Value) : Data :=
  match v with
  | VObj d => d
  | VArr items => imap (λ i x, (pretty i, x)) items
  | _ => []
  end.

(** What [JSON.parse(JSON.stringify(v))] gives back inside a document: an
    [undefined] array element becomes [null], a property whose value is
    [undefined] is dropped. *)
Fixpoint json (v : Value) : Value :=
  match v with
  | VUndefined => VNull
  | VArr items => VArr (map json items)
  | VObj d =>
    VObj ((fix props (d : Data) : Data :=
             match d with
             | [] => []
             | (k, VUndefined) :: rest => props rest
             | (k, x) :: rest => (k, json x) :: props rest
             end) d)
  | _ => v
  end.

(** Structural equality of values. *)
Fixpoint value_eqb (a b : Value) : bool :=
  match a, b with
  | VUndefined, VUndefined | VNull, VNull => true
  | VBool x, VBool y => Bool.eqb x y
  | VNum x, VNum y => x =? y
  | VStr x, VStr y => bool_decide (x = y)
  | VArr xs, VArr ys =>
    (fix all2 (xs ys : list Value) : bool :=
       match xs, ys with
       | [], [] => true
       | x :: xs', y :: ys' => value_eqb x y && all2 xs' ys'
       | _, _ => false
       end) xs ys
  | VObj xs, VObj ys =>
    (fix all2 (xs ys : Data) : bool :=
       match xs, ys with
       | [], [] => true
       | (k, x) :: xs', (l, y) :: ys' =>
         bool_decide (k = l) && value_eqb x y && all2 xs' ys'
       | _, _ => false
       end) xs ys
  | _, _ => false
  end.

(** [JSON.stringify(a) !== JSON.stringify(b)]: [JSON.stringify(undefined)]
    is [undefined], any other value gives its text. *)
Definition json_differs (a b : Value) : bool :=
  match a, b with
  | VUndefined, VUndefined => false
  | VUndefined, _ | _, VUndefined => true
  | _, _ => negb (value_eqb (json a) (json b))
  end.

(** [s.trim() === ''] (ASCII white space). *)
Definition is_space (c : Ascii.ascii) : bool :=
  let n := Ascii.nat_of_ascii c in
  ((9 <=? n) && (n <=? 13))%nat || (n =? 32)%nat.

Definition blank (s : string) : bool :=
  forallb is_space (String.list_ascii_of_string s).

End Js.

(** * Entity store: src/ecs/entity-manager.js, class EntityManager *)
Module EntityManager.
Import Js.

(** ** Components *)

(** src/components/transform-component.js: the fields of a
    [TransformComponent].  [children] is the JS [Set]; members that are not
    numbers are left out, since every use of a child id goes through
    [hasEntity], which rejects them. *)
Record TransformComponent := mkTransform {
  position : Value;
  rotation : Value;
  scale : Value;
  parent : Value;
  children : gset Z
}.

(** [data.key ? [...data.key] : default] *)
Definition array_field (d : Data) (key : string) (default : list Value) : option Value :=
  if truthy (get d key) then VArr <$> spread (get d key) else Some (VArr default).

Definition numbers (items : list Value) : gset Z :=
  list_to_set (omap (λ v, match v with VNum n => Some n | _ => None end) items).

(** [new Set(v || [])] *)
Definition new_Set (v : Value) : option (gset Z) :=
  if truthy v then numbers <$> spread v else Some ∅.

(** [new TransformComponent(data)]; [None] when the constructor throws
    (a spread of something that is not iterable). *)
Definition new_TransformComponent (d : Data) : option TransformComponent :=
  p ← array_field d "position" [VNum 0; VNum 0; VNum 0];
  r ← array_field d "rotation" [VNum 0; VNum 0; VNum 0];
  sc ← array_field d "scale" [VNum 1; VNum 1; VNum 1];
  c ← new_Set (get d "children");
  Some {| position := p; rotation := r; scale := sc;
          parent := match get d "parent" with VUndefined => VNull | v => v end;
          children := c |}.

(** [TransformComponent.serialize()] *)
Definition TransformComponent_serialize (t : TransformComponent) : option Value :=
  p ← spread (position t);
  r ← spread (rotation t);
  sc ← spread (scale t);
  Some (VObj [("position", VArr p); ("rotation", VArr r); ("scale", VArr sc);
              ("parent", parent t)]).

(** Any other component class, by what the store calls on it: the
    constructor (from the data to the instance's own properties), serialize,
    and the three hooks.  [None] stands for a throw; a hook returns the
    instance's properties as it leaves them.  The hooks work on their own
    instance and do not call back into the store. *)
Record ComponentClass := mkClass {
  extendsComponent : bool;
  construct : Data → option Data;
  serialize_ : Data → option Value;
  onAdd : Z → Data → option Data;
  onRemove : Data → option Data;
  onUpdate : Data → Data → option Data
}.

Inductive Component :=
| CTransform (t : TransformComponent)
| CUser (cls : ComponentClass) (fields : Data).

(** src/ecs/component-registry.js.  The reserved name 'transform' is bound
    to [TransformComponent] or to nothing (core.js registers it so); every
    other name is bound to a class of the host's. *)
Record ComponentRegistry := mkRegistry {
  transformRegistered : bool;
  componentTypes : gmap string ComponentClass
}.

Inductive Constructor :=
| TransformClass
| UserClass (cls : ComponentClass).

(** [componentRegistry.get(name)] *)
Definition registry_get (reg : ComponentRegistry) (name : string) : option Constructor :=
  if bool_decide (name = "transform")
  then (if transformRegistered reg then Some TransformClass else None)
  else UserClass <$> componentTypes reg !! name.

(** [componentRegistry.has(name)] *)
Definition registry_has (reg : ComponentRegistry) (name : string) : bool :=
  match registry_get reg name with Some _ => true | None => false end.

(** ** The store *)

(** The fields of [EntityManager].  The event emitter is left out: the store
    only writes to it, and [emit] catches what a listener throws. *)
Record Store := mkStore {
  nextEntityId : Z;
  entities : gset Z;
  entityComponents : gmap Z (gmap string Component);
  componentEntityMap : gmap string (gset Z)
}.

(** [new EntityManager(registry, emitter)] *)
Definition new_store : Store :=
  {| nextEntityId := 1; entities := ∅; entityComponents := ∅; componentEntityMap := ∅ |}.

Definition set_nextEntityId (n : Z) (s : Store) : Store :=
  {| nextEntityId := n; entities := entities s;
     entityComponents := entityComponents s; componentEntityMap := componentEntityMap s |}.

Definition set_entities (e : gset Z) (s : Store) : Store :=
  {| nextEntityId := nextEntityId s; entities := e;
     entityComponents := entityComponents s; componentEntityMap := componentEntityMap s |}.

Definition set_entityComponents (m : gmap Z (gmap string Component)) (s : Store) : Store :=
  {| nextEntityId := nextEntityId s; entities := entities s;
     entityComponents := m; componentEntityMap := componentEntityMap s |}.

Definition set_componentEntityMap (m : gmap string (gset Z)) (s : Store) : Store :=
  {| nextEntityId := nextEntityId s; entities := entities s;
     entityComponents := entityComponents s; componentEntityMap := m |}.

(** What an operation that can throw hands back: the store as it is left
    and, on a normal return, the result. *)
Inductive Completion (A : Type) :=
| Returns (s : Store) (a : A)
| Throws (s : Store).
Arguments Returns {A} s a.
Arguments Throws {A} s.

Definition MAX_SAFE_INTEGER : Z := 9007199254740991.

(** ** Queries *)

(** [hasEntity(entityId)] for a number. *)
Definition hasEntity (s : Store) (entityId : Z) : bool :=
  bool_decide (entityId ∈ entities s).

(** [hasEntity(v)] for any value: [typeof v === 'number'] comes first. *)
Definition hasEntityV (s : Store) (v : Value) : bool :=
  match v with
  | VNum n => hasEntity s n
  | _ => false
  end.

(** [getComponent(entityId, componentType)] *)
Definition getComponent (s : Store) (entityId : Z) (componentType : string) : option Component :=
  if hasEntity s entityId
  then entityComponents s !! entityId ≫= λ m, m !! componentType
  else None.

(** [hasComponent(entityId, componentType)] *)
Definition hasComponent (s : Store) (entityId : Z) (componentType : string) : bool :=
  if hasEntity s entityId
  then match entityComponents s !! entityId with
       | Some m => bool_decide (is_Some (m !! componentType))
       | None => false
       end
  else false.

(** [getEntitiesWithComponent(componentType)] *)
Definition getEntitiesWithComponent (s : Store) (componentType : string) : list Z :=
  if blank componentType then []
  else elements (default ∅ (componentEntityMap s !! componentType)).

(** [getComponent(entityId, 'transform')], read as a [TransformComponent]. *)
Definition getTransform (s : Store) (entityId : Z) : option TransformComponent :=
  match getComponent s entityId "transform" with
  | Some (CTransform t) => Some t
  | _ => None
  end.

(** The same for an id read from a [parent] field or from data. *)
Definition getTransformV (s : Store) (v : Value) : option TransformComponent :=
  match v with
  | VNum n => getTransform s n
  | _ => None
  end.

(** [getChildren(entityId)] *)
Definition getChildren (s : Store) (entityId : Z) : gset Z :=
  match getTransform s entityId with
  | Some t => children t
  | None => ∅
  end.

(** ** In-place updates of a transform held by the store *)

Definition on_transform (f : TransformComponent → TransformComponent) (c : Component) : Component :=
  match c with
  | CTransform t => CTransform (f t)
  | CUser _ _ => c
  end.

Definition modify_transform (f : TransformComponent → TransformComponent)
    (entityId : Z) (s : Store) : Store :=
  set_entityComponents
    (alter (alter (on_transform f) "transform") entityId (entityComponents s)) s.

(** [transform._addChild(childId)] on the transform of [entityId] *)
Definition _addChild (entityId childId : Z) : Store → Store :=
  modify_transform
    (λ t, {| position := position t; rotation := rotation t; scale := scale t;
             parent := parent t; children := {[childId]} ∪ children t |}) entityId.

(** [transform._removeChild(childId)] *)
Definition _removeChild (entityId childId : Z) : Store → Store :=
  modify_transform
    (λ t, {| position := position t; rotation := rotation t; scale := scale t;
             parent := parent t; children := children t ∖ {[childId]} |}) entityId.

(** [transform._setParent(parentId)] *)
Definition _setParent (entityId : Z) (parentId : Value) : Store → Store :=
  modify_transform
    (λ t, {| position := position t; rotation := rotation t; scale := scale t;
             parent := parentId; children := children t |}) entityId.

(** [transform.children.clear(); transform.parent = null] *)
Definition _unlink (entityId : Z) : Store → Store :=
  modify_transform
    (λ t, {| position := position t; rotation := rotation t; scale := scale t;
             parent := VNull; children := ∅ |}) entityId.

(** [_addComponentToEntityMap(entityId, componentType)] *)
Definition _addComponentToEntityMap (entityId : Z) (componentType : string) (s : Store) : Store :=
  set_componentEntityMap
    (<[componentType := {[entityId]} ∪ default ∅ (componentEntityMap s !! componentType)]>
       (componentEntityMap s)) s.

(** [_removeComponentFromEntityMap(entityId, componentType)] *)
Definition _removeComponentFromEntityMap (entityId : Z) (componentType : string) (s : Store) : Store :=
  set_componentEntityMap
    (alter (λ ids, ids ∖ {[entityId]}) componentType (componentEntityMap s)) s.

(** ** createEntity *)

(** The [while (this.entities.has(id))] loop.  [None]: more than [fuel]
    iterations; [Some None]: the loop threw at [MAX_SAFE_INTEGER]. *)
Fixpoint next_free (fuel : nat) (live : gset Z) (id : Z) : option (option Z) :=
  if bool_decide (id ∈ live) then
    match fuel with
    | O => None
    | S fuel' =>
      if id + 1 >? MAX_SAFE_INTEGER then Some None
      else next_free fuel' live (id + 1)
    end
  else Some (Some id).

(** [createEntity()] *)
Definition createEntity (fuel : nat) (s : Store) : option (Completion Z) :=
  r ← next_free fuel (entities s) (nextEntityId s);
  match r with
  | None => Some (Throws s)
  | Some id =>
    Some (Returns
            (set_entityComponents (<[id := ∅]> (entityComponents s))
               (set_entities ({[id]} ∪ entities s) (set_nextEntityId (id + 1) s)))
            id)
  end.

(** ** setParent *)

(** The circular-dependency walk, from [ancestorId] upwards.  [Some true]:
    the walk reached [null]; [Some false]: it met [entityId] or an ancestor
    without a transform; [None]: still walking after [fuel] steps. *)
Fixpoint check_ancestors (fuel : nat) (s : Store) (entityId : Z) (ancestorId : Value) : option bool :=
  match ancestorId with
  | VNull => Some true
  | _ =>
    match fuel with
    | O => None
    | S fuel' =>
      if strict_eq ancestorId (VNum entityId) then Some false
      else match getTransformV s ancestorId with
           | None => Some false
           | Some ancestorTransform =>
             check_ancestors fuel' s entityId (parent ancestorTransform)
           end
    end
  end.

(** [setParent(entityId, newParentId)] *)
Definition setParent (fuel : nat) (s : Store) (entityId : Z) (newParentId : Value)
    : option (Store * bool) :=
  match newParentId with
  | VNull | VNum _ =>
    if negb (hasEntity s entityId) then Some (s, false)
    else if negb (strict_eq newParentId VNull) && negb (hasEntityV s newParentId)
    then Some (s, false)
    else if strict_eq (VNum entityId) newParentId then Some (s, false)
    else
      match getTransform s entityId with
      | None => Some (s, false)
      | Some childTransform =>
        if negb (strict_eq newParentId VNull)
           && negb (bool_decide (is_Some (getTransformV s newParentId)))
        then Some (s, false)
        else if strict_eq (parent childTransform) newParentId then Some (s, true)
        else
          ok ← check_ancestors fuel s entityId newParentId;
          if negb ok then Some (s, false)
          else
            let oldParentId := parent childTransform in
            let s1 :=
              if negb (strict_eq oldParentId VNull) && negb (strict_eq oldParentId newParentId)
              then match oldParentId, getTransformV s oldParentId with
                   | VNum o, Some _ => _removeChild o entityId s
                   | _, _ => s
                   end
              else s in
            let s2 :=
              match newParentId with
              | VNum p => _addChild p entityId s1
              | _ => s1
              end in
            Some (_setParent entityId newParentId s2, true)
      end
  | _ => Some (s, false)
  end.

(** Sequencing over a list, as a [for] loop over a snapshot of ids. *)
Fixpoint for_each {A : Type} (body : Store → A → option Store) (s : Store) (l : list A)
    : option Store :=
  match l with
  | [] => Some s
  | x :: rest => s' ← body s x; for_each body s' rest
  end.

(** ** removeEntity *)

(** The component clean-up loop of [removeEntity]: [onRemove] (whatever it
    throws is caught) and [_removeComponentFromEntityMap] for each type. *)
Definition drop_from_index (entityId : Z) (s : Store) : Store :=
  match entityComponents s !! entityId with
  | Some components =>
    foldr (_removeComponentFromEntityMap entityId) s (map fst (map_to_list components))
  | None => s
  end.

(** [removeEntity(entityId)].  The recursion into the children goes as deep
    as the children sets lead, and [None] is a recursion that has not come
    to an end within [fuel].  Where following children sets from the entity
    leads back to it, that is so for every [fuel]: there the source runs
    until the engine's stack is full, and the [try] around the recursive
    call catches the RangeError; what the call has done by then depends on
    the depth of that stack and is not described here.  On every other
    store nothing inside the outer [try] throws, the stack being taken to
    be deep enough for the hierarchy, and its [catch] is not entered. *)
Fixpoint removeEntity (fuel : nat) (s : Store) (entityId : Z) : option (Store * bool) :=
  match fuel with
  | O => None
  | S fuel' =>
    if negb (hasEntity s entityId) then Some (s, false)
    else
      s1 ← match getTransform s entityId with
           | None => Some s
           | Some transform =>
             sa ← (if negb (strict_eq (parent transform) VNull)
                   then fst <$> setParent fuel' s entityId VNull
                   else Some s);
             sb ← for_each
                     (λ acc childId,
                        if hasEntity acc childId
                        then fst <$> removeEntity fuel' acc childId
                        else Some acc)
                     sa (elements (getChildren sa entityId));
             Some (_unlink entityId sb)
           end;
      let s2 := drop_from_index entityId s1 in
      Some (set_entities (entities s2 ∖ {[entityId]})
              (set_entityComponents (delete entityId (entityComponents s2)) s2),
            true)
  end.

(** ** removeComponent *)

(** [removeComponent(entityId, componentType)] *)
Definition removeComponent (fuel : nat) (s : Store) (entityId : Z) (componentType : string)
    : option (Store * bool) :=
  if blank componentType then Some (s, false)
  else if negb (hasEntity s entityId) then Some (s, false)
  else
    match entityComponents s !! entityId ≫= λ m, m !! componentType with
    | None => Some (s, false)
    | Some component =>
      s1 ← (if bool_decide (componentType = "transform") then
              match component with
              | CTransform t =>
                sa ← for_each
                        (λ acc childId,
                           if hasEntity acc childId
                           then fst <$> setParent fuel acc childId VNull
                           else Some acc)
                        s (elements (children t));
                Some (match parent <$> getTransform sa entityId with
                      | Some (VNum p) =>
                        match getTransform sa p with
                        | Some _ => _removeChild p entityId sa
                        | None => sa
                        end
                      | _ => sa
                      end)
              | CUser _ _ => Some s
              end
            else Some s);
      Some (_removeComponentFromEntityMap entityId componentType
              (set_entityComponents
                 (alter (delete componentType) entityId (entityComponents s1)) s1),
            true)
    end.

(** ** addComponent *)

(** One step of the update loop on an own property of the instance. *)
Definition assign (old newValue : Value) : Value :=
  match newValue with
  | VArr items => if json_differs old newValue then VArr items else old
  | _ => if strict_eq old newValue then old else newValue
  end.

(** The update loop over a user component's properties. *)
Definition update_fields (fields componentData : Data) : Data :=
  foldl (λ acc kv, if has_key acc kv.1
                   then put acc kv.1 (assign (get acc kv.1) kv.2)
                   else acc)
        fields componentData.

(** The update loop over a transform: 'parent' and 'children' are skipped
    here; the other own properties are position, rotation and scale. *)
Definition update_transform (t : TransformComponent) (componentData : Data) : TransformComponent :=
  foldl (λ acc kv,
           if bool_decide (kv.1 = "position") then
             {| position := assign (position acc) kv.2; rotation := rotation acc;
                scale := scale acc; parent := parent acc; children := children acc |}
           else if bool_decide (kv.1 = "rotation") then
             {| position := position acc; rotation := assign (rotation acc) kv.2;
                scale := scale acc; parent := parent acc; children := children acc |}
           else if bool_decide (kv.1 = "scale") then
             {| position := position acc; rotation := rotation acc;
                scale := assign (scale acc) kv.2; parent := parent acc;
                children := children acc |}
           else acc)
        t componentData.

(** [targetParent] after the loop: the value of the last 'parent' key. *)
Definition target_parent (componentData : Data) : option Value :=
  foldl (λ acc kv, if bool_decide (kv.1 = "parent") then Some kv.2 else acc)
        None componentData.

(** [this.entityComponents.get(entityId)?.set(componentType, component)] *)
Definition store_component (entityId : Z) (componentType : string) (c : Component) (s : Store) : Store :=
  set_entityComponents (alter (insert componentType c) entityId (entityComponents s)) s.

(** [this.entityComponents.get(entityId)?.delete(componentType)] *)
Definition unstore_component (entityId : Z) (componentType : string) (s : Store) : Store :=
  set_entityComponents (alter (delete componentType) entityId (entityComponents s)) s.

(** [addComponent(entityId, componentType, data)]; the second component of
    the result is the instance returned, [None] for [null]. *)
Definition addComponent (fuel : nat) (reg : ComponentRegistry) (s : Store)
    (entityId : Z) (componentType : string) (data : Value)
    : option (Store * option Component) :=
  if blank componentType then Some (s, None)
  else if negb (hasEntity s entityId) then Some (s, None)
  else
    match registry_get reg componentType with
    | None => Some (s, None)
    | Some ComponentConstructor =>
      let componentData := del (if is_object data then entries data else []) "source" in
      match getComponent s entityId componentType with
      | None =>
        match ComponentConstructor with
        | TransformClass =>
          match new_TransformComponent componentData with
          | None => Some (s, None)
          | Some t =>
            Some (_addComponentToEntityMap entityId componentType
                    (store_component entityId componentType (CTransform t) s),
                  Some (CTransform t))
          end
        | UserClass cls =>
          match construct cls componentData with
          | None => Some (s, None)
          | Some fields =>
            if negb (extendsComponent cls) then Some (s, None)
            else
              let s1 := _addComponentToEntityMap entityId componentType
                          (store_component entityId componentType (CUser cls fields) s) in
              match onAdd cls entityId fields with
              | None =>
                Some (_removeComponentFromEntityMap entityId componentType
                        (unstore_component entityId componentType s1), None)
              | Some fields' =>
                Some (store_component entityId componentType (CUser cls fields') s1,
                      Some (CUser cls fields'))
              end
          end
        end
      | Some (CUser cls fields) =>
        let fields1 := update_fields fields componentData in
        match onUpdate cls fields1 componentData with
        | None => Some (store_component entityId componentType (CUser cls fields1) s, None)
        | Some fields2 =>
          Some (store_component entityId componentType (CUser cls fields2) s,
                Some (CUser cls fields2))
        end
      | Some (CTransform t) =>
        let t1 := update_transform t componentData in
        let s1 := store_component entityId componentType (CTransform t1) s in
        s2 ← match target_parent componentData with
             | Some targetParent =>
               if bool_decide (componentType = "transform")
                  && negb (strict_eq (parent t1) targetParent)
               then fst <$> setParent fuel s1 entityId targetParent
               else Some s1
             | None => Some s1
             end;
        Some (s2, getComponent s2 entityId componentType)
      end
    end.

(** ** clear *)

(** [clear()]: every entity goes through [removeEntity], then the maps are
    emptied and the counter reset. *)
Definition clear (fuel : nat) (s : Store) : option Store :=
  _ ← for_each (λ acc id, fst <$> removeEntity fuel acc id) s (elements (entities s));
  Some new_store.

(** ** serialize *)

Definition component_serialize (c : Component) : option Value :=
  match c with
  | CTransform t => TransformComponent_serialize t
  | CUser cls fields => serialize_ cls fields
  end.

(** What [getEntityState] stores for one component: the serialized data, or
    [{}] when [serialize()] throws or returns something that is no object. *)
Definition serialized (c : Component) : Value :=
  match component_serialize c with
  | Some v => if is_object v then v else VObj []
  | None => VObj []
  end.

(** [getEntityState(entityId)]; [None] for [null]. *)
Definition getEntityState (s : Store) (entityId : Z) : option Value :=
  if negb (hasEntity s entityId) then None
  else
    Some (VObj [("id", VNum entityId);
                ("components",
                 VObj (match entityComponents s !! entityId with
                       | Some m => prod_map id serialized <$> map_to_list m
                       | None => []
                       end))]).

(** [serialize()]: the document that parsing the returned JSON text gives
    back. *)
Definition serialize (s : Store) : Value :=
  json (VObj [("entities",
               VArr (omap (getEntityState s) (merge_sort Z.le (elements (entities s)))))]).

(** ** deserialize *)

(** [_restoreSingleEntityBase(id, entityData)] *)
Definition _restoreSingleEntityBase (fuel : nat) (s : Store) (id : Z) : option (Store * bool) :=
  if hasEntity s id then
    s1 ← match entityComponents s !! id with
         | Some m =>
           for_each (λ acc type, fst <$> removeComponent fuel acc id type)
                    s (map fst (map_to_list m))
         | None => Some s
         end;
    Some (set_entityComponents (<[id := ∅]> (entityComponents s1)) s1, true)
  else
    Some (set_nextEntityId (if id >=? nextEntityId s then id + 1 else nextEntityId s)
            (set_entityComponents (<[id := ∅]> (entityComponents s))
               (set_entities ({[id]} ∪ entities s) s)),
          true).

(** The data handed to [addComponent] for one component of the document. *)
Definition restore_data (type : string) (data : Value) : Value :=
  VObj (put (if bool_decide (type = "transform")
             then put (put (entries data) "parent" VUndefined) "children" VUndefined
             else entries data)
            "source" (VStr "deserialize")).

(** One iteration of the loop of [_restoreEntityComponents]: the store and
    the error count. *)
Definition restore_component (fuel : nat) (reg : ComponentRegistry) (id : Z)
    (acc : option (Store * nat)) (kv : string * Value) : option (Store * nat) :=
  match acc with
  | None => None
  | Some (st, componentErrors) =>
    if negb (is_object kv.2) then Some (st, S componentErrors)
    else if negb (registry_has reg kv.1) then Some (st, S componentErrors)
    else
      match addComponent fuel reg st id kv.1 (restore_data kv.1 kv.2) with
      | None => None
      | Some (st', None) => Some (st', S componentErrors)
      | Some (st', Some _) => Some (st', componentErrors)
      end
  end.

(** [_restoreEntityComponents(id, componentsData)] *)
Definition _restoreEntityComponents (fuel : nat) (reg : ComponentRegistry) (s : Store)
    (entityId : Z) (componentsData : Value) : option (Store * bool) :=
  if negb (is_object componentsData) then Some (s, true)
  else
    prod_map id (λ componentErrors, bool_decide (componentErrors = O))
      <$> foldl (restore_component fuel reg entityId) (Some (s, O)) (entries componentsData).

(** The state of the first pass. *)
Record Pass1 := mkPass1 {
  store : Store;
  highestId : Z;
  restoredEntityIds : list Z;
  success : bool
}.

(** One iteration of the first pass. *)
Definition restore_entity (fuel : nat) (reg : ComponentRegistry) (p : Pass1) (entityData : Value)
    : option Pass1 :=
  match (if truthy entityData then prop entityData "id" else VUndefined) with
  | VNum id =>
    match _restoreSingleEntityBase fuel (store p) id with
    | None => None
    | Some (s1, false) =>
      Some {| store := s1; highestId := highestId p;
              restoredEntityIds := restoredEntityIds p; success := false |}
    | Some (s1, true) =>
      let components := prop entityData "components" in
      match _restoreEntityComponents fuel reg s1 id
              (if truthy components then components else VObj []) with
      | None => None
      | Some (s2, true) =>
        Some {| store := s2; highestId := Z.max (highestId p) id;
                restoredEntityIds :=
                  if bool_decide (id ∈ restoredEntityIds p) then restoredEntityIds p
                  else restoredEntityIds p ++ [id];
                success := success p |}
      | Some (s2, false) =>
        Some {| store := s2; highestId := highestId p;
                restoredEntityIds := restoredEntityIds p; success := false |}
      end
    end
  | _ =>
    Some {| store := store p; highestId := highestId p;
            restoredEntityIds := restoredEntityIds p; success := false |}
  end.

(** [data.entities.find(e => e.id === entityId)].  [None]: the callback
    threw on a [null] or [undefined] element; [Some None]: nothing found. *)
Fixpoint find_entity (items : list Value) (entityId : Z) : option (option Value) :=
  match items with
  | [] => Some None
  | e :: rest =>
    match e with
    | VUndefined | VNull => None
    | _ => if strict_eq (prop e "id") (VNum entityId) then Some (Some e)
           else find_entity rest entityId
    end
  end.

(** One iteration of the second pass on a found entity: the store and
    whether a hierarchy error was counted. *)
Definition rebuild_parent (fuel : nat) (s : Store) (restored : list Z) (entityId : Z)
    (entityData : Value) : option (Store * bool) :=
  let transformData := prop (prop entityData "components") "transform" in
  if truthy transformData && has_own transformData "parent" then
    let targetParentId := prop transformData "parent" in
    match targetParentId with
    | VNull => prod_map id negb <$> setParent fuel s entityId VNull
    | VNum p =>
      if bool_decide (p ∈ restored)
      then prod_map id negb <$> setParent fuel s entityId targetParentId
      else prod_map id (λ _, true) <$> setParent fuel s entityId VNull
    | _ => prod_map id (λ _, true) <$> setParent fuel s entityId VNull
    end
  else Some (s, false).

(** The second pass: the store, whether an error was counted, and whether
    [find] threw. *)
Fixpoint rebuild_hierarchy (fuel : nat) (s : Store) (items : list Value) (restored todo : list Z)
    (errors : bool) : option (Completion bool) :=
  match todo with
  | [] => Some (Returns s errors)
  | entityId :: rest =>
    match find_entity items entityId with
    | None => Some (Throws s)
    | Some None => rebuild_hierarchy fuel s items restored rest errors
    | Some (Some entityData) =>
      match rebuild_parent fuel s restored entityId entityData with
      | None => None
      | Some (s', err) => rebuild_hierarchy fuel s' items restored rest (errors || err)
      end
    end
  end.

(** The [while (this.entities.has(this.nextEntityId))] loop at the end. *)
Fixpoint skip_live (fuel : nat) (live : gset Z) (n : Z) : option Z :=
  if bool_decide (n ∈ live) then
    match fuel with
    | O => None
    | S fuel' =>
      if n + 1 >? MAX_SAFE_INTEGER then Some (n + 1)
      else skip_live fuel' live (n + 1)
    end
  else Some n.

(** [deserialize(jsonOrObject)]; the argument is the object, or what
    [JSON.parse] made of the string ([None] when the string does not
    parse). *)
Definition deserialize (fuel : nat) (reg : ComponentRegistry) (s : Store)
    (jsonOrObject : option Value) : option (Completion bool) :=
  match jsonOrObject with
  | Some (VObj data) =>
    match get data "entities" with
    | VArr items =>
      s0 ← clear fuel s;
      p ← foldl (λ acc entityData, p ← acc; restore_entity fuel reg p entityData)
                (Some {| store := s0; highestId := 0; restoredEntityIds := [];
                         success := true |})
                items;
      r ← rebuild_hierarchy fuel (store p) items (restoredEntityIds p)
            (restoredEntityIds p) false;
      match r with
      | Throws s' => Some (Throws s')
      | Returns s' hierarchyErrors =>
        n ← skip_live fuel (entities s') (highestId p + 1);
        Some (Returns (set_nextEntityId (if n <? 1 then 1 else n) s')
                      (success p && negb hierarchyErrors))
      end
    | _ => s0 ← clear fuel s; Some (Returns s0 false)
    end
  | _ => s0 ← clear fuel s; Some (Returns s0 false)
  end.

(** ** Queries over several types *)

(** [typeof type === 'string' && type.trim() !== ''] *)
Definition type_name (v : Value) : option string :=
  match v with
  | VStr s => if blank s then None else Some s
  | _ => None
  end.

(** The loop of [getEntitiesWithComponents] that looks for the smallest
    index set; [None] when it returns [[]] at a type without entities. *)
Fixpoint smallest_set (s : Store) (types : list string) (smallest : option (gset Z))
    : option (option (gset Z)) :=
  match types with
  | [] => Some smallest
  | type :: rest =>
    match componentEntityMap s !! type with
    | None => None
    | Some set =>
      if (size set =? 0)%nat then None
      else
        smallest_set s rest
          (match smallest with
           | None => Some set
           | Some found => if (size set <? size found)%nat then Some set else smallest
           end)
    end
  end.

(** [getEntitiesWithComponents(componentTypes)] *)
Definition getEntitiesWithComponents (s : Store) (componentTypes : Value) : list Z :=
  match componentTypes with
  | VArr [] => elements (entities s)
  | VArr items =>
    match mapM type_name items with
    | None => []
    | Some types =>
      match smallest_set s types None with
      | Some (Some smallestSet) =>
        filter (λ id, forallb (hasComponent s id) types = true) (elements smallestSet)
      | _ => []
      end
    end
  | _ => []
  end.

End EntityManager.

(** * System scheduler: src/ecs/system-manager.js, class SystemManager *)
Module SystemManager.
Section Scheduler.

(** What the systems' callbacks act on (entities, renderer, physics world)
    and what they throw.  A callback works on the [World]; it is not
    modelled as calling back into the scheduler during the tick. *)
Context {World Err : Type}.

Inductive Outcome :=
| Returns (w : World)
| Throws (w : World) (e : Err).

(** [SystemTiming]; [deltaTime] is [None] for a value that is not a finite
    number (the test [typeof time.deltaTime !== 'number' || !isFinite(..)]). *)
Record SystemTiming := mkTiming { deltaTime : option Z }.

Definition Callback : Type := SystemTiming → World → Outcome.

(** [ISystem]: the three optional lifecycle methods the update loop calls. *)
Record ISystem := mkSystem {
  preUpdate : option Callback;
  update : option Callback;
  postUpdate : option Callback
}.

Record SystemState := mkState {
  isInitialized : bool;
  priority : Z;
  isActive : bool
}.

(** The scheduler's fields read by [update(time)].  The two sets that only
    throttle log lines ([_loggedSystems], [_loggedSkips]) are left out. *)
Record Manager := mkManager {
  systems : gmap string ISystem;
  systemStates : gmap string SystemState;
  executionOrder : list string;
  _updateCounter : Z
}.

(** The outcome of one tick: the world as the callbacks left it, the systems
    whose callbacks were entered (in order), the error re-thrown to the
    caller if any, and whether [this.engine?.stop()] was called. *)
Record Tick := mkTick {
  world : World;
  ran : list string;
  thrown : option Err;
  engineStopped : bool
}.

(** [system.method?.(time)] *)
Definition call (cb : option Callback) (t : SystemTiming) (w : World) : Outcome :=
  match cb with
  | None => Returns w
  | Some f => f t w
  end.

(** The body of the [try]: preUpdate, update, postUpdate, in that order. *)
Definition run_callbacks (sys : ISystem) (t : SystemTiming) (w : World) : Outcome :=
  match call (preUpdate sys) t w with
  | Throws w' e => Throws w' e
  | Returns w1 =>
    match call (update sys) t w1 with
    | Throws w' e => Throws w' e
    | Returns w2 => call (postUpdate sys) t w2
    end
  end.

(** The loop's test [!system || !state || !state.isInitialized || !state.isActive]:
    [None] when the iteration is skipped with [continue]. *)
Definition runnable (m : Manager) (name : string) : option ISystem :=
  match systems m !! name, systemStates m !! name with
  | Some sys, Some st =>
    if negb (isInitialized st) || negb (isActive st) then None else Some sys
  | _, _ => None
  end.

(** [for (const name of this.executionOrder) { ... }] *)
Fixpoint run_order (m : Manager) (order : list string) (t : SystemTiming)
    (w : World) (done_ : list string) : Tick :=
  match order with
  | [] => {| world := w; ran := done_; thrown := None; engineStopped := false |}
  | name :: rest =>
    match runnable m name with
    | None => run_order m rest t w done_
    | Some sys =>
      match run_callbacks sys t w with
      | Returns w' => run_order m rest t w' (done_ ++ [name])
      | Throws w' e =>
        {| world := w'; ran := done_ ++ [name]; thrown := Some e;
           engineStopped := false |}
      end
    end
  end.

(** [update(time)]; [time] is [None] for a falsy argument. *)
Definition tick (m : Manager) (time : option SystemTiming) (w : World) : Manager * Tick :=
  let m' := {| systems := systems m; systemStates := systemStates m;
               executionOrder := executionOrder m;
               _updateCounter := _updateCounter m + 1 |} in
  match time with
  | None => (m', {| world := w; ran := []; thrown := None; engineStopped := true |})
  | Some t =>
    match deltaTime t with
    | None => (m', {| world := w; ran := []; thrown := None; engineStopped := true |})
    | Some _ => (m', run_order m' (executionOrder m') t w [])
    end
  end.

End Scheduler.
Arguments Outcome : clear implicits.
Arguments Callback : clear implicits.
Arguments ISystem : clear implicits.
Arguments Manager : clear implicits.
Arguments Tick : clear implicits.
End SystemManager.

(** * System registration: src/ecs/system-manager.js, register to getSystemNames *)
Module SystemRegistry.
Import SystemManager.
Section Registration.
Context {World Err : Type}.

(** A JS [Map] keyed by system name, in insertion order: [set] on a key
    that is present keeps its place, on a new key appends. *)
Definition NameMap (A : Type) : Type := list (string * A).

Fixpoint map_get {A : Type} (m : NameMap A) (name : string) : option A :=
  match m with
  | [] => None
  | (k, v) :: rest => if bool_decide (k = name) then Some v else map_get rest name
  end.

Fixpoint map_set {A : Type} (m : NameMap A) (name : string) (v : A) : NameMap A :=
  match m with
  | [] => [(name, v)]
  | (k, x) :: rest =>
    if bool_decide (k = name) then (k, v) :: rest else (k, x) :: map_set rest name v
  end.

Definition map_delete {A : Type} (m : NameMap A) (name : string) : NameMap A :=
  filter (λ kv, kv.1 ≠ name) m.

(** A system object as [register] reads it: its lifecycle callbacks, its
    [priority] ([None] when it is not a finite number) and its [active]
    property ([None] when undefined, its truthiness otherwise).  What
    [initialize] and [cleanup] do is host code; they are taken not to call
    back into the manager. *)
Record System := mkSystemObject {
  methods : ISystem World Err;
  declaredPriority : option Z;
  declaredActive : option bool
}.

(** The manager's fields that registration reads and writes. *)
Record Registry := mkRegistry {
  systemsMap : NameMap System;
  statesMap : NameMap SystemState;
  order : list string
}.

(** [new SystemManager(...)] *)
Definition new_registry : Registry :=
  {| systemsMap := []; statesMap := []; order := [] |}.

(** [Array.prototype.sort] with the comparator
    [(a, b) => a.priority - b.priority]: a stable sort, written as an
    insertion sort that puts an entry before the first one that does not
    have a lower priority. *)
Fixpoint insert_by_priority (x : string * SystemState) (l : list (string * SystemState))
    : list (string * SystemState) :=
  match l with
  | [] => [x]
  | y :: rest =>
    if priority x.2 <=? priority y.2 then x :: y :: rest
    else y :: insert_by_priority x rest
  end.

Definition sort_by_priority (l : list (string * SystemState)) : list (string * SystemState) :=
  foldr insert_by_priority [] l.

(** [_sortSystems()] *)
Definition _sortSystems (r : Registry) : Registry :=
  {| systemsMap := systemsMap r; statesMap := statesMap r;
     order := fst <$> sort_by_priority (statesMap r) |}.

(** [unregister(name)] *)
Definition unregister (name : string) (r : Registry) : Registry :=
  match map_get (systemsMap r) name with
  | None => r
  | Some _ =>
    _sortSystems {| systemsMap := map_delete (systemsMap r) name;
                    statesMap := map_delete (statesMap r) name;
                    order := order r |}
  end.

(** [register(name, system)] up to the call of [system.initialize]; [None]
    when the name is rejected. *)
Definition register_begin (name : string) (system : System) (r : Registry) : option Registry :=
  if Js.blank name then None
  else
    let r1 := match map_get (systemsMap r) name with
              | Some _ => unregister name r
              | None => r
              end in
    Some {| systemsMap := map_set (systemsMap r1) name system;
            statesMap :=
              map_set (statesMap r1) name
                {| isInitialized := false;
                   priority := default 0 (declaredPriority system);
                   isActive := default true (declaredActive system) |};
            order := order r1 |}.

(** The rest of [register] once [initialize] has returned ([ok]) or
    thrown. *)
Definition register_finish (name : string) (ok : bool) (r : Registry) : Registry :=
  if ok then
    _sortSystems
      {| systemsMap := systemsMap r;
         statesMap :=
           match map_get (statesMap r) name with
           | Some st =>
             map_set (statesMap r) name
               {| isInitialized := true; priority := priority st; isActive := isActive st |}
           | None => statesMap r
           end;
         order := order r |}
  else
    {| systemsMap := map_delete (systemsMap r) name;
       statesMap := map_delete (statesMap r) name;
       order := order r |}.

(** [setPriority(name, priority)]; [None] for a value that is not a finite
    number. *)
Definition setPriority (name : string) (p : option Z) (r : Registry) : Registry :=
  match map_get (statesMap r) name, p with
  | Some st, Some v =>
    if priority st =? v then r
    else
      _sortSystems
        {| systemsMap := systemsMap r;
           statesMap :=
             map_set (statesMap r) name
               {| isInitialized := isInitialized st; priority := v; isActive := isActive st |};
           order := order r |}
  | _, _ => r
  end.

(** [setSystemActive(name, isActive)]; [None] for a value that is not a
    boolean. *)
Definition setSystemActive (name : string) (a : option bool) (r : Registry) : Registry :=
  match a, map_get (statesMap r) name with
  | Some v, Some st =>
    if negb (isInitialized st) then r
    else if Bool.eqb (isActive st) v then r
    else
      {| systemsMap := systemsMap r;
         statesMap :=
           map_set (statesMap r) name
             {| isInitialized := isInitialized st; priority := priority st; isActive := v |};
         order := order r |}
  | _, _ => r
  end.

(** [isSystemActive(name)] *)
Definition isSystemActive (name : string) (r : Registry) : bool :=
  match map_get (statesMap r) name with
  | Some st => isActive st
  | None => false
  end.

(** [getSystemNames()] *)
Definition getSystemNames (r : Registry) : list string := fst <$> systemsMap r.

(** The scheduler that [update(time)] sees. *)
Definition manager_of (r : Registry) (counter : Z) : Manager World Err :=
  {| systems := list_to_map (prod_map id methods <$> systemsMap r);
     systemStates := list_to_map (statesMap r);
     executionOrder := order r;
     _updateCounter := counter |}.

End Registration.
Arguments System : clear implicits.
Arguments Registry : clear implicits.
End SystemRegistry.

(** * Command stack: src/editor/command-manager.js, class CommandManager *)
Module CommandManager.

(** A [Command] object as the manager reads it: its [name] and its
    [isUndoable] flag.  What [command.execute()] and [command.undo()] do is
    host code; each invocation is described by a [Body].  The flag is the
    one the command's constructor set, which is where every command class
    of the repository assigns it: the manager reads the property again
    after [command.execute()] and at each pop, and a command that assigns
    to its own [isUndoable] while it runs is not described by this
    record. *)
Record Command := mkCommand { name : string; isUndoable : bool }.

(** The argument of [execute(command)]: the source tests
    [command instanceof Command] first. *)
Inductive Arg :=
| NotACommand
| IsCommand (c : Command).

(** Calls a command body can make back into the manager while it runs
    (LoadSceneCommand.execute calls [commandManager.clear()]). *)
Inductive Reentrant :=
| CallExecute (a : Arg)
| CallUndo
| CallRedo
| CallClear.

(** One invocation of [command.execute()] or [command.undo()]: the calls
    it makes into the manager, then whether it throws. *)
Record Body := mkBody { calls : list Reentrant; throws : bool }.

(** The manager's fields; [emitted] records the [this.emit(...)] calls,
    oldest first.  The stacks are JS arrays: [push] appends at the end,
    [pop] takes the last element, [shift] the first. *)
Record Manager := mkManager {
  undoStack : list Command;
  redoStack : list Command;
  maxStackSize : Z;
  isExecuting : bool;
  emitted : list string
}.

(** [constructor()] *)
Definition new_manager : Manager :=
  {| undoStack := []; redoStack := []; maxStackSize := 100;
     isExecuting := false; emitted := [] |}.

Definition set_undoStack (u : list Command) (m : Manager) : Manager :=
  {| undoStack := u; redoStack := redoStack m; maxStackSize := maxStackSize m;
     isExecuting := isExecuting m; emitted := emitted m |}.

Definition set_redoStack (r : list Command) (m : Manager) : Manager :=
  {| undoStack := undoStack m; redoStack := r; maxStackSize := maxStackSize m;
     isExecuting := isExecuting m; emitted := emitted m |}.

Definition set_maxStackSize (n : Z) (m : Manager) : Manager :=
  {| undoStack := undoStack m; redoStack := redoStack m; maxStackSize := n;
     isExecuting := isExecuting m; emitted := emitted m |}.

Definition set_isExecuting (b : bool) (m : Manager) : Manager :=
  {| undoStack := undoStack m; redoStack := redoStack m;
     maxStackSize := maxStackSize m; isExecuting := b; emitted := emitted m |}.

(** [this.emit(event)] *)
Definition emit (event : string) (m : Manager) : Manager :=
  {| undoStack := undoStack m; redoStack := redoStack m;
     maxStackSize := maxStackSize m; isExecuting := isExecuting m;
     emitted := emitted m ++ [event] |}.

(** [Array.prototype.pop]: the last element and the array without it. *)
Definition pop (l : list Command) : option (Command * list Command) :=
  match reverse l with
  | [] => None
  | c :: r => Some (c, reverse r)
  end.

(** [Array.prototype.shift]: drops the first element. *)
Definition shift (l : list Command) : list Command := tail l.

(** [clear()] *)
Definition clear (m : Manager) : Manager :=
  emit "change" (set_redoStack [] (set_undoStack [] m)).

(** A call made from inside a running body.  The manager is busy then, so
    [execute], [undo] and [redo] return at their first test (see
    [execute_busy], [undo_busy], [redo_busy] below); [clear] has no such
    test. *)
Definition reenter (m : Manager) (r : Reentrant) : Manager :=
  match r with
  | CallClear => clear m
  | CallExecute _ | CallUndo | CallRedo => m
  end.

Definition run_calls (m : Manager) (cs : list Reentrant) : Manager :=
  foldl reenter m cs.

(** [execute(command)]; [b] is what [command.execute()] does this time. *)
Definition execute (m : Manager) (a : Arg) (b : Body) : Manager :=
  match a with
  | NotACommand => m
  | IsCommand c =>
    if isExecuting m then m
    else
      let m1 := run_calls (set_isExecuting true m) (calls b) in
      let m2 :=
        if throws b then m1
        else
          let m' :=
            if isUndoable c then
              let pushed := set_redoStack [] (set_undoStack (undoStack m1 ++ [c]) m1) in
              if Z.of_nat (length (undoStack pushed)) >? maxStackSize pushed
              then set_undoStack (shift (undoStack pushed)) pushed
              else pushed
            else if (0 <? length (redoStack m1))%nat
                 then set_redoStack [] m1
                 else m1 in
          emit "change" m' in
      set_isExecuting false m2
  end.

(** [undo()]; [b] is what [command.undo()] does this time. *)
Definition undo (m : Manager) (b : Body) : Manager :=
  if isExecuting m || (length (undoStack m) =? 0)%nat then m
  else
    match pop (undoStack m) with
    | None => m
    | Some (c, rest) =>
      let m0 := set_undoStack rest m in
      if negb (isUndoable c) then emit "change" m0
      else
        let m1 := run_calls (set_isExecuting true m0) (calls b) in
        let m2 :=
          if throws b
          then emit "change" (set_undoStack (undoStack m1 ++ [c]) m1)
          else emit "change" (set_redoStack (redoStack m1 ++ [c]) m1) in
        set_isExecuting false m2
    end.

(** [redo()]; [b] is what [command.execute()] does this time. *)
Definition redo (m : Manager) (b : Body) : Manager :=
  if isExecuting m || (length (redoStack m) =? 0)%nat then m
  else
    match pop (redoStack m) with
    | None => m
    | Some (c, rest) =>
      let m0 := set_redoStack rest m in
      if negb (isUndoable c) then emit "change" m0
      else
        let m1 := run_calls (set_isExecuting true m0) (calls b) in
        let m2 :=
          if throws b
          then emit "change" (set_redoStack (redoStack m1 ++ [c]) m1)
          else emit "change" (set_undoStack (undoStack m1 ++ [c]) m1) in
        set_isExecuting false m2
    end.

(** The public operations, for runs of the manager. *)
Inductive Op :=
| OExecute (a : Arg) (b : Body)
| OUndo (b : Body)
| ORedo (b : Body)
| OClear.

Definition step (m : Manager) (o : Op) : Manager :=
  match o with
  | OExecute a b => execute m a b
  | OUndo b => undo m b
  | ORedo b => redo m b
  | OClear => clear m
  end.

Definition run (m : Manager) (ops : list Op) : Manager := foldl step m ops.

(** A body that returns normally and one that throws, neither calling back
    into the manager. *)
Definition succeeds : Body := {| calls := []; throws := false |}.
Definition fails : Body := {| calls := []; throws := true |}.

(** [canUndo()], [canRedo()] *)
Definition canUndo (m : Manager) : bool :=
  (0 <? length (undoStack m))%nat && negb (isExecuting m).

Definition canRedo (m : Manager) : bool :=
  (0 <? length (redoStack m))%nat && negb (isExecuting m).

End CommandManager.

(** * Reparenting as a command: src/editor/command-manager.js, class ReparentEntityCommand *)
Module ReparentEntityCommand.
Import Js EntityManager.

(** The command's own fields; [childId] is a number. *)
Record Command := mkCommand {
  childId : Z;
  newParentId : Value;
  oldParentId : Value;
  stateCaptured : bool
}.

(** [new ReparentEntityCommand(engine, childId, newParentId)] *)
Definition new_command (childId : Z) (newParentId : Value) : Command :=
  {| childId := childId; newParentId := newParentId; oldParentId := VNull;
     stateCaptured := false |}.

(** How a method of the command ends; the command object keeps what was
    written to it before a throw. *)
Inductive Outcome :=
| Done (s : Store) (c : Command)
| Failed (s : Store) (c : Command).

(** [execute()] *)
Definition execute (fuel : nat) (s : Store) (c : Command) : option Outcome :=
  if negb (hasEntity s (childId c)) then Some (Failed s c)
  else if negb (strict_eq (newParentId c) VNull) && negb (hasEntityV s (newParentId c))
  then Some (Failed s c)
  else
    let captured :=
      if stateCaptured c then Some c
      else match getTransform s (childId c) with
           | None => None
           | Some transform =>
             Some {| childId := childId c; newParentId := newParentId c;
                     oldParentId := parent transform; stateCaptured := true |}
           end in
    match captured with
    | None => Some (Failed s c)
    | Some c1 =>
      match setParent fuel s (childId c1) (newParentId c1) with
      | None => None
      | Some (s', true) => Some (Done s' c1)
      | Some (s', false) => Some (Failed s' c1)
      end
    end.

(** [undo()]; it never throws. *)
Definition undo (fuel : nat) (s : Store) (c : Command) : option (Store * Command) :=
  if negb (stateCaptured c) then Some (s, c)
  else if negb (hasEntity s (childId c)) then Some (s, c)
  else
    let c1 :=
      if negb (strict_eq (oldParentId c) VNull) && negb (hasEntityV s (oldParentId c))
      then {| childId := childId c; newParentId := newParentId c;
              oldParentId := VNull; stateCaptured := stateCaptured c |}
      else c in
    match setParent fuel s (childId c1) (oldParentId c1) with
    | None => None
    | Some (s', _) => Some (s', c1)
    end.

End ReparentEntityCommand.

(** * Event emitter: src/utils/event-emitter.js, class EventEmitter *)
Module EventEmitter.

(** A listener is a function object, compared by identity: a callback of
    the caller's, named by a number, or a wrapper made by [once], a new
    object at each call, which remembers the callback it wraps.  The caller
    never gets hold of a wrapper: [once] returns a closure around it. *)
Inductive Listener :=
| Callback (f : nat)
| OnceWrapper (w : nat) (originalCallback : nat).

#[global] Instance Listener_eq_dec : EqDecision Listener.
Proof. solve_decision. Defined.

(** [listener.originalCallback] *)
Definition original (l : Listener) : option Listener :=
  match l with
  | OnceWrapper _ f => Some (Callback f)
  | Callback _ => None
  end.

(** The emitter's two maps; the [Set] of wrappers of an event is kept in
    insertion order, which is the order [off] searches it in.
    [wrappersMade] numbers the wrappers. *)
Record Emitter := mkEmitter {
  listeners : gmap string (list Listener);
  onceListeners : gmap string (list Listener);
  wrappersMade : nat
}.

(** [new EventEmitter()] *)
Definition new_emitter : Emitter :=
  {| listeners := ∅; onceListeners := ∅; wrappersMade := 0 |}.

(** [array.indexOf(x)] followed by [array.splice(index, 1)] when the index
    is not -1; also [set.delete(x)]. *)
Fixpoint remove_first (x : Listener) (l : list Listener) : list Listener :=
  match l with
  | [] => []
  | y :: rest => if decide (y = x) then rest else y :: remove_first x rest
  end.

(** [on(event, callback)] *)
Definition on (event : string) (callback : Listener) (e : Emitter) : Emitter :=
  {| listeners := <[event := default [] (listeners e !! event) ++ [callback]]> (listeners e);
     onceListeners := onceListeners e;
     wrappersMade := wrappersMade e |}.

(** [off(event, callback)] *)
Definition off (event : string) (callback : Listener) (e : Emitter) : Emitter :=
  match listeners e !! event with
  | None => e
  | Some eventListeners =>
    if bool_decide (callback ∈ eventListeners) then
      {| listeners := <[event := remove_first callback eventListeners]> (listeners e);
         onceListeners := onceListeners e;
         wrappersMade := wrappersMade e |}
    else
      match onceListeners e !! event with
      | None => e
      | Some wrappers =>
        match list_find (λ onceWrapper, original onceWrapper = Some callback) wrappers with
        | None => e
        | Some (_, onceWrapper) =>
          {| listeners := <[event := remove_first onceWrapper eventListeners]> (listeners e);
             onceListeners := <[event := remove_first onceWrapper wrappers]> (onceListeners e);
             wrappersMade := wrappersMade e |}
        end
      end
  end.

(** [once(event, callback)] *)
Definition once (event : string) (callback : nat) (e : Emitter) : Emitter :=
  let onceWrapper := OnceWrapper (wrappersMade e) callback in
  let e1 := on event onceWrapper e in
  {| listeners := listeners e1;
     onceListeners :=
       <[event := default [] (onceListeners e1 !! event) ++ [onceWrapper]]> (onceListeners e1);
     wrappersMade := S (wrappersMade e) |}.

(** [offAll(event)]; [None] is [undefined], and the empty string is falsy
    too. *)
Definition offAll (event : option string) (e : Emitter) : Emitter :=
  match event with
  | Some name =>
    if bool_decide (name = "") then
      {| listeners := ∅; onceListeners := ∅; wrappersMade := wrappersMade e |}
    else
      {| listeners := delete name (listeners e);
         onceListeners := delete name (onceListeners e);
         wrappersMade := wrappersMade e |}
  | None => {| listeners := ∅; onceListeners := ∅; wrappersMade := wrappersMade e |}
  end.

(** [listenerCount(event)] *)
Definition listenerCount (event : string) (e : Emitter) : nat :=
  match listeners e !! event with
  | Some eventListeners => length eventListeners
  | None => O
  end.

Section Emit.

(** What the callbacks act on, what they are handed, and what each does:
    the world it leaves and whether it threw.  A callback is taken not to
    call back into the emitter. *)
Context {World Data : Type} (run : nat → Data → World → World * bool).

(** The state during an [emit]: the emitter, the world, the callbacks
    entered so far and the number of errors logged. *)
Record Emission := mkEmission {
  emitter : Emitter;
  world : World;
  called : list nat;
  errors : nat
}.

(** The body of the callback call, inside its [try]. *)
Definition enter (f : nat) (data : Data) (st : Emission) : Emission :=
  {| emitter := emitter st;
     world := (run f data (world st)).1;
     called := called st ++ [f];
     errors := if (run f data (world st)).2 then S (errors st) else errors st |}.

(** One iteration of the loop of [emit]: a wrapper takes itself off
    first. *)
Definition invoke (event : string) (data : Data) (st : Emission) (listener : Listener)
    : Emission :=
  match listener with
  | Callback f => enter f data st
  | OnceWrapper _ f =>
    enter f data
      {| emitter := off event listener (emitter st); world := world st;
         called := called st; errors := errors st |}
  end.

(** [emit(event, data)]: the loop runs over a copy of the array. *)
Definition emit (event : string) (data : Data) (e : Emitter) (w : World) : Emission :=
  match listeners e !! event with
  | None => {| emitter := e; world := w; called := []; errors := O |}
  | Some eventListeners =>
    foldl (invoke event data) {| emitter := e; world := w; called := []; errors := O |}
          eventListeners
  end.

End Emit.
Arguments Emission : clear implicits.
End EventEmitter.

(** * Properties *)

Module EntityManagerProofs.
Import Js EntityManager.
(** ** Setters and primitive updates *)

Lemma modify_transform_entities f id s : entities (modify_transform f id s) = entities s.
Proof. done. Qed.

Lemma modify_transform_next f id s : nextEntityId (modify_transform f id s) = nextEntityId s.
Proof. done. Qed.

Lemma modify_transform_index f id s :
  componentEntityMap (modify_transform f id s) = componentEntityMap s.
Proof. done. Qed.

Lemma hasEntity_true s id : hasEntity s id = true ↔ id ∈ entities s.
Proof. unfold hasEntity. by rewrite bool_decide_eq_true. Qed.

Lemma hasEntity_false s id : hasEntity s id = false ↔ id ∉ entities s.
Proof. unfold hasEntity. by rewrite bool_decide_eq_false. Qed.

Lemma strict_eq_null v : strict_eq v VNull = true ↔ v = VNull.
Proof. destruct v; simpl; split; congruence. Qed.

Lemma strict_eq_num v n : strict_eq v (VNum n) = true ↔ v = VNum n.
Proof.
  destruct v; simpl; split; try congruence.
  - intros H%Z.eqb_eq. by subst.
  - intros [= ->]. apply Z.eqb_refl.
Qed.

Lemma strict_eq_num_l v n : strict_eq (VNum n) v = true ↔ v = VNum n.
Proof.
  destruct v; simpl; split; try congruence.
  - intros H%Z.eqb_eq. by subst.
  - intros [= ->]. apply Z.eqb_refl.
Qed.

(** ** C3: a rejected setParent changes nothing *)

Lemma setParent_false_unchanged fuel s entityId newParentId s' :
  setParent fuel s entityId newParentId = Some (s', false) → s' = s.
Proof.
  unfold setParent. intros H.
  destruct (check_ancestors fuel s entityId newParentId) as [[]|] eqn:Hwalk;
    repeat (case_match; simplify_eq/=; try done).
Qed.

(** [a] is [v] or an ancestor of [v]: it is met when walking up from [v]
    through the parent fields, as the circular-dependency check does. *)
Inductive ancestor_of (s : Store) (a : Z) : Value → Prop :=
| ancestor_here : ancestor_of s a (VNum a)
| ancestor_up v t :
    getTransformV s v = Some t → ancestor_of s a (parent t) → ancestor_of s a v.

Lemma check_ancestors_meets s a v :
  ancestor_of s a v → ∃ n, ∀ fuel, (n ≤ fuel)%nat → check_ancestors fuel s a v = Some false.
Proof.
  induction 1 as [|v t Ht Hanc [n IH]].
  - exists 1%nat. intros [|fuel] ?; [lia|]. simpl. by rewrite Z.eqb_refl.
  - exists (S n). intros [|fuel] ?; [lia|].
    destruct v; try done. simpl in *.
    destruct (n0 =? a); [done|]. rewrite Ht. apply IH. lia.
Qed.

Lemma ancestor_of_number s a v : ancestor_of s a v → ∃ p, v = VNum p.
Proof. destruct 1 as [|v t Ht _]; [eauto|]. destruct v; try done. eauto. Qed.

(** C3: every setParent call that returns false leaves the store as it was;
    and a call that would introduce a cycle (the child is the new parent or
    one of its ancestors, and is not already its child) returns false, given
    enough steps for the ancestor walk, with the store unchanged. *)
Theorem rejected_setParent_has_no_effect :
  (∀ fuel s entityId newParentId s',
     setParent fuel s entityId newParentId = Some (s', false) → s' = s)
  ∧ (∀ s entityId newParentId,
       ancestor_of s entityId newParentId →
       (∀ t, getTransform s entityId = Some t → parent t ≠ newParentId) →
       ∃ n, ∀ fuel, (n ≤ fuel)%nat →
         setParent fuel s entityId newParentId = Some (s, false)).
Proof.
  split; [apply setParent_false_unchanged|].
  intros s entityId newParentId Hanc Hnew.
  destruct (check_ancestors_meets _ _ _ Hanc) as [n Hn].
  destruct (ancestor_of_number _ _ _ Hanc) as [p ->].
  exists n. intros fuel Hfuel. unfold setParent.
  destruct (negb (hasEntity s entityId)); [done|].
  destruct (_ && _); [done|].
  destruct (strict_eq _ _); [done|].
  destruct (getTransform s entityId) as [t|] eqn:Ht; [|done].
  destruct (_ && _); [done|].
  destruct (strict_eq (parent t) (VNum p)) eqn:Heq.
  { apply strict_eq_num in Heq. by destruct (Hnew t eq_refl). }
  by rewrite (Hn fuel Hfuel).
Qed.

(** Stores used as concrete inputs below. *)
Definition transform_only : ComponentRegistry :=
  {| transformRegistered := true; componentTypes := ∅ |}.

Definition after {A : Type} (r : option (Store * A)) : Store :=
  match r with
  | Some (s, _) => s
  | None => new_store
  end.

Definition created (r : option (Completion Z)) : Store :=
  match r with
  | Some (Returns s _) => s
  | _ => new_store
  end.

(** Entities 1 and 2, no components. *)
Definition two_entities : Store := created (createEntity 1 (created (createEntity 1 new_store))).

(** Entities 1 and 2, each with a default transform. *)
Definition two_roots : Store :=
  after (addComponent 1 transform_only
           (after (addComponent 1 transform_only two_entities 1 "transform" (VObj [])))
           2 "transform" (VObj [])).

(** The same after [setParent(2, 1)]. *)
Definition parent_and_child : Store := after (setParent 1 two_roots 2 (VNum 1)).

Lemma rejected_setParent_has_no_effect_witness :
  ∃ n, ∀ fuel, (n ≤ fuel)%nat →
    setParent fuel parent_and_child 1 (VNum 2) = Some (parent_and_child, false).
Proof.
  destruct rejected_setParent_has_no_effect as [_ Hcycle].
  apply Hcycle.
  - eapply ancestor_up; [vm_compute; reflexivity|]. apply ancestor_here.
  - intros t Ht. vm_compute in Ht. injection Ht as <-. discriminate.
Defined.

(** ** Shape: what an update of a transform in place leaves alone *)

(** Two stores with the same counter, entities and index, and the same
    component types on every entity. *)
Definition same_shape (s s' : Store) : Prop :=
  nextEntityId s' = nextEntityId s
  ∧ entities s' = entities s
  ∧ componentEntityMap s' = componentEntityMap s
  ∧ ∀ id, dom <$> entityComponents s' !! id = dom <$> entityComponents s !! id.

Lemma same_shape_refl s : same_shape s s.
Proof. done. Qed.

Lemma same_shape_trans s1 s2 s3 : same_shape s1 s2 → same_shape s2 s3 → same_shape s1 s3.
Proof.
  intros (?&?&?&H12) (?&?&?&H23).
  split; [congruence|]. split; [congruence|]. split; [congruence|].
  intros id. by rewrite H23, H12.
Qed.

Lemma modify_transform_same_shape f id s : same_shape s (modify_transform f id s).
Proof.
  repeat split. intros i. simpl. rewrite lookup_alter.
  case_decide; [subst|done].
  destruct (entityComponents s !! i) as [m|]; [|done]. simpl.
  f_equal. apply dom_alter_L.
Qed.

Lemma setParent_same_shape fuel s entityId newParentId s' b :
  setParent fuel s entityId newParentId = Some (s', b) → same_shape s s'.
Proof.
  unfold setParent, _setParent, _addChild, _removeChild. intros H.
  destruct (check_ancestors fuel s entityId newParentId) as [[]|] eqn:Hwalk;
    repeat (case_match; simplify_eq/=; try apply same_shape_refl);
    repeat (first [ apply modify_transform_same_shape
                  | eapply same_shape_trans; [|apply modify_transform_same_shape] ]).
Qed.

Lemma for_each_invariant {A} (P : Store → Prop) (body : Store → A → option Store) s l s' :
  (∀ acc x acc', P acc → body acc x = Some acc' → P acc') →
  P s → for_each body s l = Some s' → P s'.
Proof.
  intros Hbody. revert s. induction l as [|x l IH]; intros s Hs H; simpl in H.
  - by simplify_eq.
  - destruct (body s x) as [s1|] eqn:E; [|done]. simpl in H. eauto.
Qed.

Arguments setParent : simpl never.

(** ** createEntity *)

Lemma next_free_found fuel live id r :
  next_free fuel live id = Some (Some r) →
  id <= r ∧ (r ∉ live) ∧ ∀ x, id <= x < r → x ∈ live.
Proof.
  revert id. induction fuel as [|fuel IH]; intros id; simpl;
    case_bool_decide as Hin; intros H; simplify_eq.
  - split; [lia|]. split; [done|]. intros; lia.
  - destruct (_ >? _); [done|]. apply IH in H as (? & ? & Hall).
    split; [lia|]. split; [done|]. intros x ?.
    destruct (decide (x = id)) as [->|]; [done|]. apply Hall. lia.
  - split; [lia|]. split; [done|]. intros; lia.
Qed.

Lemma next_free_enough live fuel id :
  (size (filter (λ x, (id <= x)%Z) live) ≤ fuel)%nat → is_Some (next_free fuel live id).
Proof.
  revert id. induction fuel as [|fuel IH]; intros id Hsize; simpl;
    case_bool_decide as Hin; try by eexists.
  - assert (id ∈ filter (λ x, (id <= x)%Z) live) as Hid by (apply elem_of_filter; split; [lia|done]).
    assert (size (filter (λ x, (id <= x)%Z) live) ≠ 0%nat) as Hne.
    { intros Hz. apply size_empty_inv in Hz. set_solver. }
    lia.
  - destruct (_ >? _); [by eexists|]. apply IH.
    assert (filter (λ x, (id <= x)%Z) live = {[id]} ∪ filter (λ x, (id + 1 <= x)%Z) live) as Heq.
    { apply set_eq. intros x. rewrite elem_of_union, !elem_of_filter, elem_of_singleton.
      split; [intros [? ?]|intros [->|[? ?]]].
      - destruct (decide (x = id)); [by left|right; split; [lia|done]].
      - split; [lia|done].
      - split; [lia|done]. }
    rewrite Heq, size_union, size_singleton in Hsize; [lia|].
    intros x. rewrite elem_of_singleton, elem_of_filter. intros -> [? _]. lia.
Qed.

Lemma createEntity_returns fuel s s' id :
  createEntity fuel s = Some (Returns s' id) →
  (id ∉ entities s)
  ∧ entities s' = {[id]} ∪ entities s
  ∧ nextEntityId s <= id
  ∧ (∀ x, nextEntityId s <= x < id → x ∈ entities s)
  ∧ nextEntityId s' = id + 1
  ∧ entityComponents s' = <[id := ∅]> (entityComponents s)
  ∧ componentEntityMap s' = componentEntityMap s.
Proof.
  unfold createEntity. intros H.
  destruct (next_free fuel (entities s) (nextEntityId s)) as [[r|]|] eqn:E;
    simplify_eq/=.
  apply next_free_found in E as (? & ? & ?). done.
Qed.

Lemma createEntity_total s : is_Some (createEntity (size (entities s)) s).
Proof.
  unfold createEntity.
  destruct (next_free_enough (entities s) (size (entities s)) (nextEntityId s)) as [r ->].
  { apply subseteq_size. intros x. rewrite elem_of_filter. tauto. }
  simpl. destruct r; by eexists.
Qed.

(** ** removeEntity only takes entities away *)

(** The counter is kept and no entity appears. *)
Definition shrinks (s s' : Store) : Prop :=
  nextEntityId s' = nextEntityId s ∧ entities s' ⊆ entities s.

Lemma shrinks_refl s : shrinks s s.
Proof. done. Qed.

Lemma shrinks_trans s1 s2 s3 : shrinks s1 s2 → shrinks s2 s3 → shrinks s1 s3.
Proof. intros [? ?] [? ?]. split; [congruence|set_solver]. Qed.

Lemma same_shape_shrinks s s' : same_shape s s' → shrinks s s'.
Proof. intros (? & He & _). split; [done|]. by rewrite He. Qed.

Lemma drop_from_index_fields id s :
  nextEntityId (drop_from_index id s) = nextEntityId s
  ∧ entities (drop_from_index id s) = entities s
  ∧ entityComponents (drop_from_index id s) = entityComponents s.
Proof.
  unfold drop_from_index. destruct (entityComponents s !! id) as [m|]; [|done].
  induction (map fst (map_to_list m)) as [|T l IH]; [done|]. simpl. apply IH.
Qed.

Lemma removeEntity_shrinks fuel s id s' b :
  removeEntity fuel s id = Some (s', b) →
  shrinks s s' ∧ (b = true → id ∉ entities s') ∧ (b = false → s' = s).
Proof.
  revert s id s' b. induction fuel as [|fuel IH]; intros s id s' b H; [done|].
  simpl in H. destruct (negb (hasEntity s id)); [by simplify_eq|].
  match type of H with (?m ≫= _) = _ => destruct m as [s1|] eqn:E1; [|done] end.
  simpl in H. injection H as <- <-.
  destruct (drop_from_index_fields id s1) as (Hn & He & _).
  assert (shrinks s s1) as [Hs1 Hs2].
  { destruct (getTransform s id) as [t|]; [|by simplify_eq].
    match type of E1 with (?m ≫= _) = _ => destruct m as [sa|] eqn:Ea; [|done] end.
    simpl in E1.
    match type of E1 with (?m ≫= _) = _ => destruct m as [sb|] eqn:Eb; [|done] end.
    simpl in E1. injection E1 as <-.
    eapply shrinks_trans; [|apply same_shape_shrinks, modify_transform_same_shape].
    apply (for_each_invariant (shrinks s)) in Eb; [done| |].
    - intros acc x acc' Hacc Hx. destruct (hasEntity acc x); [|by simplify_eq].
      destruct (removeEntity fuel acc x) as [[s2 b2]|] eqn:E2; simplify_eq/=.
      apply IH in E2 as [? _]. by eapply shrinks_trans.
    - destruct (negb _); [|by simplify_eq].
      destruct (setParent fuel s id VNull) as [[s2 b2]|] eqn:E2; simplify_eq/=.
      by apply setParent_same_shape, same_shape_shrinks in E2. }
  split; [|split; [|done]].
  - split; simpl; [congruence|]. rewrite He. set_solver.
  - intros _. simpl. set_solver.
Qed.

(** ** Runs of createEntity and removeEntity *)

Inductive Call :=
| Create
| Remove (entityId : Z).

(** What a call returned. *)
Inductive Event :=
| Created (id : Z)
| Removed (entityId : Z) (result : bool).

(** A run of calls; it stops at a createEntity that throws. *)
Fixpoint run (fuel : nat) (s : Store) (calls : list Call) : option (Completion (list Event)) :=
  match calls with
  | [] => Some (Returns s [])
  | Create :: rest =>
    match createEntity fuel s with
    | None => None
    | Some (Throws s') => Some (Throws s')
    | Some (Returns s' id) =>
      match run fuel s' rest with
      | Some (Returns s'' events) => Some (Returns s'' (Created id :: events))
      | r => r
      end
    end
  | Remove entityId :: rest =>
    match removeEntity fuel s entityId with
    | None => None
    | Some (s', result) =>
      match run fuel s' rest with
      | Some (Returns s'' events) => Some (Returns s'' (Removed entityId result :: events))
      | r => r
      end
    end
  end.

(** The ids createEntity returned, in call order. *)
Definition created_ids (events : list Event) : list Z :=
  omap (λ e, match e with Created id => Some id | Removed _ _ => None end) events.

(** Every live id is below the counter: so it is in a store that only
    createEntity and removeEntity have touched. *)
Definition below_counter (s : Store) : Prop :=
  ∀ id, id ∈ entities s → id < nextEntityId s.

Lemma run_created_increasing fuel s calls s' events :
  run fuel s calls = Some (Returns s' events) →
  StronglySorted Z.lt (created_ids events)
  ∧ Forall (λ id, nextEntityId s <= id) (created_ids events).
Proof.
  revert s s' events. induction calls as [|c calls IH]; intros s s' events H; simpl in H.
  - simplify_eq. split; constructor.
  - destruct c as [|entityId].
    + destruct (createEntity fuel s) as [[s1 id|]|] eqn:Ec; try done.
      destruct (run fuel s1 calls) as [[s2 evs|]|] eqn:Er; simplify_eq.
      apply createEntity_returns in Ec as (_ & _ & Hle & _ & Hnext & _).
      apply IH in Er as [Hsorted Hall]. simpl. split.
      * constructor; [done|]. eapply Forall_impl; [exact Hall|]. simpl. lia.
      * constructor; [done|]. eapply Forall_impl; [exact Hall|]. simpl. lia.
    + destruct (removeEntity fuel s entityId) as [[s1 b]|] eqn:Ec; try done.
      destruct (run fuel s1 calls) as [[s2 evs|]|] eqn:Er; simplify_eq.
      apply removeEntity_shrinks in Ec as [[Hnext _] _].
      apply IH in Er as [Hsorted Hall]. simpl. by rewrite Hnext in Hall.
Qed.

Lemma createEntity_below_counter fuel s s' id :
  below_counter s → createEntity fuel s = Some (Returns s' id) → below_counter s'.
Proof.
  intros Hs (_ & He & Hle & _ & Hnext & _)%createEntity_returns x.
  rewrite He, Hnext, elem_of_union, elem_of_singleton.
  intros [->|Hx%Hs]; lia.
Qed.

Lemma removeEntity_below_counter fuel s s' id b :
  below_counter s → removeEntity fuel s id = Some (s', b) → below_counter s'.
Proof.
  intros Hs [[Hnext Hsub] _]%removeEntity_shrinks x Hx. rewrite Hnext. apply Hs. set_solver.
Qed.

Lemma run_never_reissues fuel s calls s' before id after :
  below_counter s →
  run fuel s calls = Some (Returns s' (before ++ Removed id true :: after)) →
  id ∉ created_ids after.
Proof.
  revert s calls s'. induction before as [|e before IH]; intros s calls s' Hs H.
  - destruct calls as [|[|entityId] calls]; simpl in H; [done| |].
    + destruct (createEntity fuel s) as [[s1 i|]|]; try done.
      destruct (run fuel s1 calls) as [[s2 evs|]|]; simplify_eq.
    + destruct (removeEntity fuel s entityId) as [[s1 b]|] eqn:Ec; try done.
      destruct (run fuel s1 calls) as [[s2 evs|]|] eqn:Er; simplify_eq.
      assert (id ∈ entities s) as Hlive.
      { destruct (decide (id ∈ entities s)) as [|Hn]; [done|].
        apply hasEntity_false in Hn. destruct fuel; [done|]. simpl in Ec.
        rewrite Hn in Ec. simpl in Ec. by simplify_eq. }
      apply Hs in Hlive.
      apply removeEntity_shrinks in Ec as [[Hnext _] _].
      apply run_created_increasing in Er as [_ Hall].
      rewrite Forall_forall in Hall. intros Hin%Hall. lia.
  - destruct calls as [|[|entityId] calls]; simpl in H; [done| |].
    + destruct (createEntity fuel s) as [[s1 i|]|] eqn:Ec; try done.
      destruct (run fuel s1 calls) as [[s2 evs|]|] eqn:Er; simplify_eq.
      eapply IH; [|exact Er]. by eapply createEntity_below_counter.
    + destruct (removeEntity fuel s entityId) as [[s1 b]|] eqn:Ec; try done.
      destruct (run fuel s1 calls) as [[s2 evs|]|] eqn:Er; simplify_eq.
      eapply IH; [|exact Er]. by eapply removeEntity_below_counter.
Qed.

(** No entity carries a component. *)
Definition bare (s : Store) : Prop :=
  ∀ id m, entityComponents s !! id = Some m → m = ∅.

Lemma bare_getTransform s id : bare s → getTransform s id = None.
Proof.
  intros Hs. unfold getTransform, getComponent. destruct (hasEntity s id); [|done].
  destruct (entityComponents s !! id) as [m|] eqn:E; [|done]. simpl.
  by rewrite (Hs _ _ E), lookup_empty.
Qed.

Lemma drop_from_index_bare id s : bare s → drop_from_index id s = s.
Proof.
  intros Hs. unfold drop_from_index.
  destruct (entityComponents s !! id) as [m|] eqn:E; [|done].
  by rewrite (Hs _ _ E), map_to_list_empty.
Qed.

Lemma run_bare_returns calls s :
  bare s → below_counter s → ∃ s' events, run 1 s calls = Some (Returns s' events).
Proof.
  revert s. induction calls as [|[|entityId] calls IH]; intros s Hbare Hbelow; simpl.
  - by eexists _, _.
  - unfold createEntity. simpl. case_bool_decide as Hin.
    { apply Hbelow in Hin. lia. }
    simpl.
    edestruct IH as (s' & evs & ->); [| |by eexists _, _].
    + intros id m. simpl. rewrite lookup_insert. case_decide; [by intros [= <-]|apply Hbare].
    + intros id. simpl. rewrite elem_of_union, elem_of_singleton.
      intros [->|Hx%Hbelow]; lia.
  - destruct (negb (hasEntity s entityId)).
    { edestruct IH as (s' & evs & ->); [done..|by eexists _, _]. }
    rewrite bare_getTransform by done. simpl.
    rewrite drop_from_index_bare by done.
    edestruct IH as (s' & evs & ->); [| |by eexists _, _].
    + intros id m. simpl. rewrite lookup_delete. case_decide; [done|apply Hbare].
    + intros id. simpl. rewrite elem_of_difference. intros [Hx%Hbelow _]. done.
Qed.

(** C9 (amended): createEntity never returns a live id, so no two live
    entities share one; the id it returns is the lowest free id at or above
    the counter [nextEntityId] (1 in a new store), and the counter moves
    past it; the search always ends (in a result or in the
    "Maximum entity ID reached" error) within one step per live entity. *)
Theorem createEntity_returns_lowest_free_id_from_counter :
  (∀ fuel s s' id,
     createEntity fuel s = Some (Returns s' id) →
     (id ∉ entities s)
     ∧ entities s' = {[id]} ∪ entities s
     ∧ nextEntityId s <= id
     ∧ (∀ x, nextEntityId s <= x < id → x ∈ entities s)
     ∧ nextEntityId s' = id + 1)
  ∧ (∀ fuel, ∃ s', createEntity fuel new_store = Some (Returns s' 1))
  ∧ (∀ s, is_Some (createEntity (size (entities s)) s)).
Proof.
  split; [|split].
  - intros fuel s s' id H. apply createEntity_returns in H. tauto.
  - intros fuel. eexists. by destruct fuel.
  - apply createEntity_total.
Qed.

Lemma createEntity_returns_lowest_free_id_from_counter_witness :
  (3 ∉ entities two_entities)
  ∧ entities (created (createEntity 0 two_entities)) = {[3]} ∪ entities two_entities
  ∧ nextEntityId (created (createEntity 0 two_entities)) = 4.
Proof.
  destruct createEntity_returns_lowest_free_id_from_counter as [H _].
  destruct (H 0%nat two_entities (created (createEntity 0 two_entities)) 3 eq_refl)
    as (H1 & H2 & _ & _ & H3).
  done.
Defined.

(** The store after [createEntity(); createEntity(); removeEntity(1)]. *)
Definition one_released : Store := after (removeEntity 1 two_entities 1).

(** C9 as stated fails: with entity 2 live and id 1 released, id 1 is the
    lowest free id, yet createEntity returns 3. *)
Lemma createEntity_passes_over_released_id :
  hasEntity one_released 1 = false
  ∧ hasEntity one_released 2 = true
  ∧ ∃ s', createEntity 1 one_released = Some (Returns s' 3).
Proof. split; [done|]. split; [done|]. by eexists. Qed.

(** C10: in a run of createEntity and removeEntity calls the ids returned by
    createEntity are strictly increasing, from any store; started from a new
    store such a run always returns; and there the id of an entity that was
    removed is never returned by a later createEntity. *)
Theorem created_ids_strictly_increase :
  (∀ fuel s calls s' events,
     run fuel s calls = Some (Returns s' events) →
     StronglySorted Z.lt (created_ids events))
  ∧ (∀ calls, ∃ s' events, run 1 new_store calls = Some (Returns s' events))
  ∧ (∀ fuel calls s' before id after,
       run fuel new_store calls = Some (Returns s' (before ++ Removed id true :: after)) →
       id ∉ created_ids after).
Proof.
  split; [|split].
  - intros fuel s calls s' events H. by apply run_created_increasing in H as [? _].
  - intros calls. apply run_bare_returns.
    + intros id m. simpl. by rewrite lookup_empty.
    + intros id. simpl. set_solver.
  - intros fuel calls s' before id after H.
    eapply run_never_reissues; [|exact H]. intros x. simpl. set_solver.
Qed.

Lemma created_ids_strictly_increase_witness :
  StronglySorted Z.lt [1; 2; 3]
  ∧ (1 ∉ created_ids [Created 3])
  ∧ ∃ s', run 1 new_store [Create; Create; Remove 1; Create]
          = Some (Returns s' [Created 1; Created 2; Removed 1 true; Created 3]).
Proof.
  destruct created_ids_strictly_increase as (Hinc & _ & Hnever).
  assert (∃ s', run 1 new_store [Create; Create; Remove 1; Create]
                = Some (Returns s' [Created 1; Created 2; Removed 1 true; Created 3]))
    as [s' Hrun] by (by eexists).
  split; [exact (Hinc _ _ _ _ _ Hrun)|].
  split; [|by eexists].
  exact (Hnever 1%nat _ s' [Created 1; Created 2] 1 [Created 3] Hrun).
Defined.

(** ** New transforms carrying a 'parent' (C1, C2) *)

(** Entity 2 has a default transform; entity 1 then gets a new transform
    from data with [parent: 2]. *)
Definition child_by_constructor : Store :=
  after (addComponent 1 transform_only
           (after (addComponent 1 transform_only two_entities 2 "transform" (VObj [])))
           1 "transform" (VObj [("parent", VNum 2)])).

(** Both entities have a default transform; entity 1 is then updated with
    [parent: 2]. *)
Definition child_by_update : Store :=
  after (addComponent 1 transform_only two_roots 1 "transform" (VObj [("parent", VNum 2)])).

(** C2 at its failing input.  An update of an existing transform with a
    'parent' field is the same as calling setParent: the new parent's
    children gain the entity.  A new transform built from the same data has
    the field written by the constructor: the parent's children set stays
    empty. *)
Lemma new_transform_parent_bypasses_setParent :
  child_by_update = after (setParent 1 two_roots 1 (VNum 2))
  ∧ parent <$> getTransform child_by_update 1 = Some (VNum 2)
  ∧ getChildren child_by_update 2 = {[1]}
  ∧ parent <$> getTransform child_by_constructor 1 = Some (VNum 2)
  ∧ getChildren child_by_constructor 2 = ∅.
Proof.
  split; [vm_compute; reflexivity|]. split; [vm_compute; reflexivity|].
  split; [vm_compute; reflexivity|]. split; vm_compute; reflexivity.
Qed.

(** Entity 1 gets a new transform from data naming an entity that does not
    exist, or itself, as parent. *)
Definition dangling_parent : Store :=
  after (addComponent 1 transform_only two_entities 1 "transform"
           (VObj [("parent", VNum 99)])).

Definition own_parent : Store :=
  after (addComponent 1 transform_only
           (after (addComponent 1 transform_only two_entities 2 "transform" (VObj [])))
           1 "transform" (VObj [("parent", VNum 1)])).

(** The ancestor walk never leaves an entity that is its own parent. *)
Lemma check_ancestors_self_parent s a t entityId fuel :
  getTransform s a = Some t → parent t = VNum a → a ≠ entityId →
  check_ancestors fuel s entityId (VNum a) = None.
Proof.
  intros Ht Hp Hne. induction fuel as [|fuel IH]; [done|].
  simpl. rewrite (proj2 (Z.eqb_neq a entityId) Hne), Ht, Hp. exact IH.
Qed.

(** So a setParent call naming such an entity as the new parent never
    returns. *)
Lemma setParent_never_returns_on_self_parent s a t entityId tc fuel :
  hasEntity s entityId = true → hasEntity s a = true → a ≠ entityId →
  getTransform s entityId = Some tc → parent tc = VNull →
  getTransform s a = Some t → parent t = VNum a →
  setParent fuel s entityId (VNum a) = None.
Proof.
  intros He Ha Hne Hc Hpc Ht Hp. unfold setParent.
  rewrite He. simpl. rewrite Ha. simpl.
  rewrite (proj2 (Z.eqb_neq entityId a)) by done.
  rewrite Hc, Ht, Hpc. simpl.
  by rewrite (check_ancestors_self_parent s a t entityId fuel Ht Hp Hne).
Qed.

(** C1 at its failing inputs.  After addComponent returns, entity 1's parent
    is an id that is not live; or entity 1 is its own parent, a cycle on
    which the ancestor walk of a later [setParent(2, 1)] never ends,
    whatever the number of steps it is given. *)
Lemma new_transform_parent_breaks_hierarchy :
  parent <$> getTransform dangling_parent 1 = Some (VNum 99)
  ∧ hasEntity dangling_parent 99 = false
  ∧ parent <$> getTransform own_parent 1 = Some (VNum 1)
  ∧ ∀ fuel, setParent fuel own_parent 2 (VNum 1) = None.
Proof.
  split; [vm_compute; reflexivity|]. split; [vm_compute; reflexivity|].
  split; [vm_compute; reflexivity|].
  intros fuel.
  eapply (setParent_never_returns_on_self_parent own_parent 1 _ 2 _ fuel).
  - vm_compute; reflexivity.
  - vm_compute; reflexivity.
  - lia.
  - vm_compute; reflexivity.
  - reflexivity.
  - vm_compute; reflexivity.
  - reflexivity.
Qed.

(** ** Consistency of the type index (C4) *)

(** The entities listed in the index under a type, and the component types
    of an entity. *)
Definition index (s : Store) (T : string) : gset Z :=
  default ∅ (componentEntityMap s !! T).

Definition types_of (s : Store) (id : Z) : option (gset string) :=
  dom <$> entityComponents s !! id.

(** The live entities are those with a component map; the index lists under
    each type exactly the entities carrying it; no type name is blank. *)
Record consistent (s : Store) : Prop := mkConsistent {
  live_mapped : ∀ id, id ∈ entities s ↔ is_Some (types_of s id);
  index_exact : ∀ T id, id ∈ index s T ↔ ∃ D, types_of s id = Some D ∧ T ∈ D;
  types_named : ∀ id D T, types_of s id = Some D → T ∈ D → blank T = false
}.

Lemma consistent_new_store : consistent new_store.
Proof.
  split.
  - intros id. unfold types_of. simpl. rewrite lookup_empty. simpl.
    split; [set_solver|by intros [? ?]].
  - intros T id. unfold index, types_of. simpl. rewrite !lookup_empty. simpl.
    split; [set_solver|by intros (? & ? & ?)].
  - intros id D T. unfold types_of. simpl. by rewrite lookup_empty.
Qed.

Lemma same_shape_types s s' id : same_shape s s' → types_of s' id = types_of s id.
Proof. intros (_ & _ & _ & H). apply H. Qed.

Lemma same_shape_index s s' T : same_shape s s' → index s' T = index s T.
Proof. intros (_ & _ & H & _). unfold index. by rewrite H. Qed.

Lemma same_shape_consistent s s' : same_shape s s' → consistent s → consistent s'.
Proof.
  intros Hsh [H1 H2 H3]. pose proof Hsh as (_ & He & _). split.
  - intros id. rewrite He, (same_shape_types _ _ _ Hsh). apply H1.
  - intros T id. rewrite (same_shape_index _ _ _ Hsh), (same_shape_types _ _ _ Hsh). apply H2.
  - intros id D T. rewrite (same_shape_types _ _ _ Hsh). apply H3.
Qed.

Lemma types_of_store_component id T c s i :
  types_of (store_component id T c s) i =
    if decide (id = i) then (λ D, {[T]} ∪ D) <$> types_of s id else types_of s i.
Proof.
  unfold types_of, store_component. simpl. rewrite lookup_alter.
  case_decide; [|done]. destruct (entityComponents s !! id); [|done]. simpl.
  by rewrite dom_insert_L.
Qed.

Lemma types_of_unstore_component id T s i :
  types_of (unstore_component id T s) i =
    if decide (id = i) then (λ D, D ∖ {[T]}) <$> types_of s id else types_of s i.
Proof.
  unfold types_of, unstore_component. simpl. rewrite lookup_alter.
  case_decide; [|done]. destruct (entityComponents s !! id); [|done]. simpl.
  by rewrite dom_delete_L.
Qed.

Lemma index_add id T s T' :
  index (_addComponentToEntityMap id T s) T' =
    if decide (T = T') then {[id]} ∪ index s T else index s T'.
Proof.
  unfold index, _addComponentToEntityMap. simpl. rewrite lookup_insert.
  by case_decide.
Qed.

Lemma index_remove id T s T' :
  index (_removeComponentFromEntityMap id T s) T' =
    if decide (T = T') then index s T ∖ {[id]} else index s T'.
Proof.
  unfold index, _removeComponentFromEntityMap. simpl. rewrite lookup_alter.
  case_decide; [|done]. destruct (componentEntityMap s !! T); simpl; [done|set_solver].
Qed.

Lemma types_of_add id T s i : types_of (_addComponentToEntityMap id T s) i = types_of s i.
Proof. done. Qed.

Lemma types_of_remove id T s i :
  types_of (_removeComponentFromEntityMap id T s) i = types_of s i.
Proof. done. Qed.

Lemma index_store_component id T c s T' : index (store_component id T c s) T' = index s T'.
Proof. done. Qed.

Lemma index_unstore_component id T s T' : index (unstore_component id T s) T' = index s T'.
Proof. done. Qed.

Lemma store_component_same_shape id T c s D :
  types_of s id = Some D → T ∈ D → same_shape s (store_component id T c s).
Proof.
  intros HD HT. split; [done|]. split; [done|]. split; [done|].
  intros i. change (types_of (store_component id T c s) i = types_of s i).
  rewrite types_of_store_component. case_decide; [subst|done].
  rewrite HD. simpl. f_equal. set_solver.
Qed.

(** Attaching a component of a named type to a live entity. *)
Lemma consistent_attach id T c s :
  consistent s → id ∈ entities s → blank T = false →
  consistent (_addComponentToEntityMap id T (store_component id T c s)).
Proof.
  intros [H1 H2 H3] Hlive HT.
  destruct (proj1 (H1 id) Hlive) as [D0 HD0]. split.
  - intros i. rewrite types_of_add, types_of_store_component.
    case_decide; [subst|apply H1].
    rewrite HD0. simpl. split; [by eexists|done].
  - intros T' i. rewrite index_add, types_of_add, !index_store_component.
    rewrite types_of_store_component.
    destruct (decide (T = T')) as [<-|HTT], (decide (id = i)) as [<-|Hii].
    + rewrite HD0. simpl. split; [intros _; eexists; split; [done|set_solver]|set_solver].
    + rewrite elem_of_union, elem_of_singleton, H2. split; [intros [?|?]; done|by right].
    + rewrite HD0. simpl. rewrite H2, HD0. split.
      * intros (D & [= <-] & ?). eexists. split; [done|set_solver].
      * intros (D & [= <-] & ?). eexists. split; [done|set_solver].
    + apply H2.
  - intros i D T'. rewrite types_of_add, types_of_store_component.
    case_decide; [subst|apply H3].
    rewrite HD0. simpl. intros [= <-]. rewrite elem_of_union, elem_of_singleton.
    intros [->|?]; [done|]. by eapply H3.
Qed.

(** Detaching a component type from an entity. *)
Lemma consistent_detach id T s :
  consistent s →
  consistent (_removeComponentFromEntityMap id T (unstore_component id T s)).
Proof.
  intros [H1 H2 H3]. split.
  - intros i. rewrite types_of_remove, types_of_unstore_component.
    case_decide; [subst|apply H1].
    rewrite H1. destruct (types_of s i); simpl; split; intros [? ?]; by eauto.
  - intros T' i. rewrite index_remove, types_of_remove, !index_unstore_component.
    rewrite types_of_unstore_component.
    destruct (decide (T = T')) as [<-|HTT], (decide (id = i)) as [<-|Hii].
    + rewrite elem_of_difference, elem_of_singleton. split; [tauto|].
      intros (D & HD & HT). destruct (types_of s id); simplify_eq/=. set_solver.
    + rewrite elem_of_difference, elem_of_singleton, H2. split; [tauto|]. intros ?; split; [done|congruence].
    + rewrite H2. destruct (types_of s id) as [D0|]; simpl.
      * split; intros (D & [= <-] & ?); eexists; (split; [done|set_solver]).
      * split; intros (D & ? & ?); done.
    + apply H2.
  - intros i D T'. rewrite types_of_remove, types_of_unstore_component.
    case_decide; [subst|apply H3].
    destruct (types_of s i) as [D0|] eqn:HD0; simpl; [|done].
    intros [= <-] [? _]%elem_of_difference. by eapply H3.
Qed.

Lemma index_drop_list id s l T :
  index (foldr (_removeComponentFromEntityMap id) s l) T =
    if decide (T ∈ l) then index s T ∖ {[id]} else index s T.
Proof.
  induction l as [|T0 l IH]; simpl; [done|].
  rewrite index_remove.
  destruct (decide (T0 = T)) as [->|Hne].
  - rewrite decide_True by set_solver. rewrite IH. case_decide; set_solver.
  - rewrite IH. repeat case_decide; set_solver.
Qed.

Lemma foldr_remove_fields id s l :
  nextEntityId (foldr (_removeComponentFromEntityMap id) s l) = nextEntityId s
  ∧ entities (foldr (_removeComponentFromEntityMap id) s l) = entities s
  ∧ entityComponents (foldr (_removeComponentFromEntityMap id) s l) = entityComponents s.
Proof. induction l as [|T l IH]; [done|]. simpl. apply IH. Qed.

(** The last steps of removeEntity: the index entries of the entity's
    components, its component map and its id. *)
Definition forget (id : Z) (s : Store) : Store :=
  set_entities (entities (drop_from_index id s) ∖ {[id]})
    (set_entityComponents (delete id (entityComponents (drop_from_index id s)))
       (drop_from_index id s)).

Lemma index_drop_from_index id s T :
  consistent s → index (drop_from_index id s) T = index s T ∖ {[id]}.
Proof.
  intros [H1 H2 H3]. unfold drop_from_index.
  destruct (entityComponents s !! id) as [m|] eqn:Hm.
  - rewrite index_drop_list. case_decide as HT; [done|].
    assert (id ∉ index s T); [|set_solver].
    rewrite H2. unfold types_of. rewrite Hm. simpl. intros (D & [= <-] & HD).
    apply HT. apply elem_of_dom in HD as [c Hc].
    apply list_elem_of_fmap. exists (T, c). split; [done|]. by apply elem_of_map_to_list.
  - assert (id ∉ index s T); [|set_solver].
    rewrite H2. unfold types_of. rewrite Hm. simpl. by intros (D & ? & ?).
Qed.

Lemma consistent_forget id s : consistent s → consistent (forget id s).
Proof.
  intros Hs. pose proof Hs as [H1 H2 H3].
  destruct (drop_from_index_fields id s) as (_ & He & Hc).
  assert (∀ i, types_of (forget id s) i = if decide (id = i) then None else types_of s i) as Hty.
  { intros i. unfold types_of, forget. simpl. rewrite Hc, lookup_delete. by case_decide. }
  assert (∀ T, index (forget id s) T = index s T ∖ {[id]}) as Hix.
  { intros T. unfold forget, index. simpl. by apply index_drop_from_index. }
  assert (entities (forget id s) = entities s ∖ {[id]}) as Hent.
  { unfold forget. simpl. by rewrite He. }
  split.
  - intros i. rewrite Hent, Hty, elem_of_difference, elem_of_singleton.
    case_decide; [subst; split; [tauto|by intros [? ?]]|]. rewrite H1. split; [tauto|done].
  - intros T i. rewrite Hix, Hty, elem_of_difference, elem_of_singleton.
    case_decide; [subst; split; [tauto|by intros (? & ? & ?)]|]. rewrite H2. split; [tauto|done].
  - intros i D T. rewrite Hty. case_decide; [done|apply H3].
Qed.

(** Registering an entity with an empty component map, when the index does
    not mention it. *)
Lemma consistent_register id n s :
  consistent s → (∀ T, id ∉ index s T) →
  consistent (set_nextEntityId n
                (set_entityComponents (<[id := ∅]> (entityComponents s))
                   (set_entities ({[id]} ∪ entities s) s))).
Proof.
  intros [H1 H2 H3] Hfree.
  set (s' := set_nextEntityId n _).
  assert (∀ i, types_of s' i = if decide (id = i) then Some ∅ else types_of s i) as Hty.
  { intros i. unfold types_of, s'. simpl. rewrite lookup_insert.
    case_decide; [|done]. simpl. by rewrite dom_empty_L. }
  split.
  - intros i. rewrite Hty. unfold s'. simpl. rewrite elem_of_union, elem_of_singleton.
    case_decide; [subst; split; [by eexists|by left]|]. rewrite <- H1. split; [|by right].
    intros [->|?]; done.
  - intros T i. rewrite Hty. unfold s', index. simpl. fold (index s T).
    case_decide; [subst|apply H2]. split; [by intros ?%Hfree|]. intros (D & [= <-] & ?). set_solver.
  - intros i D T. rewrite Hty. case_decide; [intros [= <-]; set_solver|apply H3].
Qed.

Lemma consistent_set_nextEntityId n s : consistent s → consistent (set_nextEntityId n s).
Proof. intros [H1 H2 H3]. by split. Qed.

(** ** Every operation keeps the index consistent *)

Lemma setParent_consistent fuel s entityId newParentId s' b :
  setParent fuel s entityId newParentId = Some (s', b) → consistent s → consistent s'.
Proof. intros H%setParent_same_shape. by apply same_shape_consistent. Qed.

Lemma detach_children_same_shape fuel s l s' :
  for_each (λ acc childId,
              if hasEntity acc childId
              then fst <$> setParent fuel acc childId VNull
              else Some acc) s l = Some s' →
  same_shape s s'.
Proof.
  apply (for_each_invariant (same_shape s)); [|apply same_shape_refl].
  intros acc x acc' Hacc Hx. destruct (hasEntity acc x); [|by simplify_eq].
  destruct (setParent fuel acc x VNull) as [[s2 b2]|] eqn:E; simplify_eq/=.
  eapply same_shape_trans; [done|]. by eapply setParent_same_shape.
Qed.

Lemma removeComponent_spec fuel s id T s' b :
  removeComponent fuel s id T = Some (s', b) → consistent s →
  consistent s'
  ∧ entities s' = entities s
  ∧ ∀ i, types_of s' i =
         if decide (id = i) then (λ D, D ∖ {[T]}) <$> types_of s id else types_of s i.
Proof.
  intros H Hs. pose proof Hs as [H1 H2 H3]. unfold removeComponent in H.
  assert (∀ D, types_of s id = Some D → T ∉ D →
          ∀ i, types_of s i =
               if decide (id = i) then (λ D, D ∖ {[T]}) <$> types_of s id else types_of s i)
    as Hsame.
  { intros D HD HT i. destruct (decide (id = i)) as [<-|?]; [|done].
    rewrite HD. simpl. f_equal. set_solver. }
  assert (types_of s id = None →
          ∀ i, types_of s i =
               if decide (id = i) then (λ D, D ∖ {[T]}) <$> types_of s id else types_of s i)
    as Hnone.
  { intros HD i. destruct (decide (id = i)) as [<-|?]; [|done]. by rewrite HD. }
  destruct (blank T) eqn:HbT.
  { injection H as <- <-. split; [done|]. split; [done|].
    destruct (types_of s id) as [D|] eqn:HD; [|by apply Hnone].
    apply (Hsame D eq_refl). intros HT. apply (H3 _ _ _ HD) in HT. congruence. }
  destruct (hasEntity s id) eqn:Hlive; simpl in H.
  2:{ injection H as <- <-. split; [done|]. split; [done|]. apply Hnone.
      apply hasEntity_false in Hlive. rewrite H1 in Hlive.
      destruct (types_of s id); [|done]. destruct Hlive. by eexists. }
  destruct (entityComponents s !! id ≫= λ m, m !! T) as [component|] eqn:Hc.
  2:{ injection H as <- <-. split; [done|]. split; [done|].
      unfold types_of in *. destruct (entityComponents s !! id) as [m|] eqn:Hm; simpl in *.
      - apply (Hsame (dom m) eq_refl). by apply not_elem_of_dom.
      - by apply Hnone. }
  match type of H with (?m ≫= _) = _ => destruct m as [s1|] eqn:E1; [|done] end.
  simpl in H. injection H as <- <-.
  assert (same_shape s s1) as Hsh.
  { case_bool_decide; [|by simplify_eq]. destruct component as [t|]; [|by simplify_eq].
    match type of E1 with (?m ≫= _) = _ => destruct m as [sa|] eqn:Ea; [|done] end.
    simpl in E1. injection E1 as <-. apply detach_children_same_shape in Ea.
    repeat case_match; try done.
    eapply same_shape_trans; [done|]. apply modify_transform_same_shape. }
  split; [|split].
  - apply (consistent_detach id T s1). by eapply same_shape_consistent.
  - simpl. by destruct Hsh as (_ & -> & _).
  - intros i. change (types_of (_removeComponentFromEntityMap id T (unstore_component id T s1)) i
                      = if decide (id = i) then (λ D, D ∖ {[T]}) <$> types_of s id else types_of s i).
    rewrite types_of_remove, types_of_unstore_component, !(same_shape_types _ _ _ Hsh). done.
Qed.

Arguments removeComponent : simpl never.

Lemma addComponent_consistent fuel reg s id T data s' r :
  addComponent fuel reg s id T data = Some (s', r) → consistent s → consistent s'.
Proof.
  intros H Hs. unfold addComponent in H.
  destruct (blank T) eqn:HbT; [by simplify_eq|].
  destruct (hasEntity s id) eqn:Hlive; simpl in H; [|by simplify_eq].
  apply hasEntity_true in Hlive.
  destruct (registry_get reg T) as [ctor|]; [|by simplify_eq].
  destruct (getComponent s id T) as [c|] eqn:Hc.
  - assert (∃ D, types_of s id = Some D ∧ T ∈ D) as (D & HD & HT).
    { unfold getComponent in Hc. destruct (hasEntity s id); [|done].
      unfold types_of. destruct (entityComponents s !! id) as [m|]; [|done]. simpl in *.
      eexists. split; [done|]. by apply elem_of_dom. }
    destruct c as [t|cls fields].
    + match type of H with (?m ≫= _) = _ => destruct m as [s2|] eqn:E2; [|done] end.
      simpl in H. injection H as <- <-.
      assert (same_shape s s2); [|by eapply same_shape_consistent].
      pose proof (store_component_same_shape id T
                    (CTransform (update_transform t (del (if is_object data then entries data else []) "source")))
                    s D HD HT) as Hsh.
      repeat case_match; simplify_eq/=; try done.
      destruct (setParent _ _ _ _) as [[s3 b3]|] eqn:E3; simplify_eq/=.
      eapply same_shape_trans; [done|]. by eapply setParent_same_shape.
    + destruct (onUpdate _ _ _); simplify_eq;
        (eapply same_shape_consistent; [by eapply store_component_same_shape|done]).
  - destruct ctor as [|cls].
    + destruct (new_TransformComponent _); simplify_eq; [|done].
      by apply consistent_attach.
    + destruct (construct cls _) as [fields|]; [|by simplify_eq].
      destruct (negb (extendsComponent cls)); [by simplify_eq|].
      destruct (onAdd cls id fields) as [fields'|]; simplify_eq.
      * eapply same_shape_consistent; [|by apply (consistent_attach id T (CUser cls fields))].
        destruct (proj1 (live_mapped s Hs id) Hlive) as [D HD].
        eapply (store_component_same_shape _ _ _ _ ({[T]} ∪ D)); [|set_solver].
        rewrite types_of_add, types_of_store_component, decide_True by done.
        by rewrite HD.
      * apply consistent_detach. by apply consistent_attach.
Qed.

Arguments addComponent : simpl never.

Lemma removeEntity_consistent fuel s id s' b :
  removeEntity fuel s id = Some (s', b) → consistent s → consistent s'.
Proof.
  revert s id s' b. induction fuel as [|fuel IH]; intros s id s' b H Hs; [done|].
  simpl in H. destruct (negb (hasEntity s id)); [by simplify_eq|].
  match type of H with (?m ≫= _) = _ => destruct m as [s1|] eqn:E1; [|done] end.
  simpl in H. injection H as <- <-.
  apply (consistent_forget id s1).
  destruct (getTransform s id) as [t|]; [|by simplify_eq].
  match type of E1 with (?m ≫= _) = _ => destruct m as [sa|] eqn:Ea; [|done] end.
  simpl in E1.
  match type of E1 with (?m ≫= _) = _ => destruct m as [sb|] eqn:Eb; [|done] end.
  simpl in E1. injection E1 as <-.
  eapply same_shape_consistent; [apply modify_transform_same_shape|].
  apply (for_each_invariant consistent) in Eb; [done| |].
  - intros acc x acc' Hacc Hx. destruct (hasEntity acc x); [|by simplify_eq].
    destruct (removeEntity fuel acc x) as [[s2 b2]|] eqn:E2; simplify_eq/=. by eapply IH.
  - destruct (negb _); [|by simplify_eq].
    destruct (setParent fuel s id VNull) as [[s2 b2]|] eqn:E2; simplify_eq/=.
    by eapply setParent_consistent.
Qed.

Lemma not_live_not_indexed s id T : consistent s → id ∉ entities s → id ∉ index s T.
Proof.
  intros [H1 H2 H3] Hid. rewrite H2. intros (D & HD & _). apply Hid, H1. by eexists.
Qed.

Lemma createEntity_consistent fuel s r :
  createEntity fuel s = Some r → consistent s →
  consistent (match r with Returns s' _ => s' | Throws s' => s' end).
Proof.
  intros H Hs. unfold createEntity in H.
  destruct (next_free fuel (entities s) (nextEntityId s)) as [[id|]|] eqn:E; simplify_eq/=; [|done].
  apply next_free_found in E as (_ & Hfree & _).
  apply (consistent_register id (id + 1) s Hs). intros T. by apply not_live_not_indexed.
Qed.

Lemma clear_returns_new_store fuel s s' : clear fuel s = Some s' → s' = new_store.
Proof. unfold clear. intros H. destruct (for_each _ _ _); by simplify_eq/=. Qed.

Lemma _restoreSingleEntityBase_consistent fuel s id s' b :
  _restoreSingleEntityBase fuel s id = Some (s', b) → consistent s → consistent s'.
Proof.
  intros H Hs. unfold _restoreSingleEntityBase in H.
  destruct (hasEntity s id) eqn:Hlive.
  - match type of H with (?m ≫= _) = _ => destruct m as [s1|] eqn:E1; [|done] end.
    simpl in H. injection H as <- <-.
    apply hasEntity_true in Hlive.
    assert (consistent s1 ∧ entities s1 = entities s ∧ types_of s1 id = Some ∅)
      as (Hs1 & He1 & Hty1).
    { destruct (proj1 (live_mapped s Hs id) Hlive) as [D HD].
      unfold types_of in HD. destruct (entityComponents s !! id) as [m|] eqn:Hm; [|done].
      simpl in HD. injection HD as <-.
      assert (∀ l acc, consistent acc → entities acc = entities s →
                (∃ D', types_of acc id = Some D' ∧ ∀ T, T ∈ D' → T ∈ l) →
                for_each (λ acc type, fst <$> removeComponent fuel acc id type) acc l = Some s1 →
                consistent s1 ∧ entities s1 = entities s ∧ types_of s1 id = Some ∅) as Hloop.
      { clear. induction l as [|T l IH]; intros acc Hacc He (D' & HD' & Hsub) Hrun; simpl in Hrun.
        - simplify_eq. split; [done|]. split; [done|]. rewrite HD'. f_equal.
          apply set_eq. intros T. split; [intros ?%Hsub; set_solver|set_solver].
        - destruct (removeComponent fuel acc id T) as [[s2 b2]|] eqn:E2; [|done]. simpl in Hrun.
          apply removeComponent_spec in E2 as (Hs2 & He2 & Hty2); [|done].
          apply (IH s2 Hs2); [congruence| |done].
          exists (D' ∖ {[T]}). split.
          + rewrite Hty2, decide_True by done. by rewrite HD'.
          + intros T' [HT' Hne]%elem_of_difference.
            apply Hsub in HT'. set_solver. }
      apply (Hloop (map fst (map_to_list m)) s Hs eq_refl); [|done].
      exists (dom m). split; [unfold types_of; by rewrite Hm|].
      intros T [c Hc]%elem_of_dom. apply list_elem_of_fmap. exists (T, c).
      split; [done|]. by apply elem_of_map_to_list. }
    assert (s' := s1).
    pose proof (consistent_register id (nextEntityId s1) s1 Hs1) as Hreg.
    assert ({[id]} ∪ entities s1 = entities s1) as Hsame by set_solver.
    unfold set_nextEntityId, set_entities, set_entityComponents in Hreg. simpl in Hreg.
    rewrite Hsame in Hreg. destruct s1 as [n e c ix]. simpl in *. apply Hreg.
    intros T. rewrite (index_exact _ Hs1). intros (D & HD & HT).
    rewrite Hty1 in HD. injection HD as <-. set_solver.
  - simplify_eq. apply hasEntity_false in Hlive.
    apply (consistent_register id _ s Hs). intros T. by apply not_live_not_indexed.
Qed.

Lemma restore_component_consistent fuel reg id acc kv s' n :
  restore_component fuel reg id acc kv = Some (s', n) →
  (∀ s0 n0, acc = Some (s0, n0) → consistent s0) → consistent s'.
Proof.
  intros H Hacc. unfold restore_component in H.
  destruct acc as [[s0 n0]|]; [|done]. specialize (Hacc _ _ eq_refl).
  destruct (negb (is_object kv.2)); [by simplify_eq|].
  destruct (negb (registry_has reg kv.1)); [by simplify_eq|].
  destruct (addComponent fuel reg s0 id kv.1 _) as [[s1 [c|]]|] eqn:E; simplify_eq;
    by eapply addComponent_consistent.
Qed.

Lemma _restoreEntityComponents_consistent fuel reg s id v s' b :
  _restoreEntityComponents fuel reg s id v = Some (s', b) → consistent s → consistent s'.
Proof.
  intros H Hs. unfold _restoreEntityComponents in H.
  destruct (negb (is_object v)); [by simplify_eq|].
  destruct (foldl _ _ _) as [[s1 n1]|] eqn:E; simplify_eq/=.
  revert E. generalize (entries v). intros l.
  assert (∀ s0 n0, Some (s, 0%nat) = Some (s0, n0) → consistent s0) as Hstart
    by (by intros ? ? [= <- <-]).
  revert Hstart. generalize (Some (s, 0%nat)).
  induction l as [|kv l IH]; intros acc Hacc E; simpl in E.
  - by eapply Hacc.
  - eapply IH; [|exact E]. intros s0 n0 E0.
    by eapply restore_component_consistent.
Qed.

Arguments _restoreSingleEntityBase : simpl never.
Arguments _restoreEntityComponents : simpl never.

Lemma restore_entity_consistent fuel reg p v p' :
  restore_entity fuel reg p v = Some p' → consistent (store p) → consistent (store p').
Proof.
  intros H Hs. unfold restore_entity in H.
  destruct (if truthy v then _ else _); simplify_eq/=; try done.
  destruct (_restoreSingleEntityBase fuel (store p) n) as [[s1 b1]|] eqn:E1; [|done].
  apply _restoreSingleEntityBase_consistent in E1; [|done].
  destruct b1; [|by simplify_eq].
  destruct (_restoreEntityComponents _ _ _ _ _) as [[s2 b2]|] eqn:E2; [|done].
  apply _restoreEntityComponents_consistent in E2; [|done].
  destruct b2; by simplify_eq.
Qed.

Lemma rebuild_parent_same_shape fuel s restored id v s' e :
  rebuild_parent fuel s restored id v = Some (s', e) → same_shape s s'.
Proof.
  unfold rebuild_parent. intros H.
  repeat case_match; simplify_eq/=; try apply same_shape_refl;
    match goal with
    | H : _ <$> setParent _ _ _ _ = Some _ |- _ =>
      destruct (setParent fuel s id _) as [[? ?]|] eqn:E; simplify_eq/=;
        by eapply setParent_same_shape
    end.
Qed.

Lemma rebuild_hierarchy_same_shape fuel s items restored todo errors r :
  rebuild_hierarchy fuel s items restored todo errors = Some r →
  same_shape s (match r with Returns s' _ => s' | Throws s' => s' end).
Proof.
  revert s errors. induction todo as [|id todo IH]; intros s errors H; simpl in H.
  - simplify_eq. apply same_shape_refl.
  - destruct (find_entity items id) as [[v|]|]; [| |simplify_eq; apply same_shape_refl].
    + destruct (rebuild_parent fuel s restored id v) as [[s1 e1]|] eqn:E1; [|done].
      eapply same_shape_trans; [by eapply rebuild_parent_same_shape|]. by eapply IH.
    + by eapply IH.
Qed.

Lemma deserialize_consistent fuel reg s doc r :
  deserialize fuel reg s doc = Some r →
  consistent (match r with Returns s' _ => s' | Throws s' => s' end).
Proof.
  unfold deserialize. intros H.
  assert (∀ s0, clear fuel s = Some s0 → consistent s0) as Hclear.
  { intros s0 ->%clear_returns_new_store. apply consistent_new_store. }
  destruct (clear fuel s) as [s0|] eqn:Ec;
    [specialize (Hclear s0 eq_refl)|by repeat case_match; simplify_eq/=].
  destruct doc as [[| | | | | |data]|]; simplify_eq/=; try done.
  destruct (get data "entities") as [| | | | |items|]; simplify_eq/=; try done.
  match type of H with (?m ≫= _) = _ => destruct m as [p|] eqn:Ep; [|done] end.
  simpl in H.
  assert (consistent (store p)) as Hp.
  { clear H. revert Ep.
    assert (∀ p0, Some {| store := s0; highestId := 0; restoredEntityIds := [];
                          success := true |} = Some p0 → consistent (store p0)) as Hstart
      by (by intros ? [= <-]).
    revert Hstart. generalize (Some {| store := s0; highestId := 0;
                                       restoredEntityIds := []; success := true |}).
    induction items as [|v items IH]; intros acc Hacc E; simpl in E.
    - by apply Hacc.
    - eapply IH; [|exact E]. intros p0 E0.
      destruct acc as [p1|]; [|done]. simpl in E0.
      eapply restore_entity_consistent; [exact E0|]. by apply Hacc. }
  match type of H with (?m ≫= _) = _ => destruct m as [r2|] eqn:Er; [|done] end.
  simpl in H. apply rebuild_hierarchy_same_shape in Er.
  destruct r2 as [s2 errs|s2].
  - destruct (skip_live _ _ _); simplify_eq/=.
    apply consistent_set_nextEntityId. by eapply same_shape_consistent.
  - simplify_eq. by eapply same_shape_consistent.
Qed.

(** ** The stores the public methods can produce *)

(** One call on the manager. *)
Inductive Op :=
| OpCreateEntity
| OpRemoveEntity (entityId : Z)
| OpAddComponent (reg : ComponentRegistry) (entityId : Z) (componentType : string) (data : Value)
| OpRemoveComponent (entityId : Z) (componentType : string)
| OpSetParent (entityId : Z) (newParentId : Value)
| OpDeserialize (reg : ComponentRegistry) (jsonOrObject : option Value)
| OpClear.

Definition left_by {A : Type} (r : Completion A) : Store :=
  match r with
  | Returns s _ => s
  | Throws s => s
  end.

(** The store a call leaves behind, whether it returned or threw. *)
Definition store_after (fuel : nat) (s : Store) (op : Op) : option Store :=
  match op with
  | OpCreateEntity => left_by <$> createEntity fuel s
  | OpRemoveEntity entityId => fst <$> removeEntity fuel s entityId
  | OpAddComponent reg entityId componentType data =>
    fst <$> addComponent fuel reg s entityId componentType data
  | OpRemoveComponent entityId componentType =>
    fst <$> removeComponent fuel s entityId componentType
  | OpSetParent entityId newParentId => fst <$> setParent fuel s entityId newParentId
  | OpDeserialize reg jsonOrObject => left_by <$> deserialize fuel reg s jsonOrObject
  | OpClear => clear fuel s
  end.

(** The stores reached from a new manager by any calls, in any order. *)
Inductive reachable : Store → Prop :=
| reachable_new : reachable new_store
| reachable_call fuel s op s' :
    reachable s → store_after fuel s op = Some s' → reachable s'.

Lemma store_after_consistent fuel s op s' :
  store_after fuel s op = Some s' → consistent s → consistent s'.
Proof.
  destruct op; simpl; intros H Hs.
  - destruct (createEntity fuel s) as [r|] eqn:E; simplify_eq/=.
    by apply (createEntity_consistent _ _ _ E).
  - destruct (removeEntity fuel s entityId) as [[? ?]|] eqn:E; simplify_eq/=.
    by eapply removeEntity_consistent.
  - destruct (addComponent fuel reg s entityId componentType data) as [[? ?]|] eqn:E;
      simplify_eq/=. by eapply addComponent_consistent.
  - destruct (removeComponent fuel s entityId componentType) as [[? ?]|] eqn:E;
      simplify_eq/=. by eapply removeComponent_spec.
  - destruct (setParent fuel s entityId newParentId) as [[? ?]|] eqn:E; simplify_eq/=.
    by eapply setParent_consistent.
  - destruct (deserialize fuel reg s jsonOrObject) as [r|] eqn:E; simplify_eq/=.
    by apply (deserialize_consistent _ _ _ _ _ E).
  - apply clear_returns_new_store in H as ->. apply consistent_new_store.
Qed.

Lemma reachable_consistent s : reachable s → consistent s.
Proof.
  induction 1 as [|fuel s op s' _ IH H]; [apply consistent_new_store|].
  by eapply store_after_consistent.
Qed.

Lemma consistent_index_hasComponent s T id :
  consistent s →
  id ∈ getEntitiesWithComponent s T ↔ hasComponent s id T = true.
Proof.
  intros [H1 H2 H3]. unfold getEntitiesWithComponent, hasComponent, hasEntity.
  assert (hasComponent s id T = true → blank T = false) as Hnamed.
  { unfold hasComponent, hasEntity. case_bool_decide; [|done].
    destruct (entityComponents s !! id) as [m|] eqn:Em; [|done].
    intros Hm%bool_decide_eq_true. apply (H3 id (dom m) T).
    - unfold types_of. by rewrite Em.
    - by apply elem_of_dom. }
  unfold hasComponent, hasEntity in Hnamed.
  destruct (blank T) eqn:HbT.
  { split; [by intros ?%elem_of_nil|]. intros H. by specialize (Hnamed H). }
  rewrite elem_of_elements. fold (index s T). rewrite H2. unfold types_of.
  split.
  - intros (D & HD & HT).
    destruct (entityComponents s !! id) as [m|] eqn:Em; simplify_eq/=.
    rewrite bool_decide_eq_true_2.
    + apply bool_decide_eq_true. by apply elem_of_dom.
    + apply H1. unfold types_of. by rewrite Em.
  - case_bool_decide; [|done].
    destruct (entityComponents s !! id) as [m|] eqn:Em; [|done].
    intros Hm%bool_decide_eq_true. exists (dom m). split; [done|]. by apply elem_of_dom.
Qed.

(** C4: in every store reached from a new manager by calls of the public
    methods (addComponent and removeComponent among them, with any
    arguments and in any order), getEntitiesWithComponent(T) lists, without
    repetition, exactly the entities e for which hasComponent(e, T) is
    true, for every component type T. *)
Theorem getEntitiesWithComponent_lists_exactly_the_carriers s :
  reachable s →
  ∀ T, NoDup (getEntitiesWithComponent s T)
       ∧ ∀ id, id ∈ getEntitiesWithComponent s T ↔ hasComponent s id T = true.
Proof.
  intros Hs%reachable_consistent T. split.
  - unfold getEntitiesWithComponent. destruct (blank T); [constructor|apply NoDup_elements].
  - intros id. by apply consistent_index_hasComponent.
Qed.

Lemma reachable_two_roots : reachable two_roots.
Proof.
  apply (reachable_call 1
           (after (addComponent 1 transform_only two_entities 1 "transform" (VObj [])))
           (OpAddComponent transform_only 2 "transform" (VObj [])) two_roots);
    [|vm_compute; reflexivity].
  apply (reachable_call 1 two_entities
           (OpAddComponent transform_only 1 "transform" (VObj [])));
    [|vm_compute; reflexivity].
  apply (reachable_call 1 (created (createEntity 1 new_store)) OpCreateEntity);
    [|vm_compute; reflexivity].
  apply (reachable_call 1 new_store OpCreateEntity); [|vm_compute; reflexivity].
  apply reachable_new.
Qed.

Lemma getEntitiesWithComponent_lists_exactly_the_carriers_witness :
  NoDup (getEntitiesWithComponent two_roots "transform")
  ∧ (2 ∈ getEntitiesWithComponent two_roots "transform"
     ↔ hasComponent two_roots 2 "transform" = true).
Proof.
  destruct (getEntitiesWithComponent_lists_exactly_the_carriers two_roots
              reachable_two_roots "transform") as [Hnodup Hiff].
  split; [exact Hnodup|exact (Hiff 2)].
Defined.

(** ** More steps never change what a loop returned *)

Lemma check_ancestors_mono n m s entityId a b :
  check_ancestors n s entityId a = Some b → (n ≤ m)%nat →
  check_ancestors m s entityId a = Some b.
Proof.
  revert m a. induction n as [|n IH]; intros m a H Hle.
  - destruct a; simpl in H; try done. by destruct m.
  - destruct m as [|m]; [lia|].
    destruct a; simpl in H |- *; try done;
      repeat case_match; simplify_eq; try done; (apply IH; [done|lia]).
Qed.





(** ** The document written by serialize (C5) *)





Lemma json_defined v : json v ≠ VUndefined.
Proof. by destruct v. Qed.














(** ** Stores that come back from their own document (C5) *)

(** What the round trip asks of a component stored on [entityId] under the
    type name [T].  A transform is stored under 'transform', that name is
    registered, its three arrays can be copied, and its parent is [null]
    or an entity with a transform that lies strictly lower in [rank] (so
    the parent links form no cycle).  Any other component is of the class
    registered under its type name, and that class, handed the data it
    serialized, builds an instance that serializes to the same data. *)
Definition accepted (reg : ComponentRegistry) (rank : Z → nat) (s : Store)
    (entityId : Z) (T : string) (c : Component) : Prop :=
  blank T = false ∧
  match c with
  | CTransform t =>
    T = "transform" ∧ transformRegistered reg = true
    ∧ is_Some (TransformComponent_serialize t)
    ∧ (parent t = VNull
       ∨ ∃ p, parent t = VNum p ∧ is_Some (getTransform s p) ∧ (rank p < rank entityId)%nat)
  | CUser cls fields =>
    T ≠ "transform" ∧ componentTypes reg !! T = Some cls ∧ extendsComponent cls = true
    ∧ ∃ f1 f2, construct cls (del (entries (json (serialized c))) "source") = Some f1
               ∧ onAdd cls entityId f1 = Some f2
               ∧ json (serialized (CUser cls f2)) = json (serialized c)
  end.

Record restorable (reg : ComponentRegistry) (rank : Z → nat) (s : Store) : Prop := mkRestorable {
  restorable_live : ∀ entityId, entityId ∈ entities s ↔ is_Some (entityComponents s !! entityId);
  restorable_accepted : ∀ entityId m T c,
    entityComponents s !! entityId = Some m → m !! T = Some c →
    accepted reg rank s entityId T c
}.


Lemma del_put d k x : del (put d k x) k = del d k.
Proof.
  unfold del, Data. induction d as [|[k' v] d IH]; cbn [put].
  - rewrite filter_cons_False; [done|]. simpl. by intros ?.
  - case_bool_decide as Hk.
    + subst. rewrite !filter_cons_False; [done|simpl; by intros ?|simpl; by intros ?].
    + rewrite !filter_cons_True by done. by rewrite IH.
Qed.





(** *** First pass: entities and their components *)




(** *** Second pass: the parent links *)



Lemma getTransform_lookup s entityId t :
  getTransform s entityId = Some t ↔
    entityId ∈ entities s
    ∧ ∃ m, entityComponents s !! entityId = Some m ∧ m !! "transform" = Some (CTransform t).
Proof.
  unfold getTransform, getComponent, hasEntity. split.
  - case_bool_decide; [|done].
    destruct (entityComponents s !! entityId) as [m|]; [|done]. simpl.
    destruct (m !! "transform") as [[t'|]|] eqn:E; try done.
    intros [= ->]. eauto.
  - intros (Hlive & m & Hm & Ht). rewrite bool_decide_eq_true_2 by done.
    rewrite Hm. simpl. by rewrite Ht.
Qed.



Lemma check_ancestors_null fuel s entityId : check_ancestors fuel s entityId VNull = Some true.
Proof. by destruct fuel. Qed.

Lemma accepted_parent reg rank s entityId t :
  restorable reg rank s → getTransform s entityId = Some t →
  parent t = VNull
  ∨ ∃ p, parent t = VNum p ∧ is_Some (getTransform s p) ∧ (rank p < rank entityId)%nat.
Proof.
  intros [_ Hacc] (Hlive & m & Hm & Ht)%getTransform_lookup.
  by destruct (Hacc _ _ _ _ Hm Ht) as (_ & _ & _ & _ & Hparent).
Qed.










(** *** The round trip *)







Lemma restorable_of_lists reg rank s l :
  consistent s →
  map_to_list (entityComponents s) = l →
  Forall (λ im : Z * gmap string Component,
            Forall (λ Tc : string * Component, accepted reg rank s im.1 Tc.1 Tc.2)
                   (map_to_list im.2)) l →
  restorable reg rank s.
Proof.
  intros [Hlive _ _] <- Hall. split.
  - intros i. rewrite Hlive. unfold types_of.
    destruct (entityComponents s !! i); simpl; split; intros [? ?]; done || eauto.
  - intros i m T c Hm Hc.
    apply elem_of_map_to_list in Hm. apply elem_of_map_to_list in Hc.
    rewrite Forall_forall in Hall. specialize (Hall _ Hm). simpl in Hall.
    rewrite Forall_forall in Hall. by specialize (Hall _ Hc).
Qed.

(** Entity 2 lies one step above the roots. *)
Definition child_rank (entityId : Z) : nat := if entityId =? 2 then 1%nat else 0%nat.

Lemma reachable_parent_and_child : reachable parent_and_child.
Proof.
  apply (reachable_call 1 two_roots (OpSetParent 2 (VNum 1))); [|vm_compute; reflexivity].
  apply reachable_two_roots.
Qed.

Lemma restorable_parent_and_child : restorable transform_only child_rank parent_and_child.
Proof.
  apply (restorable_of_lists _ _ _
           [(2, {["transform" := CTransform
                                   (mkTransform (VArr [VNum 0; VNum 0; VNum 0])
                                                (VArr [VNum 0; VNum 0; VNum 0])
                                                (VArr [VNum 1; VNum 1; VNum 1]) (VNum 1) ∅)]});
            (1, {["transform" := CTransform
                                   (mkTransform (VArr [VNum 0; VNum 0; VNum 0])
                                                (VArr [VNum 0; VNum 0; VNum 0])
                                                (VArr [VNum 1; VNum 1; VNum 1]) VNull {[2]})]})]).
  - apply reachable_consistent, reachable_parent_and_child.
  - vm_compute; reflexivity.
  - constructor; [|constructor; [|constructor]]; cbn [snd fst];
      rewrite map_to_list_singleton; (constructor; [|constructor]); cbn [snd fst];
      (split; [vm_compute; reflexivity|]); (split; [reflexivity|]);
      (split; [reflexivity|]); (split; [by eexists|]).
    + right. exists 1. split; [reflexivity|]. split; [|vm_compute; lia].
      eexists. vm_compute. reflexivity.
    + by left.
Qed.


(** What a call returned, if it returned. *)
Definition returned {A : Type} (r : Completion A) : option A :=
  match r with
  | Returns _ a => Some a
  | Throws _ => None
  end.


(** ** setParent: what a successful call establishes *)

Lemma getTransform_modify_transform f j s i :
  getTransform (modify_transform f j s) i =
    if decide (j = i) then f <$> getTransform s i else getTransform s i.
Proof.
  unfold getTransform, getComponent, modify_transform, hasEntity. simpl.
  case_bool_decide as Hlive; [|by case_decide].
  rewrite lookup_alter. destruct (decide (j = i)) as [->|Hne]; [|done].
  destruct (entityComponents s !! i) as [m|]; [|done]. simpl.
  rewrite lookup_alter_eq. by destruct (m !! "transform") as [[t|]|].
Qed.

Lemma getChildren_modify_transform f j s i :
  getChildren (modify_transform f j s) i =
    if decide (j = i)
    then match getTransform s i with Some t => children (f t) | None => ∅ end
    else getChildren s i.
Proof.
  unfold getChildren. rewrite getTransform_modify_transform.
  case_decide; [|done]. by destruct (getTransform s i).
Qed.

(** The store a successful, effective setParent leaves: the old parent, if
    it is an entity with a transform other than the new one, loses the
    child; the new parent gains it; the child's parent field is written. *)
Lemma setParent_true fuel s entityId newParentId s' :
  setParent fuel s entityId newParentId = Some (s', true) →
  ∃ t, getTransform s entityId = Some t
       ∧ (newParentId = VNull
          ∨ ∃ p, newParentId = VNum p ∧ p ≠ entityId ∧ is_Some (getTransform s p))
       ∧ (parent t = newParentId ∧ s' = s
          ∨ parent t ≠ newParentId
            ∧ s' = _setParent entityId newParentId
                     (match newParentId with
                      | VNum p => _addChild p entityId
                      | _ => λ x, x
                      end
                        (match parent t with
                         | VNum o =>
                           if bool_decide (is_Some (getTransform s o))
                           then _removeChild o entityId s else s
                         | _ => s
                         end))).
Proof.
  unfold setParent. intros H.
  destruct newParentId as [| | | p | | |]; try done.
  - destruct (negb (hasEntity s entityId)); [done|]. simpl in H.
    destruct (getTransform s entityId) as [t|]; [|done]. simpl in H.
    exists t. split; [done|]. split; [by left|].
    destruct (strict_eq (parent t) VNull) eqn:Hsame.
    { left. apply strict_eq_null in Hsame. by simplify_eq. }
    right. split; [by intros ?%strict_eq_null; congruence|].
    rewrite check_ancestors_null in H. simpl in H. injection H as <-.
    f_equal. destruct (parent t) as [| | | o | | |]; try done. simpl.
    by destruct (getTransform s o).
  - destruct (negb (hasEntity s entityId)); [done|]. simpl in H.
    destruct (negb (hasEntity s p)); [done|]. simpl in H.
    destruct (Z.eqb_spec entityId p) as [|Hne]; [done|].
    destruct (getTransform s entityId) as [t|]; [|done].
    destruct (getTransform s p) as [tp|] eqn:Hp; [|done]. simpl in H.
    exists t. split; [done|]. split; [right; exists p; by eauto|].
    destruct (strict_eq (parent t) (VNum p)) eqn:Hsame.
    { left. apply strict_eq_num in Hsame. by simplify_eq. }
    right. split; [by intros ?%strict_eq_num; congruence|].
    destruct (check_ancestors fuel s entityId (VNum p)) as [[]|]; try done.
    simpl in H. injection H as <-. do 2 f_equal.
    destruct (parent t) as [| | | o | | |]; try done. simpl.
    by destruct (getTransform s o).
Qed.

(** The parent and the children of every entity after an effective
    setParent, in terms of the store before. *)
Lemma setParent_effect fuel s entityId newParentId s' t :
  setParent fuel s entityId newParentId = Some (s', true) →
  getTransform s entityId = Some t → parent t ≠ newParentId →
  (∀ i, parent <$> getTransform s' i =
          if decide (entityId = i) then Some newParentId else parent <$> getTransform s i)
  ∧ (∀ i, getChildren s' i =
            if strict_eq newParentId (VNum i) then {[entityId]} ∪ getChildren s i
            else if strict_eq (parent t) (VNum i) then getChildren s i ∖ {[entityId]}
            else getChildren s i).
Proof.
  intros H Ht Hchange.
  destruct (setParent_true _ _ _ _ _ H) as (t0 & Ht0 & Hnew & Hcases).
  assert (t0 = t) as -> by congruence.
  destruct Hcases as [[Heq _]|[_ Hs']]; [done|]. subst s'. clear H.
  set (s1 := match parent t with
             | VNum o => if bool_decide (is_Some (getTransform s o))
                         then _removeChild o entityId s else s
             | _ => s
             end).
  assert (∀ i, parent <$> getTransform s1 i = parent <$> getTransform s i) as Hp1.
  { intros i. unfold s1. destruct (parent t) as [| | | o | | |]; try done.
    case_bool_decide; [|done]. unfold _removeChild.
    rewrite getTransform_modify_transform. case_decide; [|done].
    by destruct (getTransform s i). }
  assert (∀ i, getChildren s1 i =
               if strict_eq (parent t) (VNum i) then getChildren s i ∖ {[entityId]}
               else getChildren s i) as Hc1.
  { intros i. unfold s1. destruct (parent t) as [| | | o | | |]; try done. simpl.
    destruct (Z.eqb_spec o i) as [->|Hne].
    - case_bool_decide as Ho.
      + unfold _removeChild. rewrite getChildren_modify_transform, decide_True by done.
        unfold getChildren. by destruct (getTransform s i).
      + unfold getChildren. destruct (getTransform s i); [by destruct Ho|set_solver].
    - case_bool_decide; [|done]. unfold _removeChild.
      by rewrite getChildren_modify_transform, decide_False. }
  split.
  - intros i. unfold _setParent. rewrite getTransform_modify_transform.
    assert (parent <$> getTransform
              (match newParentId with VNum p => _addChild p entityId | _ => λ x, x end s1) i
            = parent <$> getTransform s i) as Hp2.
    { rewrite <-Hp1. destruct newParentId as [| | | p | | |]; try done.
      unfold _addChild. rewrite getTransform_modify_transform. case_decide; [|done].
      by destruct (getTransform s1 i). }
    destruct (decide (entityId = i)) as [<-|Hne]; [|done].
    rewrite Ht in Hp2. simpl in Hp2. revert Hp2.
    match goal with
    | |- context [getTransform ?a entityId] => by destruct (getTransform a entityId)
    end.
  - intros i. unfold _setParent. rewrite getChildren_modify_transform.
    assert (getChildren
              (match newParentId with VNum p => _addChild p entityId | _ => λ x, x end s1) i
            = if strict_eq newParentId (VNum i) then {[entityId]} ∪ getChildren s1 i
              else getChildren s1 i) as Hc2.
    { destruct newParentId as [| | | p | | |]; try done. simpl.
      unfold _addChild. rewrite getChildren_modify_transform.
      destruct (Z.eqb_spec p i) as [->|Hne].
      - rewrite decide_True by done.
        destruct Hnew as [?|(p' & [= <-] & _ & [tp Hp])]; [done|].
        assert (is_Some (getTransform s1 i)) as [tp1 Htp1].
        { specialize (Hp1 i). rewrite Hp in Hp1. by destruct (getTransform s1 i). }
        unfold getChildren. by rewrite Htp1.
      - by rewrite decide_False. }
    assert (getChildren (match newParentId with
                         | VNum p => _addChild p entityId | _ => λ x, x end s1) i
            = if strict_eq newParentId (VNum i) then {[entityId]} ∪ getChildren s i
              else if strict_eq (parent t) (VNum i) then getChildren s i ∖ {[entityId]}
              else getChildren s i) as Hc3.
    { rewrite Hc2, Hc1. destruct (strict_eq newParentId (VNum i)) eqn:Hv; [|done].
      apply strict_eq_num in Hv. destruct (strict_eq (parent t) (VNum i)) eqn:Ho; [|done].
      apply strict_eq_num in Ho. congruence. }
    rewrite <-Hc3. case_decide; [|done]. subst i. unfold getChildren.
    match goal with
    | |- context [getTransform ?a entityId] => by destruct (getTransform a entityId)
    end.
Qed.

(** A successful setParent leaves the child with the parent asked for.
    When this changes the child's parent, the new parent lists the child,
    the old parent no longer does, and no other entity's parent changes. *)
Theorem setParent_links_child_to_new_parent fuel s entityId newParentId s' :
  setParent fuel s entityId newParentId = Some (s', true) →
  parent <$> getTransform s' entityId = Some newParentId
  ∧ ∀ t, getTransform s entityId = Some t → parent t ≠ newParentId →
      (∀ p, newParentId = VNum p → entityId ∈ getChildren s' p)
      ∧ (∀ o, parent t = VNum o → entityId ∉ getChildren s' o)
      ∧ (∀ i, i ≠ entityId → parent <$> getTransform s' i = parent <$> getTransform s i).
Proof.
  intros H. split.
  - destruct (setParent_true _ _ _ _ _ H) as (t & Ht & _ & [[Heq ->]|[Hchange _]]).
    + by rewrite Ht, <-Heq.
    + destruct (setParent_effect _ _ _ _ _ _ H Ht Hchange) as [Hparents _].
      by rewrite Hparents, decide_True.
  - intros t Ht Hchange.
    destruct (setParent_effect _ _ _ _ _ _ H Ht Hchange) as [Hparents Hchildren].
    split; [|split].
    + intros p ->. rewrite Hchildren. simpl. rewrite Z.eqb_refl. set_solver.
    + intros o Ho. rewrite Hchildren.
      destruct (strict_eq newParentId (VNum o)) eqn:Hv.
      { apply strict_eq_num in Hv. congruence. }
      rewrite Ho. simpl. rewrite Z.eqb_refl. set_solver.
    + intros i Hi. rewrite Hparents. by rewrite decide_False.
Qed.

Lemma setParent_links_child_to_new_parent_witness :
  parent <$> getTransform parent_and_child 2 = Some (VNum 1)
  ∧ 2 ∈ getChildren parent_and_child 1
  ∧ parent <$> getTransform parent_and_child 1 = parent <$> getTransform two_roots 1.
Proof.
  assert (setParent 1 two_roots 2 (VNum 1) = Some (parent_and_child, true)) as H
    by (vm_compute; reflexivity).
  destruct (setParent_links_child_to_new_parent _ _ _ _ _ H) as [Hparent Hrest].
  destruct (Hrest (mkTransform (VArr [VNum 0; VNum 0; VNum 0]) (VArr [VNum 0; VNum 0; VNum 0])
                               (VArr [VNum 1; VNum 1; VNum 1]) VNull ∅))
    as (Hnew & _ & Hothers); [vm_compute; reflexivity|discriminate|].
  split; [exact Hparent|]. split; [by apply Hnew|]. by apply Hothers.
Defined.

(** ** The hierarchy invariant along setParent *)

(** Parent fields and children sets agree: an entity whose transform names
    a parent is listed by that parent, and every listed child has a
    transform that names the listing entity as its parent. *)
Definition hierarchy_coherent (s : Store) : Prop :=
  (∀ c t p, getTransform s c = Some t → parent t = VNum p → c ∈ getChildren s p)
  ∧ (∀ p c, c ∈ getChildren s p → parent <$> getTransform s c = Some (VNum p)).

(** setParent keeps parent fields and children sets in agreement, whether
    it accepts the call or rejects it. *)
Lemma setParent_coherent fuel s entityId newParentId s' b :
  hierarchy_coherent s →
  setParent fuel s entityId newParentId = Some (s', b) →
  hierarchy_coherent s'.
Proof.
  intros [Hup Hdown] H. destruct b; [|by apply setParent_false_unchanged in H as ->].
  destruct (setParent_true _ _ _ _ _ H) as (t & Ht & Hnew & [[_ ->]|[Hchange _]]); [done|].
  destruct (setParent_effect _ _ _ _ _ _ H Ht Hchange) as [Hparents Hchildren].
  assert (∀ i t', getTransform s' i = Some t' →
            parent t' = (if decide (entityId = i) then newParentId
                         else default VNull (parent <$> getTransform s i))
            ∧ is_Some (getTransform s i)) as Hparent'.
  { intros i t' Hi. specialize (Hparents i). rewrite Hi in Hparents. simpl in Hparents.
    case_decide; [subst i; split; [congruence|by eauto]|].
    destruct (getTransform s i); simplify_eq/=; by eauto. }
  split.
  - intros c t' p Hc Hp. destruct (Hparent' _ _ Hc) as [Hpc [tc Htc]].
    rewrite Hchildren. rewrite Hp in Hpc.
    destruct (decide (entityId = c)) as [<-|Hne].
    + rewrite <-Hpc. simpl. rewrite Z.eqb_refl. set_solver.
    + rewrite Htc in Hpc. simpl in Hpc.
      assert (c ∈ getChildren s p) as Hold by by eapply Hup.
      destruct (strict_eq newParentId (VNum p)); [set_solver|].
      destruct (strict_eq (parent t) (VNum p)); set_solver.
  - intros p c. rewrite Hchildren, Hparents.
    destruct (strict_eq newParentId (VNum p)) eqn:Hv.
    + apply strict_eq_num in Hv. intros [->%elem_of_singleton|Hold]%elem_of_union.
      * by rewrite decide_True, Hv.
      * case_decide; [by subst|by apply Hdown].
    + assert (c ∈ getChildren s p → c ≠ entityId →
              (if decide (entityId = c) then Some newParentId
               else parent <$> getTransform s c) = Some (VNum p)) as Hkeep.
      { intros Hold Hne. case_decide; [by subst|by apply Hdown]. }
      destruct (strict_eq (parent t) (VNum p)) eqn:Ho.
      * intros [Hold Hne%not_elem_of_singleton]%elem_of_difference.
        by apply Hkeep.
      * intros Hold. pose proof (Hdown _ _ Hold) as Hback.
        case_decide; [|done]. subst c. rewrite Ht in Hback. simpl in Hback.
        injection Hback as Hback. apply strict_eq_num in Hback. congruence.
Qed.

(** ** setParent ends on a hierarchy without cycles *)

Lemma check_ancestors_ranked (rank : Z → nat) s entityId :
  (∀ q t p, getTransform s q = Some t → parent t = VNum p → (rank p < rank q)%nat) →
  ∀ fuel q, (rank q + 1 < fuel)%nat →
    is_Some (check_ancestors fuel s entityId (VNum q)).
Proof.
  intros Hrank fuel. induction fuel as [|fuel IH]; intros q Hfuel; [lia|].
  simpl. destruct (q =? entityId); [by eexists|].
  destruct (getTransform s q) as [t|] eqn:Ht; [|by eexists].
  destruct (parent t) as [| | | p | | |] eqn:Hp;
    try (destruct fuel as [|fuel']; [lia|by eexists]).
  apply IH. specialize (Hrank _ _ _ Ht Hp). lia.
Qed.

(** When the parent links of the store strictly decrease some rank of the
    entities (which is to say they form no cycle), every setParent call
    returns, given a number of steps that depends on the rank of the new
    parent only. *)
Theorem setParent_returns_on_acyclic_hierarchy (rank : Z → nat) s entityId newParentId :
  (∀ q t p, getTransform s q = Some t → parent t = VNum p → (rank p < rank q)%nat) →
  ∀ fuel,
    (match newParentId with VNum p => rank p + 2 | _ => 0 end ≤ fuel)%nat →
    is_Some (setParent fuel s entityId newParentId).
Proof.
  intros Hrank fuel Hfuel. unfold setParent.
  destruct newParentId as [| | | p | | |]; try by eexists.
  - rewrite check_ancestors_null. repeat (case_match; try by eexists).
  - destruct (check_ancestors_ranked rank s entityId Hrank fuel p) as [b Hb]; [lia|].
    rewrite Hb. simpl. destruct b; simpl; repeat (case_match; try by eexists).
Qed.

Lemma setParent_returns_on_acyclic_hierarchy_witness :
  is_Some (setParent 3 parent_and_child 1 (VNum 2)).
Proof.
  apply (setParent_returns_on_acyclic_hierarchy child_rank parent_and_child 1 (VNum 2));
    [|vm_compute; lia].
  intros q t p Ht Hp.
  destruct (accepted_parent _ _ _ _ _ restorable_parent_and_child Ht)
    as [Hnull|(p' & Hp' & _ & Hlt)]; [congruence|].
  assert (p' = p) as <- by congruence. exact Hlt.
Defined.

(** Detaching an entity ([setParent(id, null)]) returns whatever the parent
    links look like, cycles included: the ancestor walk has nothing to
    visit. *)
Theorem detaching_always_returns fuel s entityId :
  is_Some (setParent fuel s entityId VNull).
Proof.
  unfold setParent. rewrite check_ancestors_null.
  repeat (case_match; try by eexists).
Qed.

(** ** The hierarchy invariant along createEntity and addComponent *)

Lemma hierarchy_coherent_ext s s' :
  (∀ i, parent <$> getTransform s' i = parent <$> getTransform s i) →
  (∀ i, getChildren s' i = getChildren s i) →
  hierarchy_coherent s → hierarchy_coherent s'.
Proof.
  intros Hparents Hchildren [Hup Hdown]. split.
  - intros c t' p Hc Hp. rewrite Hchildren.
    specialize (Hparents c). rewrite Hc in Hparents. simpl in Hparents.
    destruct (getTransform s c) as [t|] eqn:Ht; [|done].
    apply (Hup c t p); [done|]. simpl in Hparents. congruence.
  - intros p c. rewrite Hchildren, Hparents. apply Hdown.
Qed.

Lemma getTransform_ext s s' :
  entities s' = entities s → entityComponents s' = entityComponents s →
  ∀ i, getTransform s' i = getTransform s i.
Proof. intros He Hm i. unfold getTransform, getComponent, hasEntity. by rewrite He, Hm. Qed.

Lemma hierarchy_coherent_same_transforms s s' :
  (∀ i, getTransform s' i = getTransform s i) →
  hierarchy_coherent s → hierarchy_coherent s'.
Proof.
  intros H. apply hierarchy_coherent_ext; intros i; [by rewrite H|].
  unfold getChildren. by rewrite H.
Qed.

(** An entity without a transform gets one that is a root without children
    (or stays without). *)
Lemma hierarchy_coherent_add_root s s' entityId o :
  getTransform s entityId = None →
  (∀ t, o = Some t → parent t = VNull ∧ children t = ∅) →
  (∀ i, getTransform s' i = if decide (entityId = i) then o else getTransform s i) →
  hierarchy_coherent s → hierarchy_coherent s'.
Proof.
  intros Hnone Hroot Hs' [Hup Hdown].
  assert (∀ i, getChildren s' i = getChildren s i) as Hchildren.
  { intros i. unfold getChildren. rewrite Hs'. case_decide; [subst i|done].
    rewrite Hnone. destruct o as [t|]; [|done]. by destruct (Hroot t eq_refl) as [_ ->]. }
  split.
  - intros c t p Hc Hp. rewrite Hchildren. rewrite Hs' in Hc.
    case_decide; [|by eapply Hup]. subst. destruct (Hroot t eq_refl). congruence.
  - intros p c Hin. rewrite Hchildren in Hin. specialize (Hdown _ _ Hin).
    rewrite Hs'. case_decide; [|done]. subst c. by rewrite Hnone in Hdown.
Qed.

Lemma getTransform_store_component entityId T c s i :
  getTransform (store_component entityId T c s) i =
    if decide (entityId = i ∧ T = "transform")
    then (if hasEntity s entityId && bool_decide (is_Some (entityComponents s !! entityId))
          then match c with CTransform t => Some t | CUser _ _ => None end
          else None)
    else getTransform s i.
Proof.
  unfold getTransform, getComponent, store_component, hasEntity. simpl.
  rewrite lookup_alter.
  destruct (decide (entityId = i)) as [->|Hne].
  - destruct (bool_decide (i ∈ entities s)) eqn:Hlive; simpl.
    + destruct (entityComponents s !! i) as [m|]; simpl.
      * destruct (decide (T = "transform")) as [->|HT].
        -- rewrite decide_True by done. by rewrite lookup_insert_eq.
        -- rewrite decide_False by by intros [_ ?]. by rewrite lookup_insert_ne.
      * by destruct (decide _).
    + by destruct (decide _).
  - rewrite decide_False by by intros [? _]. done.
Qed.

Lemma update_transform_hierarchy t componentData :
  parent (update_transform t componentData) = parent t
  ∧ children (update_transform t componentData) = children t.
Proof.
  unfold update_transform. revert t.
  induction componentData as [|kv d IH]; intros t; [done|]. cbn [foldl].
  match goal with
  | |- context [foldl ?f ?a d] => destruct (IH a) as [Hp Hc]; rewrite Hp, Hc
  end.
  by repeat case_bool_decide.
Qed.

Lemma createEntity_getTransform fuel s r i :
  createEntity fuel s = Some r → getTransform (left_by r) i = getTransform s i.
Proof.
  intros H. destruct r as [s' id|s'].
  - apply createEntity_returns in H as (Hnew & Hent & _ & _ & _ & Hmap & _).
    unfold getTransform, getComponent, hasEntity. simpl. rewrite Hent, Hmap.
    destruct (decide (i = id)) as [->|Hne].
    + rewrite lookup_insert_eq, (bool_decide_eq_false_2 _ Hnew). simpl.
      by case_bool_decide.
    + rewrite lookup_insert_ne by done.
      assert (bool_decide (i ∈ {[id]} ∪ entities s) = bool_decide (i ∈ entities s)) as ->; [|done].
      apply bool_decide_ext. set_solver.
  - unfold createEntity in H. simpl.
    destruct (next_free fuel (entities s) (nextEntityId s)) as [[?|]|]; by simplify_eq/=.
Qed.

Lemma registry_get_transform reg T :
  registry_get reg T = Some TransformClass → T = "transform".
Proof.
  unfold registry_get. case_bool_decide; [done|].
  by destruct (componentTypes reg !! T).
Qed.

Lemma registry_get_user reg T cls :
  registry_get reg T = Some (UserClass cls) → T ≠ "transform".
Proof.
  unfold registry_get. case_bool_decide; [|done]. by destruct (transformRegistered reg).
Qed.

Lemma getTransform_store_other entityId T c s i :
  T ≠ "transform" → getTransform (store_component entityId T c s) i = getTransform s i.
Proof.
  intros HT. rewrite getTransform_store_component. by rewrite decide_False by by intros [_ ?].
Qed.

Lemma getTransform_unstore_other entityId T s i :
  T ≠ "transform" → getTransform (unstore_component entityId T s) i = getTransform s i.
Proof.
  intros HT. unfold getTransform, getComponent, unstore_component, hasEntity. simpl.
  destruct (bool_decide (i ∈ entities s)); [|done]. rewrite lookup_alter.
  case_decide; [subst|done].
  destruct (entityComponents s !! i) as [m|]; [|done]. simpl.
  by rewrite lookup_delete_ne.
Qed.

(** addComponent keeps parent fields and children sets in agreement on
    every path but one: building a new transform whose constructor takes a
    parent or children from the data.  Updating a transform with a 'parent'
    field is safe, as are all calls on other component types. *)
Lemma addComponent_coherent fuel reg s entityId T data s' r :
  hierarchy_coherent s →
  addComponent fuel reg s entityId T data = Some (s', r) →
  (T = "transform" → getTransform s entityId = None →
   ∀ t, new_TransformComponent (del (if is_object data then entries data else []) "source")
          = Some t →
        parent t = VNull ∧ children t = ∅) →
  hierarchy_coherent s'.
Proof.
  intros Hs H Hguard. unfold addComponent in H.
  destruct (blank T); [by simplify_eq|].
  destruct (negb (hasEntity s entityId)) eqn:Hlive; [by simplify_eq|].
  destruct (registry_get reg T) as [ctor|] eqn:Hreg; [|by simplify_eq].
  destruct (getComponent s entityId T) as [[t|cls fields]|] eqn:Hold.
  - (* an existing transform is updated *)
    set (s1 := store_component entityId T
                 (CTransform (update_transform t
                    (del (if is_object data then entries data else []) "source"))) s) in H.
    assert (hierarchy_coherent s1) as Hs1.
    { destruct (update_transform_hierarchy t
                  (del (if is_object data then entries data else []) "source")) as [Hp Hc].
      apply (hierarchy_coherent_ext s); [| |done].
      - intros i. unfold s1. rewrite getTransform_store_component.
        destruct (decide (entityId = i ∧ T = "transform")) as [[<- ->]|Hne]; [|done].
        unfold getTransform. rewrite Hold.
        unfold getComponent in Hold. destruct (hasEntity s entityId); [|done].
        destruct (entityComponents s !! entityId); [|done]. simpl. by rewrite Hp.
      - intros i. unfold getChildren, s1. rewrite getTransform_store_component.
        destruct (decide (entityId = i ∧ T = "transform")) as [[<- ->]|Hne]; [|done].
        unfold getTransform. rewrite Hold.
        unfold getComponent in Hold. destruct (hasEntity s entityId); [|done].
        destruct (entityComponents s !! entityId); [|done]. simpl. by rewrite Hc. }
    destruct (target_parent _) as [targetParent|]; [|by simplify_eq/=].
    destruct (_ && _).
    + destruct (setParent fuel s1 entityId targetParent) as [[s2 b]|] eqn:Hset;
        simplify_eq/=. by eapply setParent_coherent.
    + by simplify_eq/=.
  - (* an existing component of another class is updated *)
    assert (∀ f, hierarchy_coherent (store_component entityId T (CUser cls f) s)) as Hstored.
    { intros f. apply (hierarchy_coherent_same_transforms s); [|done].
      intros i. rewrite getTransform_store_component.
      destruct (decide (entityId = i ∧ T = "transform")) as [[<- ->]|Hne]; [|done].
      unfold getTransform. rewrite Hold. by destruct (_ && _). }
    destruct (onUpdate cls _ _); simplify_eq/=; apply Hstored.
  - destruct ctor as [|cls].
    + (* a new transform *)
      apply registry_get_transform in Hreg as ->.
      assert (getTransform s entityId = None) as Hnone by (unfold getTransform; by rewrite Hold).
      destruct (new_TransformComponent _) as [t|] eqn:Hnew; [|by simplify_eq].
      injection H as <- _.
      apply (hierarchy_coherent_add_root s _ entityId
               (if hasEntity s entityId && bool_decide (is_Some (entityComponents s !! entityId))
                then Some t else None)); [done| |
                |done].
      * intros t' Ht'. destruct (_ && _); simplify_eq. by apply Hguard.
      * intros i.
        rewrite (getTransform_ext
                   (store_component entityId "transform" (CTransform t) s)) by done.
        rewrite getTransform_store_component.
        destruct (decide (entityId = i)) as [->|Hne].
        -- by rewrite decide_True.
        -- by rewrite decide_False by by intros [? _].
    + (* a new component of another class *)
      apply registry_get_user in Hreg.
      destruct (construct cls _) as [f1|]; [|by simplify_eq].
      destruct (negb (extendsComponent cls)); [by simplify_eq|].
      apply (hierarchy_coherent_same_transforms s); [|done]. intros i.
      destruct (onAdd cls entityId f1) as [f2|]; simplify_eq/=.
      * rewrite getTransform_store_other by done.
        rewrite (getTransform_ext (store_component entityId T (CUser cls f1) s)) by done.
        by rewrite getTransform_store_other.
      * rewrite (getTransform_ext
                   (unstore_component entityId T
                      (store_component entityId T (CUser cls f1) s))) by done.
        rewrite getTransform_unstore_other by done.
        by rewrite getTransform_store_other.
Qed.

(** ** removeEntity *)

Lemma removeEntity_result fuel s entityId s' b :
  removeEntity fuel s entityId = Some (s', b) → b = hasEntity s entityId.
Proof.
  destruct fuel as [|fuel]; [done|]. simpl.
  destruct (hasEntity s entityId); simpl; [|by intros [= _ <-]].
  intros H.
  match type of H with (?m ≫= _) = _ => destruct m; [|done] end.
  simpl in H. by injection H as _ <-.
Qed.

(** ** deserialize: malformed documents and the id counter *)

(** What [deserialize] refuses before it touches an entity: a string that
    does not parse, a value that is no object, an object without an
    'entities' array. *)
Definition malformed (jsonOrObject : option Value) : Prop :=
  match jsonOrObject with
  | Some (VObj data) =>
    match get data "entities" with
    | VArr _ => False
    | _ => True
    end
  | _ => True
  end.

(** On a malformed document deserialize clears the store and returns
    false. *)
Theorem deserialize_rejects_malformed_documents fuel reg s jsonOrObject :
  malformed jsonOrObject →
  (is_Some (deserialize fuel reg s jsonOrObject) ↔ is_Some (clear fuel s))
  ∧ ∀ r, deserialize fuel reg s jsonOrObject = Some r → r = Returns new_store false.
Proof.
  intros Hbad.
  assert (deserialize fuel reg s jsonOrObject
          = (clear fuel s ≫= λ s0, Some (Returns s0 false))) as ->.
  { unfold deserialize. destruct jsonOrObject as [[| | | | | |data]|]; try done.
    simpl in Hbad. by destruct (get data "entities"). }
  split.
  - destruct (clear fuel s); simpl; split; intros [? ?]; done || eauto.
  - intros r. destruct (clear fuel s) as [s0|] eqn:Hclear; [|done].
    apply clear_returns_new_store in Hclear as ->. by intros [= <-].
Qed.

Lemma deserialize_rejects_malformed_documents_witness :
  deserialize 3 transform_only parent_and_child (Some (VObj [("entities", VNull)]))
  = Some (Returns new_store false).
Proof.
  destruct (deserialize_rejects_malformed_documents 3 transform_only parent_and_child
              (Some (VObj [("entities", VNull)])) I) as [Hreturns Hresult].
  destruct (proj2 Hreturns) as [r Hr]; [eexists; vm_compute; reflexivity|].
  rewrite Hr. f_equal. by apply Hresult.
Defined.

Lemma skip_live_spec fuel (live : gset Z) n r :
  skip_live fuel live n = Some r →
  n <= r ∧ (r ∈ live → MAX_SAFE_INTEGER < r).
Proof.
  revert n. induction fuel as [|fuel IH]; intros n; simpl;
    case_bool_decide as Hin; intros H; simplify_eq; try (split; [lia|done]).
  destruct (n + 1 >? MAX_SAFE_INTEGER) eqn:Hmax.
  - injection H as <-. split; [lia|]. intros _. lia.
  - apply IH in H as [? ?]. split; [lia|done].
Qed.

Lemma restore_entity_highestId fuel reg p v p' :
  restore_entity fuel reg p v = Some p' → highestId p <= highestId p'.
Proof.
  unfold restore_entity. intros H.
  repeat (case_match; simplify_eq/=; try lia).
Qed.

(** When deserialize returns, the id counter is at least 1 and names no
    live entity (unless it ran past the largest safe integer), so the next
    createEntity starts on a free id without searching. *)
Theorem deserialize_leaves_a_free_next_id fuel reg s jsonOrObject s' b :
  deserialize fuel reg s jsonOrObject = Some (Returns s' b) →
  1 <= nextEntityId s'
  ∧ (nextEntityId s' ∈ entities s' → MAX_SAFE_INTEGER < nextEntityId s').
Proof.
  unfold deserialize. intros H.
  assert (∀ s0, clear fuel s = Some s0 → s0 = new_store) as Hclear
    by (intros s0; apply clear_returns_new_store).
  destruct (clear fuel s) as [s0|] eqn:Ec; [|by repeat case_match].
  rewrite (Hclear s0 eq_refl) in *. clear Hclear Ec s0.
  destruct jsonOrObject as [[| | | | | |data]|]; simplify_eq/=; try (split; [lia|set_solver]).
  destruct (get data "entities") as [| | | | |items|]; simplify_eq/=;
    try (split; [lia|set_solver]).
  match type of H with (?m ≫= _) = _ => destruct m as [p|] eqn:Ep; [|done] end.
  assert (0 <= highestId p) as Hhigh.
  { revert Ep.
    assert (∀ p0, Some {| store := new_store; highestId := 0; restoredEntityIds := [];
                          success := true |} = Some p0 → 0 <= highestId p0) as Hstart
      by (intros ? [= <-]; simpl; lia).
    revert Hstart. generalize (Some {| store := new_store; highestId := 0;
                                       restoredEntityIds := []; success := true |}).
    clear H. induction items as [|v items IH]; intros acc Hacc E; simpl in E.
    - by apply Hacc.
    - eapply IH; [|exact E]. intros p0 E0.
      destruct acc as [p1|]; [|done]. simpl in E0.
      apply restore_entity_highestId in E0. specialize (Hacc p1 eq_refl). lia. }
  simpl in H.
  match type of H with (?m ≫= _) = _ => destruct m as [[s2 errs|s2]|] eqn:Er; [|done|done] end.
  simpl in H. destruct (skip_live fuel (entities s2) (highestId p + 1)) as [n|] eqn:Hn; [|done].
  simpl in H. injection H as <- _. apply skip_live_spec in Hn as [Hle Hfree].
  destruct (Z.ltb_spec n 1); [lia|]. simpl. split; [lia|done].
Qed.

(** The store of [parent_and_child] written out and read back. *)
Definition reloaded : Store :=
  Eval vm_compute in
    match deserialize 5 transform_only new_store (Some (serialize parent_and_child)) with
    | Some r => left_by r
    | None => new_store
    end.

Lemma deserialize_leaves_a_free_next_id_witness :
  1 <= nextEntityId reloaded
  ∧ (nextEntityId reloaded ∈ entities reloaded → MAX_SAFE_INTEGER < nextEntityId reloaded).
Proof.
  assert (deserialize 5 transform_only new_store (Some (serialize parent_and_child))
          = Some (Returns reloaded true)) as H by (vm_compute; reflexivity).
  exact (deserialize_leaves_a_free_next_id 5 transform_only new_store
           (Some (serialize parent_and_child)) reloaded true H).
Defined.

(** ** getEntitiesWithComponents *)

Lemma smallest_set_found s types smallest found :
  smallest_set s types smallest = Some (Some found) →
  smallest = Some found ∨ ∃ T, T ∈ types ∧ componentEntityMap s !! T = Some found.
Proof.
  revert smallest. induction types as [|T types IH]; intros smallest; simpl.
  - intros [= ->]. by left.
  - destruct (componentEntityMap s !! T) as [set|] eqn:HT; [|done].
    destruct (size set =? 0)%nat; [done|]. intros H.
    apply IH in H as [H|(T' & Hin & HT')].
    + destruct smallest as [old|].
      * destruct (size set <? size old)%nat; simplify_eq.
        -- right. exists T. split; [left|done].
        -- by left.
      * simplify_eq. right. exists T. split; [left|done].
    + right. exists T'. split; [by right|done].
Qed.

Lemma smallest_set_gives_up s types smallest :
  smallest_set s types smallest = None →
  ∃ T, T ∈ types ∧ default ∅ (componentEntityMap s !! T) = ∅.
Proof.
  revert smallest. induction types as [|T types IH]; intros smallest; simpl; [done|].
  destruct (componentEntityMap s !! T) as [set|] eqn:HT.
  - destruct (size set =? 0)%nat eqn:Hsize.
    + intros _. exists T. split; [left|]. rewrite HT. simpl.
      apply Nat.eqb_eq in Hsize. by apply size_empty_inv, leibniz_equiv in Hsize.
    + intros (T' & ? & ?)%IH. exists T'. split; [by right|done].
  - intros _. exists T. split; [left|]. by rewrite HT.
Qed.

Lemma smallest_set_keeps s types smallest :
  is_Some smallest → smallest_set s types smallest ≠ Some None.
Proof.
  revert smallest. induction types as [|T types IH]; intros smallest [x ->]; simpl; [done|].
  destruct (componentEntityMap s !! T) as [set|]; [|done].
  destruct (size set =? 0)%nat; [done|]. apply IH. by destruct (_ <? _)%nat.
Qed.

Lemma forallb_true_elem {A : Type} (f : A → bool) (l : list A) :
  forallb f l = true ↔ ∀ x, x ∈ l → f x = true.
Proof.
  induction l as [|y l IH]; simpl; [split; [by intros _ ? ?%elem_of_nil|done]|].
  rewrite andb_true_iff, IH. split.
  - intros [Hy Hl] x [->|Hx]%elem_of_cons; auto.
  - intros H. split; [apply H; left|]. intros x Hx. apply H. by right.
Qed.

Lemma type_name_named v T : type_name v = Some T → blank T = false.
Proof. destruct v; simpl; try done. destruct (blank s) eqn:E; [done|]. by intros [= <-]. Qed.

(** In a store whose index is exact (every store the public methods
    build), getEntitiesWithComponents with a non-empty array of type names
    lists, without repetition, exactly the entities that have a component
    of each of the types. *)
Theorem getEntitiesWithComponents_lists_the_carriers_of_all s items types :
  consistent s → items ≠ [] → mapM type_name items = Some types →
  NoDup (getEntitiesWithComponents s (VArr items))
  ∧ ∀ entityId,
      entityId ∈ getEntitiesWithComponents s (VArr items)
      ↔ ∀ T, T ∈ types → hasComponent s entityId T = true.
Proof.
  intros Hs Hitems Hmap. unfold getEntitiesWithComponents.
  destruct items as [|v items]; [done|]. rewrite Hmap.
  assert (types ≠ []) as Htypes.
  { apply length_mapM in Hmap. by destruct types. }
  assert (Forall (λ T, blank T = false) types) as Hnamed.
  { apply mapM_Some in Hmap. clear Htypes Hitems.
    induction Hmap as [|x T l k Hx _ IH]; constructor; [by eapply type_name_named|done]. }
  assert (∀ entityId T, T ∈ types →
            entityId ∈ default ∅ (componentEntityMap s !! T)
            ↔ hasComponent s entityId T = true) as Hindex.
  { intros entityId T HT. rewrite <-(consistent_index_hasComponent s T entityId Hs).
    unfold getEntitiesWithComponent. rewrite Forall_forall in Hnamed.
    by rewrite (Hnamed T HT), elem_of_elements. }
  destruct (smallest_set s types None) as [[found|]|] eqn:Hsmall.
  - split; [apply NoDup_filter, NoDup_elements|]. intros entityId.
    rewrite list_elem_of_filter, elem_of_elements, forallb_true_elem.
    split; [by intros [Hall _]|]. intros Hall. split; [done|].
    apply smallest_set_found in Hsmall as [?|(T & HT & Hfound)]; [done|].
    apply (Hindex entityId T HT) in Hall; [|done]. by rewrite Hfound in Hall.
  - destruct types as [|T types]; [done|]. simpl in Hsmall.
    destruct (componentEntityMap s !! T); [|done].
    destruct (size _ =? 0)%nat; [done|]. by apply smallest_set_keeps in Hsmall.
  - split; [constructor|]. intros entityId. split; [by intros ?%elem_of_nil|].
    intros Hall. apply smallest_set_gives_up in Hsmall as (T & HT & Hempty).
    apply (Hindex entityId T HT) in Hall; [|done]. rewrite Hempty in Hall. set_solver.
Qed.

Lemma getEntitiesWithComponents_lists_the_carriers_of_all_witness :
  NoDup (getEntitiesWithComponents parent_and_child (VArr [VStr "transform"]))
  ∧ (2 ∈ getEntitiesWithComponents parent_and_child (VArr [VStr "transform"])
     ↔ ∀ T, T ∈ ["transform"%string] → hasComponent parent_and_child 2 T = true).
Proof.
  destruct (getEntitiesWithComponents_lists_the_carriers_of_all parent_and_child
              [VStr "transform"] ["transform"%string]
              (reachable_consistent _ reachable_parent_and_child))
    as [Hnodup Hiff]; [done|reflexivity|].
  split; [exact Hnodup|exact (Hiff 2)].
Defined.

Lemma hierarchy_coherent_new_store : hierarchy_coherent new_store.
Proof.
  split.
  - intros c t p Hc. by apply getTransform_lookup in Hc as [?%elem_of_empty _].
  - intros p c Hin. unfold getChildren in Hin.
    destruct (getTransform new_store p) as [t|] eqn:Hp; [|set_solver].
    by apply getTransform_lookup in Hp as [?%elem_of_empty _].
Qed.

Lemma createEntity_coherent fuel s r :
  hierarchy_coherent s → createEntity fuel s = Some r → hierarchy_coherent (left_by r).
Proof.
  intros Hs H. apply (hierarchy_coherent_same_transforms s); [|done].
  intros i. by eapply createEntity_getTransform.
Qed.

Lemma hierarchy_coherent_two_roots : hierarchy_coherent two_roots.
Proof.
  assert (hierarchy_coherent two_entities) as H2.
  { apply (createEntity_coherent 1 (created (createEntity 1 new_store))
             (Returns two_entities 2)); [|vm_compute; reflexivity].
    apply (createEntity_coherent 1 new_store
             (Returns (created (createEntity 1 new_store)) 1));
      [apply hierarchy_coherent_new_store|vm_compute; reflexivity]. }
  eapply (addComponent_coherent 1 transform_only
            (after (addComponent 1 transform_only two_entities 1 "transform" (VObj [])))
            2 "transform" (VObj []) two_roots).
  - eapply (addComponent_coherent 1 transform_only two_entities 1 "transform" (VObj [])).
    + exact H2.
    + vm_compute; reflexivity.
    + intros _ _ t [= <-]. done.
  - vm_compute; reflexivity.
  - intros _ _ t [= <-]. done.
Qed.

Lemma hierarchy_coherent_parent_and_child : hierarchy_coherent parent_and_child.
Proof.
  apply (setParent_coherent 1 two_roots 2 (VNum 1) parent_and_child true);
    [apply hierarchy_coherent_two_roots|vm_compute; reflexivity].
Qed.

(** ** The hierarchy invariant along removeComponent and removeEntity *)

(** Links are only taken away: children sets shrink, and a transform that
    is still there has the parent it had, or none. *)
Definition detaches (s s' : Store) : Prop :=
  ∀ i, getChildren s' i ⊆ getChildren s i
       ∧ ∀ t', getTransform s' i = Some t' →
           ∃ t, getTransform s i = Some t ∧ (parent t' = parent t ∨ parent t' = VNull).

Lemma detaches_refl s : detaches s s.
Proof. intros i. split; [done|]. intros t' Ht. exists t'. auto. Qed.

Lemma detaches_trans s1 s2 s3 : detaches s1 s2 → detaches s2 s3 → detaches s1 s3.
Proof.
  intros H12 H23 i. destruct (H12 i) as [Hc12 Hp12], (H23 i) as [Hc23 Hp23].
  split; [set_solver|]. intros t3 Ht3.
  destruct (Hp23 t3 Ht3) as (t2 & Ht2 & Hpar23).
  destruct (Hp12 t2 Ht2) as (t1 & Ht1 & Hpar12).
  exists t1. split; [done|]. destruct Hpar23 as [->| ->]; auto.
Qed.

(** Dropping the transform of one entity. *)
Lemma detaches_drop s s' entityId :
  getTransform s' entityId = None →
  (∀ i, i ≠ entityId → getTransform s' i = getTransform s i) →
  detaches s s'.
Proof.
  intros Hgone Hsame i. destruct (decide (i = entityId)) as [->|Hne].
  - unfold getChildren. rewrite Hgone. split; [set_solver|done].
  - unfold getChildren. rewrite (Hsame i Hne). split; [done|]. intros t' Ht. exists t'. auto.
Qed.

Lemma getTransform_not_live s entityId :
  hasEntity s entityId = false → getTransform s entityId = None.
Proof. intros H. unfold getTransform, getComponent. by rewrite H. Qed.

(** [setParent(id, null)] returns true on every live entity with a
    transform, and takes links away only. *)
Lemma setParent_null fuel s entityId s' b :
  setParent fuel s entityId VNull = Some (s', b) →
  detaches s s'
  ∧ (b = true → parent <$> getTransform s' entityId = Some VNull)
  ∧ (b = false → getTransform s entityId = None).
Proof.
  intros H. destruct b.
  - destruct (setParent_true _ _ _ _ _ H) as (t & Ht & _ & [[Hpar ->]|[Hchange _]]).
    + split; [apply detaches_refl|]. split; [|done]. intros _. rewrite Ht. simpl. by rewrite Hpar.
    + destruct (setParent_effect _ _ _ _ _ _ H Ht Hchange) as [Hparents Hchildren].
      split; [|split; [|done]].
      * intros i. split.
        -- rewrite Hchildren. simpl. destruct (strict_eq (parent t) (VNum i)); set_solver.
        -- intros t' Ht'. specialize (Hparents i). rewrite Ht' in Hparents. simpl in Hparents.
           destruct (decide (entityId = i)) as [<-|Hi].
           ++ exists t. split; [done|]. right. congruence.
           ++ destruct (getTransform s i) as [t0|]; [|done]. exists t0. split; [done|].
              left. simpl in Hparents. congruence.
      * intros _. rewrite Hparents. by rewrite decide_True.
  - split; [apply setParent_false_unchanged in H as ->; apply detaches_refl|].
    split; [done|]. intros _. unfold setParent in H.
    destruct (hasEntity s entityId) eqn:Hlive; [|by apply getTransform_not_live].
    simpl in H. destruct (getTransform s entityId) as [t|]; [|done]. simpl in H.
    destruct (strict_eq (parent t) VNull); [done|].
    by rewrite check_ancestors_null in H.
Qed.

(** A loop over a snapshot, with an invariant that names what is left of
    the snapshot. *)
Lemma for_each_remaining {A} (P : list A → Store → Prop) (body : Store → A → option Store)
    s l s' :
  (∀ acc x rest acc', P (x :: rest) acc → body acc x = Some acc' → P rest acc') →
  P l s → for_each body s l = Some s' → P [] s'.
Proof.
  intros Hbody. revert s. induction l as [|x l IH]; intros s Hs H; simpl in H.
  - by simplify_eq.
  - destruct (body s x) as [s1|] eqn:E; [|done]. simpl in H. eauto.
Qed.

(** The transform of an entity without children goes away, and with it the
    entity's place among its parent's children. *)
Lemma hierarchy_coherent_drop s s' entityId :
  hierarchy_coherent s →
  getChildren s entityId = ∅ →
  getTransform s' entityId = None →
  (∀ i, i ≠ entityId → parent <$> getTransform s' i = parent <$> getTransform s i) →
  (∀ i, i ≠ entityId → getChildren s' i = getChildren s i ∖ {[entityId]}) →
  hierarchy_coherent s'.
Proof.
  intros [Hup Hdown] Hnone Hgone Hparents Hchildren. split.
  - intros c t' p Hc Hp.
    assert (c ≠ entityId) as Hc' by (intros ->; congruence).
    specialize (Hparents c Hc'). rewrite Hc in Hparents. simpl in Hparents.
    destruct (getTransform s c) as [t|] eqn:Ht; [|done]. simpl in Hparents.
    assert (c ∈ getChildren s p) as Hin by (apply (Hup c t p); congruence).
    assert (p ≠ entityId) as Hp' by (intros ->; set_solver).
    rewrite (Hchildren p Hp'). set_solver.
  - intros p c Hin.
    assert (p ≠ entityId) as Hp'.
    { intros ->. unfold getChildren in Hin. rewrite Hgone in Hin. set_solver. }
    rewrite (Hchildren p Hp') in Hin. apply elem_of_difference in Hin as [Hin Hne].
    rewrite Hparents by set_solver. by apply Hdown.
Qed.

Lemma getTransform_unstore_transform entityId s i :
  getTransform (unstore_component entityId "transform" s) i =
    if decide (entityId = i) then None else getTransform s i.
Proof.
  unfold getTransform, getComponent, unstore_component, hasEntity. simpl.
  destruct (bool_decide (i ∈ entities s)); [|by case_decide]. rewrite lookup_alter.
  destruct (decide (entityId = i)) as [->|Hne]; [|done].
  destruct (entityComponents s !! i) as [m|]; [|done]. simpl. by rewrite lookup_delete_eq.
Qed.

(** The children of a transform are detached one by one. *)
Lemma detach_children_coherent fuel s entityId l sa :
  hierarchy_coherent s →
  (∀ c, c ∈ getChildren s entityId → c ∈ l) →
  for_each (λ acc childId,
              if hasEntity acc childId
              then fst <$> setParent fuel acc childId VNull
              else Some acc) s l = Some sa →
  hierarchy_coherent sa ∧ detaches s sa ∧ getChildren sa entityId = ∅.
Proof.
  intros Hs Hl Ea.
  apply (for_each_remaining
           (λ rest acc, hierarchy_coherent acc ∧ detaches s acc
                        ∧ ∀ c, c ∈ getChildren acc entityId → c ∈ rest)) in Ea.
  - destruct Ea as (? & ? & Hnil). split; [done|]. split; [done|].
    apply set_eq. intros c. split; [|set_solver]. by intros ?%Hnil%elem_of_nil.
  - intros acc x rest acc' (Hacc & Hdacc & Hrest) Hx.
    destruct (hasEntity acc x) eqn:Hlx.
    + destruct (setParent fuel acc x VNull) as [[s2 b2]|] eqn:E2; simplify_eq/=.
      destruct (setParent_null _ _ _ _ _ E2) as (Hd2 & Htrue & Hfalse).
      pose proof (setParent_coherent _ _ _ _ _ _ Hacc E2) as Hacc'.
      split; [done|]. split; [by eapply detaches_trans|].
      intros c Hc.
      assert (c ∈ getChildren acc entityId) as Hc0 by by apply (Hd2 entityId).
      apply Hrest in Hc0. apply elem_of_cons in Hc0 as [->|]; [|done].
      exfalso. destruct Hacc' as [_ Hdown]. specialize (Hdown _ _ Hc).
      destruct b2.
      * by rewrite Htrue in Hdown.
      * apply setParent_false_unchanged in E2 as ->. by rewrite Hfalse in Hdown.
    + simplify_eq. split; [done|]. split; [done|]. intros c Hc.
      specialize (Hrest c Hc). apply elem_of_cons in Hrest as [->|]; [|done].
      exfalso. destruct Hacc as [_ Hdown]. specialize (Hdown _ _ Hc).
      by rewrite getTransform_not_live in Hdown.
  - split; [done|]. split; [apply detaches_refl|done].
Qed.

(** removeComponent keeps parent fields and children sets in agreement:
    taking a transform away detaches its children and takes the entity out
    of its parent's children. *)
Lemma removeComponent_coherent fuel s entityId T s' b :
  hierarchy_coherent s →
  removeComponent fuel s entityId T = Some (s', b) →
  hierarchy_coherent s'.
Proof.
  intros Hs H. unfold removeComponent in H.
  destruct (blank T); [by simplify_eq|].
  destruct (negb (hasEntity s entityId)) eqn:Hlive; [by simplify_eq|].
  apply negb_false_iff in Hlive.
  destruct (entityComponents s !! entityId ≫= λ m, m !! T) as [component|] eqn:Hc;
    [|by simplify_eq].
  match type of H with (?m ≫= _) = _ => destruct m as [s1|] eqn:E1; [|done] end.
  simpl in H. injection H as <- <-.
  assert (∀ i, getTransform
                 (_removeComponentFromEntityMap entityId T
                    (set_entityComponents
                       (alter (delete T) entityId (entityComponents s1)) s1)) i
               = getTransform (unstore_component entityId T s1) i) as Hfinal
    by (intros i; by apply getTransform_ext).
  assert (getComponent s entityId T = Some component) as Hget
    by (unfold getComponent; by rewrite Hlive).
  case_bool_decide as HT.
  2:{ injection E1 as <-. apply (hierarchy_coherent_same_transforms s); [|done]. intros i.
      rewrite Hfinal. by apply getTransform_unstore_other. }
  subst T. destruct component as [t|cls fields].
  2:{ injection E1 as <-. apply (hierarchy_coherent_same_transforms s); [|done]. intros i.
      rewrite Hfinal, getTransform_unstore_transform. case_decide; [subst i|done].
      unfold getTransform. by rewrite Hget. }
  assert (getTransform s entityId = Some t) as Ht by (unfold getTransform; by rewrite Hget).
  match type of E1 with (?m ≫= _) = _ => destruct m as [sa|] eqn:Ea; [|done] end.
  simpl in E1. injection E1 as <-.
  apply (detach_children_coherent _ _ entityId) in Ea as (Hsa & _ & Hempty); [|done|].
  2:{ intros c Hin. apply elem_of_elements. unfold getChildren in Hin. by rewrite Ht in Hin. }
  set (s1 := match parent <$> getTransform sa entityId with
             | Some (VNum p) =>
               match getTransform sa p with
               | Some _ => _removeChild p entityId sa
               | None => sa
               end
             | _ => sa
             end) in *.
  assert (∀ i, parent <$> getTransform s1 i = parent <$> getTransform sa i) as Hparents.
  { intros i. unfold s1. destruct (parent <$> getTransform sa entityId) as [[| | |p| | |]|];
      try done.
    destruct (getTransform sa p); [|done]. unfold _removeChild.
    rewrite getTransform_modify_transform. case_decide; [|done].
    by destruct (getTransform sa i). }
  assert (∀ i, i ≠ entityId → getChildren s1 i = getChildren sa i ∖ {[entityId]}) as Hchildren.
  { intros i Hi. destruct Hsa as [_ Hdown]. specialize (Hdown i entityId).
    unfold s1. destruct (parent <$> getTransform sa entityId) as [v|] eqn:Hv.
    2:{ assert (entityId ∉ getChildren sa i) by (by intros ?%Hdown). set_solver. }
    destruct v as [| | |p| | |];
      try (assert (entityId ∉ getChildren sa i) by (by intros ?%Hdown); set_solver).
    destruct (decide (p = i)) as [->|Hpi].
    - destruct (getTransform sa i) as [ti|] eqn:Hti.
      + unfold _removeChild. rewrite getChildren_modify_transform, decide_True by done.
        unfold getChildren. by rewrite Hti.
      + unfold getChildren. rewrite Hti. set_solver.
    - assert (entityId ∉ getChildren sa i) by (intros ?%Hdown; congruence).
      destruct (getTransform sa p); [|set_solver].
      unfold _removeChild. rewrite getChildren_modify_transform.
      rewrite decide_False by done. set_solver. }
  apply (hierarchy_coherent_drop sa _ entityId); [done|done| | |].
  - rewrite Hfinal, getTransform_unstore_transform. by rewrite decide_True.
  - intros i Hi. rewrite Hfinal, getTransform_unstore_transform.
    rewrite decide_False by done. apply Hparents.
  - intros i Hi. rewrite <-(Hchildren i Hi). unfold getChildren.
    rewrite Hfinal, getTransform_unstore_transform. by rewrite decide_False.
Qed.

(** removeEntity keeps parent fields and children sets in agreement: the
    entity is detached from its parent, its children are removed with
    it. *)
Lemma removeEntity_coherent fuel s entityId s' b :
  hierarchy_coherent s →
  removeEntity fuel s entityId = Some (s', b) →
  hierarchy_coherent s' ∧ detaches s s'.
Proof.
  revert s entityId s' b. induction fuel as [|fuel IH]; intros s e s' b Hs H; [done|].
  simpl in H.
  destruct (negb (hasEntity s e)) eqn:Hlive;
    [simplify_eq; split; [done|apply detaches_refl]|].
  apply negb_false_iff in Hlive.
  match type of H with (?m ≫= _) = _ => destruct m as [s1|] eqn:E1; [|done] end.
  simpl in H. injection H as <- <-.
  match goal with |- hierarchy_coherent ?x ∧ _ => set (final := x) end.
  assert (∀ i, getTransform final i = if decide (e = i) then None else getTransform s1 i)
    as Hfinal.
  { intros i. unfold final, getTransform, getComponent, hasEntity. simpl.
    destruct (drop_from_index_fields e s1) as (_ & -> & ->).
    destruct (decide (e = i)) as [->|Hne].
    - rewrite bool_decide_eq_false_2 by set_solver. done.
    - rewrite lookup_delete_ne by done.
      by rewrite (bool_decide_ext (i ∈ entities s1 ∖ {[e]}) (i ∈ entities s1)) by set_solver. }
  destruct (getTransform s e) as [transform|] eqn:Ht.
  2:{ simplify_eq.
      assert (∀ i, getTransform final i = getTransform s1 i) as Hsame.
      { intros i. rewrite Hfinal. case_decide; [by subst|done]. }
      split; [by apply (hierarchy_coherent_same_transforms s1)|].
      apply (detaches_drop _ _ e); [by rewrite Hsame|]. intros i _. apply Hsame. }
  match type of E1 with (?m ≫= _) = _ => destruct m as [sa|] eqn:Ea; [|done] end.
  simpl in E1.
  match type of E1 with (?m ≫= _) = _ => destruct m as [sb|] eqn:Eb; [|done] end.
  simpl in E1. injection E1 as <-.
  (* detached from its parent *)
  assert (hierarchy_coherent sa ∧ detaches s sa
          ∧ ∀ t, getTransform sa e = Some t → parent t = VNull) as (Hsa & Hdsa & Hroot).
  { destruct (strict_eq (parent transform) VNull) eqn:Hpar; simpl in Ea.
    - simplify_eq. apply strict_eq_null in Hpar.
      split; [done|]. split; [apply detaches_refl|]. intros t ?. by simplify_eq.
    - destruct (setParent fuel s e VNull) as [[s2 b2]|] eqn:E2; simplify_eq/=.
      destruct (setParent_null _ _ _ _ _ E2) as (Hd2 & Htrue & Hfalse).
      split; [by eapply setParent_coherent|]. split; [done|].
      destruct b2; [|by rewrite Hfalse in Ht].
      intros t Ht'. specialize (Htrue eq_refl). rewrite Ht' in Htrue. simpl in Htrue.
      congruence. }
  (* the children are removed *)
  apply (for_each_remaining
           (λ rest acc, hierarchy_coherent acc ∧ detaches sa acc
                        ∧ ∀ c, c ∈ getChildren acc e → c ∈ rest)) in Eb.
  2:{ intros acc x rest acc' (Hacc & Hdacc & Hrest) Hx.
      destruct (hasEntity acc x) eqn:Hlx.
      - destruct (removeEntity fuel acc x) as [[s2 b2]|] eqn:E2; simplify_eq/=.
        destruct (IH _ _ _ _ Hacc E2) as [Hacc' Hd2].
        pose proof (removeEntity_result _ _ _ _ _ E2) as Hb2. rewrite Hlx in Hb2. subst b2.
        destruct (removeEntity_shrinks _ _ _ _ _ E2) as (_ & Hgone & _).
        specialize (Hgone eq_refl).
        split; [done|]. split; [by eapply detaches_trans|].
        intros c Hc.
        assert (c ∈ getChildren acc e) as Hc0 by by apply (Hd2 e).
        apply Hrest in Hc0. apply elem_of_cons in Hc0 as [->|]; [|done].
        exfalso. destruct Hacc' as [_ Hdown]. specialize (Hdown _ _ Hc).
        rewrite getTransform_not_live in Hdown; [done|]. by apply hasEntity_false.
      - simplify_eq. split; [done|]. split; [done|]. intros c Hc.
        specialize (Hrest c Hc). apply elem_of_cons in Hrest as [->|]; [|done].
        exfalso. destruct Hacc as [_ Hdown]. specialize (Hdown _ _ Hc).
        by rewrite getTransform_not_live in Hdown. }
  2:{ split; [done|]. split; [apply detaches_refl|]. intros c Hc. by apply elem_of_elements. }
  destruct Eb as (Hsb & Hdsb & Hnil).
  assert (getChildren sb e = ∅) as Hempty.
  { apply set_eq. intros c. split; [|set_solver]. by intros ?%Hnil%elem_of_nil. }
  assert (∀ i, i ≠ e → getTransform final i = getTransform sb i) as Hsame.
  { intros i Hi. rewrite Hfinal, decide_False by done. unfold _unlink.
    rewrite getTransform_modify_transform. by rewrite decide_False. }
  assert (getTransform final e = None) as Hgone by (rewrite Hfinal; by rewrite decide_True).
  split.
  - apply (hierarchy_coherent_drop sb _ e); [done|done|done| |].
    + intros i Hi. by rewrite Hsame.
    + intros i Hi. unfold getChildren at 1. rewrite (Hsame i Hi). fold (getChildren sb i).
      assert (e ∉ getChildren sb i); [|set_solver].
      intros Hin. destruct Hsb as [_ Hdown]. specialize (Hdown _ _ Hin).
      destruct (getTransform sb e) as [t'|] eqn:Ht'; [|done].
      destruct (proj2 (Hdsb e) t' Ht') as (t0 & Ht0 & Hpar).
      specialize (Hroot t0 Ht0). simpl in Hdown. destruct Hpar; congruence.
  - eapply detaches_trans; [exact Hdsa|]. eapply detaches_trans; [exact Hdsb|].
    by apply (detaches_drop _ _ e).
Qed.

(** ** The hierarchy invariant along deserialize *)

Lemma get_put_eq d k v : get (put d k v) k = v.
Proof.
  induction d as [|[k' x] d IH]; simpl.
  - by rewrite bool_decide_eq_true_2.
  - case_bool_decide as Hk; simpl.
    + by rewrite bool_decide_eq_true_2.
    + by rewrite bool_decide_eq_false_2.
Qed.

Lemma get_put_ne d k k' v : k ≠ k' → get (put d k v) k' = get d k'.
Proof.
  intros Hne. induction d as [|[k0 x] d IH]; simpl.
  - by rewrite bool_decide_eq_false_2.
  - case_bool_decide as Hk; simpl.
    + subst k0. by rewrite !bool_decide_eq_false_2.
    + by rewrite IH.
Qed.

Lemma get_del_ne d k k' : k ≠ k' → get (del d k) k' = get d k'.
Proof.
  intros Hne. unfold del, Data. induction d as [|[k0 x] d IH]; [done|].
  destruct (decide (k0 = k)) as [->|Hk].
  - rewrite filter_cons_False by (simpl; by intros ?). simpl.
    by rewrite bool_decide_eq_false_2.
  - rewrite filter_cons_True by done. simpl. by rewrite IH.
Qed.

(** The transform that the first pass builds from a document is a root
    without children, whatever the document says. *)
Lemma restored_transform_is_root data t :
  new_TransformComponent
    (del (if is_object (restore_data "transform" data)
          then entries (restore_data "transform" data) else []) "source") = Some t →
  parent t = VNull ∧ children t = ∅.
Proof.
  unfold restore_data. rewrite bool_decide_eq_true_2 by done.
  cbn [is_object entries]. rewrite del_put.
  unfold new_TransformComponent. intros H.
  destruct (array_field _ "position" _); [|done].
  destruct (array_field _ "rotation" _); [|done].
  destruct (array_field _ "scale" _); [|done]. simpl in H.
  rewrite (get_del_ne _ "source" "children"), get_put_eq in H by done.
  rewrite (get_del_ne _ "source" "parent"), (get_put_ne _ "children" "parent"),
    get_put_eq in H by done.
  simpl in H. by injection H as <-.
Qed.

(** What removeComponent does to the transforms. *)
Lemma removeComponent_transforms fuel s entityId T s' b :
  removeComponent fuel s entityId T = Some (s', b) →
  (T ≠ "transform" → ∀ i, getTransform s' i = getTransform s i)
  ∧ (T = "transform" → getTransform s' entityId = None).
Proof.
  intros H. unfold removeComponent in H.
  destruct (blank T) eqn:Hnamed.
  { simplify_eq. split; [done|]. intros ->. by vm_compute in Hnamed. }
  destruct (negb (hasEntity s entityId)) eqn:Hlive.
  { simplify_eq. split; [done|]. intros _. apply getTransform_not_live.
    by apply negb_true_iff. }
  apply negb_false_iff in Hlive.
  destruct (entityComponents s !! entityId ≫= λ m, m !! T) as [component|] eqn:Hc.
  2:{ simplify_eq. split; [done|]. intros ->. unfold getTransform, getComponent.
      by rewrite Hlive, Hc. }
  match type of H with (?m ≫= _) = _ => destruct m as [s1|] eqn:E1; [|done] end.
  simpl in H. injection H as <- <-.
  assert (∀ i, getTransform
                 (_removeComponentFromEntityMap entityId T
                    (set_entityComponents
                       (alter (delete T) entityId (entityComponents s1)) s1)) i
               = getTransform (unstore_component entityId T s1) i) as Hfinal
    by (intros i; by apply getTransform_ext).
  split.
  - intros HT i. rewrite bool_decide_eq_false_2 in E1 by done. injection E1 as <-.
    rewrite Hfinal. by apply getTransform_unstore_other.
  - intros ->. rewrite Hfinal, getTransform_unstore_transform. by rewrite decide_True.
Qed.

(** ** Invariants of the hierarchy along every call *)

(** A call that builds no transform from data naming a parent or children:
    the one path of addComponent that writes these fields without going
    through setParent. *)
Definition plain (s : Store) (op : Op) : Prop :=
  match op with
  | OpAddComponent reg entityId componentType data =>
    componentType = "transform" → getTransform s entityId = None →
    ∀ t, new_TransformComponent (del (if is_object data then entries data else []) "source")
           = Some t →
         parent t = VNull ∧ children t = ∅
  | _ => True
  end.

(** The stores reached from a new manager by such calls. *)
Inductive built_plainly : Store → Prop :=
| built_new : built_plainly new_store
| built_call fuel s op s' :
    built_plainly s → plain s op → store_after fuel s op = Some s' → built_plainly s'.

(** What it takes for a property of the transforms to hold after every
    such call: it holds of a new store, depends on the transforms only, and
    is kept by setParent, removeComponent, removeEntity and an addComponent
    that builds no transform with a parent or children of its own. *)
Section Invariant.
Variable P : Store → Prop.
Hypothesis P_new_store : P new_store.
Hypothesis P_same_transforms :
  ∀ s s', (∀ i, getTransform s' i = getTransform s i) → P s → P s'.
Hypothesis P_setParent :
  ∀ fuel s entityId newParentId s' b,
    P s → setParent fuel s entityId newParentId = Some (s', b) → P s'.
Hypothesis P_removeComponent :
  ∀ fuel s entityId T s' b, P s → removeComponent fuel s entityId T = Some (s', b) → P s'.
Hypothesis P_removeEntity :
  ∀ fuel s entityId s' b, P s → removeEntity fuel s entityId = Some (s', b) → P s'.
Hypothesis P_addComponent :
  ∀ fuel reg s entityId T data s' r,
    P s → addComponent fuel reg s entityId T data = Some (s', r) →
    (T = "transform" → getTransform s entityId = None →
     ∀ t, new_TransformComponent (del (if is_object data then entries data else []) "source")
            = Some t →
          parent t = VNull ∧ children t = ∅) →
    P s'.

Lemma _restoreSingleEntityBase_keeps fuel s id s' b :
  _restoreSingleEntityBase fuel s id = Some (s', b) →
  P s → P s'.
Proof.
  intros H Hs. unfold _restoreSingleEntityBase in H.
  destruct (hasEntity s id) eqn:Hlive.
  - match type of H with (?m ≫= _) = _ => destruct m as [s1|] eqn:E1; [|done] end.
    simpl in H. injection H as <- <-.
    assert (P s1 ∧ getTransform s1 id = None) as [Hs1 Hnone].
    { destruct (entityComponents s !! id) as [m|] eqn:Hm.
      2:{ injection E1 as <-. split; [done|]. unfold getTransform, getComponent.
          rewrite Hm. by destruct (hasEntity s id). }
      apply (for_each_remaining
               (λ rest acc, P acc
                            ∧ (is_Some (getTransform acc id) → "transform" ∈ rest))) in E1.
      - destruct E1 as [? Hnil]. split; [done|].
        destruct (getTransform s1 id) as [t|] eqn:E; [|done].
        exfalso. eapply elem_of_nil, Hnil. by eexists.
      - intros acc x rest acc' [Hacc Hrest] Hx.
        destruct (removeComponent fuel acc id x) as [[s2 b2]|] eqn:E2; simplify_eq/=.
        split; [by eapply P_removeComponent|].
        destruct (removeComponent_transforms _ _ _ _ _ _ E2) as [Hother Hthis].
        intros Hsome. destruct (decide (x = "transform")) as [->|Hne].
        + rewrite Hthis in Hsome by done. by destruct Hsome.
        + rewrite Hother in Hsome by done. apply Hrest in Hsome.
          apply elem_of_cons in Hsome as [?|?]; [congruence|done].
      - split; [done|]. intros [t Ht].
        apply getTransform_lookup in Ht as (_ & m' & Hm' & Hkey).
        assert (m' = m) as -> by congruence.
        apply list_elem_of_fmap. exists ("transform", CTransform t).
        split; [done|]. by apply elem_of_map_to_list. }
    apply (P_same_transforms s1); [|done]. intros i.
    destruct (decide (id = i)) as [->|Hne].
    + rewrite Hnone. unfold getTransform, getComponent, hasEntity. simpl.
      rewrite lookup_insert_eq. simpl. by destruct (bool_decide _).
    + unfold getTransform, getComponent, hasEntity. simpl.
      by rewrite lookup_insert_ne.
  - simplify_eq. apply (P_same_transforms s); [|done]. intros i.
    destruct (decide (id = i)) as [->|Hne].
    + rewrite (getTransform_not_live s i) by done.
      unfold getTransform, getComponent, hasEntity. simpl.
      rewrite lookup_insert_eq. simpl. by destruct (bool_decide _).
    + unfold getTransform, getComponent, hasEntity. simpl.
      rewrite lookup_insert_ne by done.
      by rewrite (bool_decide_ext (i ∈ {[id]} ∪ entities s) (i ∈ entities s)) by set_solver.
Qed.

Lemma restore_component_keeps fuel reg id acc kv s' n :
  restore_component fuel reg id acc kv = Some (s', n) →
  (∀ s0 n0, acc = Some (s0, n0) → P s0) → P s'.
Proof.
  intros H Hacc. unfold restore_component in H.
  destruct acc as [[s0 n0]|]; [|done]. specialize (Hacc _ _ eq_refl).
  destruct (negb (is_object kv.2)); [by simplify_eq|].
  destruct (negb (registry_has reg kv.1)); [by simplify_eq|].
  destruct (addComponent fuel reg s0 id kv.1 _) as [[s1 r]|] eqn:E; [|done].
  assert (P s1).
  { eapply P_addComponent; [exact Hacc|exact E|].
    intros HT _ t Ht. rewrite HT in Ht. by apply (restored_transform_is_root kv.2). }
  destruct r; by simplify_eq.
Qed.

Lemma _restoreEntityComponents_keeps fuel reg s id v s' b :
  _restoreEntityComponents fuel reg s id v = Some (s', b) →
  P s → P s'.
Proof.
  intros H Hs. unfold _restoreEntityComponents in H.
  destruct (negb (is_object v)); [by simplify_eq|].
  destruct (foldl _ _ _) as [[s1 n1]|] eqn:E; simplify_eq/=.
  revert E. generalize (entries v). intros l.
  assert (∀ s0 n0, Some (s, 0%nat) = Some (s0, n0) → P s0) as Hstart
    by (by intros ? ? [= <- <-]).
  revert Hstart. generalize (Some (s, 0%nat)).
  induction l as [|kv l IH]; intros acc Hacc E; simpl in E.
  - by eapply Hacc.
  - eapply IH; [|exact E]. intros s0 n0 E0.
    by eapply restore_component_keeps.
Qed.

Lemma restore_entity_keeps fuel reg p v p' :
  restore_entity fuel reg p v = Some p' →
  P (store p) → P (store p').
Proof.
  intros H Hs. unfold restore_entity in H.
  destruct (if truthy v then _ else _); simplify_eq/=; try done.
  destruct (_restoreSingleEntityBase fuel (store p) n) as [[s1 b1]|] eqn:E1; [|done].
  apply _restoreSingleEntityBase_keeps in E1; [|done].
  destruct b1; [|by simplify_eq].
  destruct (_restoreEntityComponents _ _ _ _ _) as [[s2 b2]|] eqn:E2; [|done].
  apply _restoreEntityComponents_keeps in E2; [|done].
  destruct b2; by simplify_eq.
Qed.

Lemma rebuild_parent_keeps fuel s restored id v s' e :
  rebuild_parent fuel s restored id v = Some (s', e) →
  P s → P s'.
Proof.
  unfold rebuild_parent. intros H Hs.
  repeat case_match; simplify_eq/=; try done;
    match goal with
    | H : _ <$> setParent _ _ _ _ = Some _ |- _ =>
      destruct (setParent fuel s id _) as [[? ?]|] eqn:E; simplify_eq/=;
        by eapply P_setParent
    end.
Qed.

Lemma rebuild_hierarchy_keeps fuel s items restored todo errors r :
  rebuild_hierarchy fuel s items restored todo errors = Some r →
  P s → P (left_by r).
Proof.
  revert s errors. induction todo as [|id todo IH]; intros s errors H Hs; simpl in H.
  - by simplify_eq.
  - destruct (find_entity items id) as [[v|]|]; [| |by simplify_eq].
    + destruct (rebuild_parent fuel s restored id v) as [[s1 e1]|] eqn:E1; [|done].
      eapply IH; [exact H|]. by eapply rebuild_parent_keeps.
    + by eapply IH.
Qed.

(** deserialize establishes the invariant whatever the document holds: the
    first pass builds roots, the second links them through setParent. *)
Lemma deserialize_keeps fuel reg s doc r :
  deserialize fuel reg s doc = Some r → P (left_by r).
Proof.
  unfold deserialize. intros H.
  assert (∀ s0, clear fuel s = Some s0 → P s0) as Hclear.
  { intros s0 ->%clear_returns_new_store. apply P_new_store. }
  destruct (clear fuel s) as [s0|] eqn:Ec;
    [specialize (Hclear s0 eq_refl)|by repeat case_match; simplify_eq/=].
  destruct doc as [[| | | | | |data]|]; simplify_eq/=; try done.
  destruct (get data "entities") as [| | | | |items|]; simplify_eq/=; try done.
  match type of H with (?m ≫= _) = _ => destruct m as [p|] eqn:Ep; [|done] end.
  simpl in H.
  assert (P (store p)) as Hp.
  { clear H. revert Ep.
    assert (∀ p0, Some {| store := s0; highestId := 0; restoredEntityIds := [];
                          success := true |} = Some p0 → P (store p0))
      as Hstart by (by intros ? [= <-]).
    revert Hstart. generalize (Some {| store := s0; highestId := 0;
                                       restoredEntityIds := []; success := true |}).
    induction items as [|v items IH]; intros acc Hacc E; simpl in E.
    - by apply Hacc.
    - eapply IH; [|exact E]. intros p0 E0.
      destruct acc as [p1|]; [|done]. simpl in E0.
      eapply restore_entity_keeps; [exact E0|]. by apply Hacc. }
  match type of H with (?m ≫= _) = _ => destruct m as [r2|] eqn:Er; [|done] end.
  simpl in H. apply rebuild_hierarchy_keeps in Er; [|done].
  destruct r2 as [s2 errs|s2].
  - destruct (skip_live _ _ _); simplify_eq/=.
    by apply (P_same_transforms s2).
  - by simplify_eq.
Qed.

Lemma store_after_keeps fuel s op s' :
  P s → plain s op → store_after fuel s op = Some s' →
  P s'.
Proof.
  destruct op; simpl; intros Hs Hplain H.
  - destruct (createEntity fuel s) as [r|] eqn:E; simplify_eq/=.
    apply (P_same_transforms s); [|done]. intros i. by eapply createEntity_getTransform.
  - destruct (removeEntity fuel s entityId) as [[? ?]|] eqn:E; simplify_eq/=.
    by eapply P_removeEntity.
  - destruct (addComponent fuel reg s entityId componentType data) as [[? ?]|] eqn:E;
      simplify_eq/=. by eapply P_addComponent.
  - destruct (removeComponent fuel s entityId componentType) as [[? ?]|] eqn:E;
      simplify_eq/=. by eapply P_removeComponent.
  - destruct (setParent fuel s entityId newParentId) as [[? ?]|] eqn:E; simplify_eq/=.
    by eapply P_setParent.
  - destruct (deserialize fuel reg s jsonOrObject) as [r|] eqn:E; simplify_eq/=.
    by apply (deserialize_keeps _ _ _ _ _ E).
  - apply clear_returns_new_store in H as ->. apply P_new_store.
Qed.


Lemma built_plainly_keeps s : built_plainly s → P s.
Proof.
  induction 1 as [|fuel s op s' _ IH Hplain H]; [apply P_new_store|].
  by eapply store_after_keeps.
Qed.

End Invariant.

(** Whatever createEntity, removeEntity, addComponent, removeComponent,
    setParent, deserialize and clear calls are made on a new manager, in
    any order and with any arguments, parent fields and children sets
    agree afterwards (an entity whose transform names a parent is among that
    parent's children, and every child listed names the listing entity as
    its parent), as long as no addComponent call builds a new transform
    from data that names a parent or children. *)
Theorem plain_calls_keep_parents_and_children_in_agreement s :
  built_plainly s →
  (∀ c t p, getTransform s c = Some t → parent t = VNum p → c ∈ getChildren s p)
  ∧ (∀ p c, c ∈ getChildren s p → parent <$> getTransform s c = Some (VNum p)).
Proof.
  intros Hs. change (hierarchy_coherent s). revert s Hs. apply built_plainly_keeps.
  - apply hierarchy_coherent_new_store.
  - apply hierarchy_coherent_same_transforms.
  - intros fuel s entityId newParentId s' b. apply setParent_coherent.
  - intros fuel s entityId T s' b. apply removeComponent_coherent.
  - intros fuel s entityId s' b Hs H. by apply (removeEntity_coherent _ _ _ _ _ Hs H).
  - intros fuel reg s entityId T data s' r. apply addComponent_coherent.
Qed.

(** [parent_and_child] without the transform of the parent. *)
Definition orphaned : Store := after (removeComponent 1 parent_and_child 1 "transform").

Lemma built_plainly_orphaned : built_plainly orphaned.
Proof.
  apply (built_call 1 parent_and_child (OpRemoveComponent 1 "transform")); [|done|reflexivity].
  apply (built_call 1 two_roots (OpSetParent 2 (VNum 1))); [|done|vm_compute; reflexivity].
  apply (built_call 1
           (after (addComponent 1 transform_only two_entities 1 "transform" (VObj [])))
           (OpAddComponent transform_only 2 "transform" (VObj [])) two_roots);
    [|by intros _ _ t [= <-]|vm_compute; reflexivity].
  apply (built_call 1 two_entities
           (OpAddComponent transform_only 1 "transform" (VObj [])));
    [|by intros _ _ t [= <-]|vm_compute; reflexivity].
  apply (built_call 1 (created (createEntity 1 new_store)) OpCreateEntity);
    [|done|vm_compute; reflexivity].
  apply (built_call 1 new_store OpCreateEntity); [|done|vm_compute; reflexivity].
  apply built_new.
Qed.

Lemma plain_calls_keep_parents_and_children_in_agreement_witness :
  ((∀ c t p, getTransform orphaned c = Some t → parent t = VNum p → c ∈ getChildren orphaned p)
   ∧ (∀ p c, c ∈ getChildren orphaned p → parent <$> getTransform orphaned c = Some (VNum p)))
  ∧ parent <$> getTransform parent_and_child 2 = Some (VNum 1)
  ∧ parent <$> getTransform orphaned 2 = Some VNull.
Proof.
  split; [|split; vm_compute; reflexivity].
  exact (plain_calls_keep_parents_and_children_in_agreement orphaned built_plainly_orphaned).
Defined.

(** ** No cycles *)

(** No entity is met when walking up from its own parent. *)
Definition acyclic (s : Store) : Prop :=
  ∀ q t, getTransform s q = Some t → ¬ ancestor_of s q (parent t).

(** No link is added: a transform has the parent it had before, or none. *)
Definition no_new_links (s s' : Store) : Prop :=
  ∀ i t', getTransform s' i = Some t' →
    parent t' = VNull ∨ ∃ t, getTransform s i = Some t ∧ parent t = parent t'.

Lemma no_new_links_refl s : no_new_links s s.
Proof. intros i t Ht. right. by exists t. Qed.

Lemma no_new_links_trans s1 s2 s3 :
  no_new_links s1 s2 → no_new_links s2 s3 → no_new_links s1 s3.
Proof.
  intros H12 H23 i t3 Ht3. destruct (H23 i t3 Ht3) as [?|(t2 & Ht2 & Hp2)]; [by left|].
  destruct (H12 i t2 Ht2) as [?|(t1 & Ht1 & Hp1)]; [left; congruence|].
  right. exists t1. split; [done|congruence].
Qed.

Lemma no_new_links_parents s s' :
  (∀ i, is_Some (getTransform s' i) →
        parent <$> getTransform s' i = parent <$> getTransform s i) →
  no_new_links s s'.
Proof.
  intros H i t' Ht'. right. specialize (H i). rewrite Ht' in H. simpl in H.
  destruct (getTransform s i) as [t|]; [|by discriminate H]. exists t. split; [done|].
  specialize (H (mk_is_Some _ _ eq_refl)). simpl in H. congruence.
Qed.

Lemma detaches_no_new_links s s' : detaches s s' → no_new_links s s'.
Proof.
  intros H i t' Ht'. destruct (proj2 (H i) t' Ht') as (t & Ht & [Hp|Hp]); [|by left].
  right. by exists t.
Qed.

Lemma ancestor_of_null s a : ¬ ancestor_of s a VNull.
Proof. by intros [p ?]%ancestor_of_number. Qed.

Lemma ancestor_of_no_new_links s s' a v :
  no_new_links s s' → ancestor_of s' a v → ancestor_of s a v.
Proof.
  intros Hs. induction 1 as [|v t' Ht' Hanc IH]; [constructor|].
  destruct v as [| | |i| | |]; try done. simpl in Ht'.
  destruct (Hs i t' Ht') as [Hnull|(t & Ht & Hpar)].
  - rewrite Hnull in Hanc. by apply ancestor_of_null in Hanc.
  - apply (ancestor_up _ _ (VNum i) t); [done|]. by rewrite Hpar.
Qed.

Lemma acyclic_no_new_links s s' : no_new_links s s' → acyclic s → acyclic s'.
Proof.
  intros Hlinks Hs q t' Ht' Hanc. destruct (Hlinks q t' Ht') as [Hnull|(t & Ht & Hpar)].
  - rewrite Hnull in Hanc. by apply ancestor_of_null in Hanc.
  - apply (Hs q t Ht). rewrite Hpar. by eapply ancestor_of_no_new_links.
Qed.

Lemma acyclic_new_store : acyclic new_store.
Proof. intros q t Ht. by apply getTransform_lookup in Ht as [?%elem_of_empty _]. Qed.

(** *** setParent *)

(** An accepted change of parent went through the ancestor walk. *)
Lemma setParent_checked fuel s entityId newParentId s' t :
  setParent fuel s entityId newParentId = Some (s', true) →
  getTransform s entityId = Some t → parent t ≠ newParentId →
  check_ancestors fuel s entityId newParentId = Some true.
Proof.
  unfold setParent. intros H Ht Hchange.
  destruct newParentId as [| | |p| | |]; try done.
  - apply check_ancestors_null.
  - destruct (negb (hasEntity s entityId)); [done|]. simpl in H.
    destruct (negb (hasEntity s p)); [done|]. simpl in H.
    destruct (Z.eqb_spec entityId p) as [|Hne]; [done|]. rewrite Ht in H.
    destruct (getTransform s p) as [tp|] eqn:Hp; [|done]. simpl in H.
    destruct (strict_eq (parent t) (VNum p)) eqn:Hsame.
    { by apply strict_eq_num in Hsame. }
    by destruct (check_ancestors fuel s entityId (VNum p)) as [[]|].
Qed.

(** A walk that reached [null] met nothing. *)
Lemma check_ancestors_clear fuel s a v :
  check_ancestors fuel s a v = Some true → ¬ ancestor_of s a v.
Proof.
  intros Hcheck Hanc. destruct (check_ancestors_meets _ _ _ Hanc) as [n Hn].
  apply (check_ancestors_mono fuel (fuel + n)) in Hcheck; [|lia].
  rewrite Hn in Hcheck by lia. done.
Qed.

Lemma ancestor_of_trans s a q v t :
  ancestor_of s q v → getTransform s q = Some t → ancestor_of s a (parent t) →
  ancestor_of s a v.
Proof.
  induction 1 as [|v t0 Ht0 Hanc IH]; intros Ht Ha.
  - by apply (ancestor_up _ _ (VNum q) t).
  - apply (ancestor_up _ _ v t0); [done|]. by apply IH.
Qed.

(** A walk in the store where [e] has the new parent [np] is a walk of the
    store before, or goes through [e] and on from [np]. *)
Lemma ancestor_of_relinked s s' e np a v :
  (∀ i, parent <$> getTransform s' i =
          if decide (e = i) then Some np else parent <$> getTransform s i) →
  ancestor_of s' a v →
  ancestor_of s a v ∨ (ancestor_of s e v ∧ ancestor_of s' a np).
Proof.
  intros Hparents. induction 1 as [|v t' Ht' Hanc IH]; [left; constructor|].
  destruct v as [| | |i| | |]; try done. simpl in Ht'.
  pose proof (Hparents i) as Hi. rewrite Ht' in Hi. simpl in Hi.
  destruct (decide (e = i)) as [<-|Hne].
  - injection Hi as Hi. right. split; [constructor|]. by rewrite <-Hi.
  - destruct (getTransform s i) as [t|] eqn:Ht; [|done]. simpl in Hi. injection Hi as Hi.
    destruct IH as [IH|[IH1 IH2]].
    + left. apply (ancestor_up _ _ (VNum i) t); [done|]. by rewrite <-Hi.
    + right. split; [|done]. apply (ancestor_up _ _ (VNum i) t); [done|]. by rewrite <-Hi.
Qed.

(** setParent builds no cycle. *)
Lemma setParent_acyclic fuel s entityId newParentId s' b :
  acyclic s → setParent fuel s entityId newParentId = Some (s', b) → acyclic s'.
Proof.
  intros Hs H. destruct b; [|by apply setParent_false_unchanged in H as ->].
  destruct (setParent_true _ _ _ _ _ H) as (t & Ht & _ & [[_ ->]|[Hchange _]]); [done|].
  destruct (setParent_effect _ _ _ _ _ _ H Ht Hchange) as [Hparents _].
  pose proof (check_ancestors_clear _ _ _ _ (setParent_checked _ _ _ _ _ _ H Ht Hchange))
    as Hclear.
  intros q t' Ht' Hanc.
  pose proof (Hparents q) as Hq. rewrite Ht' in Hq. simpl in Hq.
  destruct (ancestor_of_relinked _ _ _ _ _ _ Hparents Hanc) as [Hold|[He Hnp]].
  - destruct (decide (entityId = q)) as [<-|Hne].
    + injection Hq as Hq. by rewrite Hq in Hold.
    + destruct (getTransform s q) as [tq|] eqn:Htq; [|done]. injection Hq as Hq.
      apply (Hs q tq Htq). by rewrite <-Hq.
  - destruct (ancestor_of_relinked _ _ _ _ _ _ Hparents Hnp) as [Hqnp|[Hbad _]]; [|done].
    destruct (decide (entityId = q)) as [<-|Hne]; [done|].
    destruct (getTransform s q) as [tq|] eqn:Htq; [|done]. injection Hq as Hq.
    apply Hclear. apply (ancestor_of_trans s entityId q newParentId tq); [done|done|].
    by rewrite <-Hq.
Qed.

(** *** removeComponent and addComponent *)

Lemma removeComponent_no_new_links fuel s entityId T s' b :
  removeComponent fuel s entityId T = Some (s', b) → no_new_links s s'.
Proof.
  intros H. destruct (decide (T = "transform")) as [->|HT].
  2:{ apply removeComponent_transforms in H as [Hsame _].
      apply no_new_links_parents. intros i _. by rewrite Hsame. }
  unfold removeComponent in H.
  destruct (blank "transform"); [simplify_eq; apply no_new_links_refl|].
  destruct (negb (hasEntity s entityId)) eqn:Hlive; [simplify_eq; apply no_new_links_refl|].
  destruct (entityComponents s !! entityId ≫= λ m, m !! "transform") as [component|] eqn:Hc;
    [|simplify_eq; apply no_new_links_refl].
  match type of H with (?m ≫= _) = _ => destruct m as [s1|] eqn:E1; [|done] end.
  simpl in H. injection H as <- <-.
  assert (∀ i, getTransform
                 (_removeComponentFromEntityMap entityId "transform"
                    (set_entityComponents
                       (alter (delete "transform") entityId (entityComponents s1)) s1)) i
               = if decide (entityId = i) then None else getTransform s1 i) as Hfinal.
  { intros i. rewrite <-getTransform_unstore_transform. by apply getTransform_ext. }
  assert (no_new_links s s1) as Hs1.
  { rewrite bool_decide_eq_true_2 in E1 by done.
    destruct component as [t|cls fields]; [|injection E1 as <-; apply no_new_links_refl].
    match type of E1 with (?m ≫= _) = _ => destruct m as [sa|] eqn:Ea; [|done] end.
    simpl in E1. injection E1 as <-.
    apply (for_each_invariant (no_new_links s)) in Ea; [|
      |apply no_new_links_refl].
    2:{ intros acc x acc' Hacc Hx. destruct (hasEntity acc x); [|by simplify_eq].
        destruct (setParent fuel acc x VNull) as [[s2 b2]|] eqn:E2; simplify_eq/=.
        eapply no_new_links_trans; [exact Hacc|].
        by apply detaches_no_new_links, (setParent_null _ _ _ _ _ E2). }
    eapply no_new_links_trans; [exact Ea|]. apply no_new_links_parents. intros i _.
    destruct (parent <$> getTransform sa entityId) as [[| | |p| | |]|]; try done.
    destruct (getTransform sa p); [|done]. unfold _removeChild.
    rewrite getTransform_modify_transform. case_decide; [|done].
    by destruct (getTransform sa i). }
  eapply no_new_links_trans; [exact Hs1|]. apply no_new_links_parents.
  intros i [t' Ht']. rewrite Hfinal in Ht' |- *. by case_decide.
Qed.

(** What addComponent does to the links: none is added, but for the call
    of setParent that an update with a 'parent' field ends in. *)
Lemma addComponent_links fuel reg s entityId T data s' r :
  addComponent fuel reg s entityId T data = Some (s', r) →
  (T = "transform" → getTransform s entityId = None →
   ∀ t, new_TransformComponent (del (if is_object data then entries data else []) "source")
          = Some t →
        parent t = VNull ∧ children t = ∅) →
  no_new_links s s'
  ∨ ∃ s1 targetParent b,
      no_new_links s s1 ∧ setParent fuel s1 entityId targetParent = Some (s', b).
Proof.
  intros H Hguard. unfold addComponent in H.
  destruct (blank T); [simplify_eq; left; apply no_new_links_refl|].
  destruct (negb (hasEntity s entityId)) eqn:Hlive;
    [simplify_eq; left; apply no_new_links_refl|].
  destruct (registry_get reg T) as [ctor|] eqn:Hreg;
    [|simplify_eq; left; apply no_new_links_refl].
  destruct (getComponent s entityId T) as [[t|cls fields]|] eqn:Hold.
  - set (s1 := store_component entityId T
                 (CTransform (update_transform t
                    (del (if is_object data then entries data else []) "source"))) s) in H.
    assert (no_new_links s s1) as Hs1.
    { destruct (update_transform_hierarchy t
                  (del (if is_object data then entries data else []) "source")) as [Hp Hc].
      apply no_new_links_parents. intros i _. unfold s1.
      rewrite getTransform_store_component.
      destruct (decide (entityId = i ∧ T = "transform")) as [[<- ->]|Hne]; [|done].
      unfold getTransform. rewrite Hold.
      unfold getComponent in Hold. destruct (hasEntity s entityId); [|done].
      destruct (entityComponents s !! entityId); [|done]. simpl. by rewrite Hp. }
    destruct (target_parent _) as [targetParent|]; [|simplify_eq/=; by left].
    destruct (_ && _).
    + destruct (setParent fuel s1 entityId targetParent) as [[s2 b]|] eqn:Hset;
        simplify_eq/=. right. by exists s1, targetParent, b.
    + simplify_eq/=. by left.
  - left.
    assert (∀ f, no_new_links s (store_component entityId T (CUser cls f) s)) as Hstored.
    { intros f. apply no_new_links_parents. intros i _.
      rewrite getTransform_store_component.
      destruct (decide (entityId = i ∧ T = "transform")) as [[<- ->]|Hne]; [|done].
      unfold getTransform. rewrite Hold. by destruct (_ && _). }
    destruct (onUpdate cls _ _); simplify_eq/=; apply Hstored.
  - left. destruct ctor as [|cls].
    + apply registry_get_transform in Hreg as ->.
      assert (getTransform s entityId = None) as Hnone by (unfold getTransform; by rewrite Hold).
      destruct (new_TransformComponent _) as [t|] eqn:Hnew;
        [|simplify_eq; apply no_new_links_refl].
      injection H as <- _. intros i t' Ht'.
      rewrite (getTransform_ext
                 (store_component entityId "transform" (CTransform t) s)) in Ht' by done.
      rewrite getTransform_store_component in Ht'.
      destruct (decide (entityId = i)) as [->|Hne].
      * rewrite decide_True in Ht' by done. left.
        destruct (_ && _); simplify_eq. by apply (Hguard eq_refl Hnone).
      * rewrite decide_False in Ht' by (by intros [? _]). right. by exists t'.
    + apply registry_get_user in Hreg.
      destruct (construct cls _) as [f1|]; [|simplify_eq; apply no_new_links_refl].
      destruct (negb (extendsComponent cls)); [simplify_eq; apply no_new_links_refl|].
      apply no_new_links_parents. intros i _.
      destruct (onAdd cls entityId f1) as [f2|]; simplify_eq/=.
      * rewrite getTransform_store_other by done.
        rewrite (getTransform_ext (store_component entityId T (CUser cls f1) s)) by done.
        by rewrite getTransform_store_other.
      * rewrite (getTransform_ext
                   (unstore_component entityId T
                      (store_component entityId T (CUser cls f1) s))) by done.
        rewrite getTransform_unstore_other by done.
        by rewrite getTransform_store_other.
Qed.

(** *** Every call *)

(** Parent fields and children sets agree, and no walk up the parents
    comes back to where it started. *)
Definition forest (s : Store) : Prop := hierarchy_coherent s ∧ acyclic s.

Lemma built_plainly_forest s : built_plainly s → forest s.
Proof.
  apply built_plainly_keeps.
  - split; [apply hierarchy_coherent_new_store|apply acyclic_new_store].
  - intros s0 s' Hsame [Hc Ha]. split; [by apply (hierarchy_coherent_same_transforms s0)|].
    apply (acyclic_no_new_links s0); [|done]. apply no_new_links_parents. intros i _.
    by rewrite Hsame.
  - intros fuel s0 entityId newParentId s' b [Hc Ha] H.
    split; [by eapply setParent_coherent|by eapply setParent_acyclic].
  - intros fuel s0 entityId T s' b [Hc Ha] H. split; [by eapply removeComponent_coherent|].
    by eapply acyclic_no_new_links; [eapply removeComponent_no_new_links|].
  - intros fuel s0 entityId s' b [Hc Ha] H.
    destruct (removeEntity_coherent _ _ _ _ _ Hc H) as [Hc' Hdet].
    split; [done|]. by apply (acyclic_no_new_links s0); [apply detaches_no_new_links|].
  - intros fuel reg s0 entityId T data s' r [Hc Ha] H Hguard.
    split; [by eapply addComponent_coherent|].
    destruct (addComponent_links _ _ _ _ _ _ _ _ H Hguard)
      as [Hlinks|(s1 & targetParent & b & Hlinks & Hset)].
    + by apply (acyclic_no_new_links s0).
    + eapply setParent_acyclic; [|exact Hset]. by apply (acyclic_no_new_links s0).
Qed.

(** Whatever createEntity, removeEntity, addComponent, removeComponent,
    setParent, deserialize and clear calls are made on a new manager, the
    parent links form no cycle: walking up from the parent of an entity
    never comes back to that entity; in particular no entity is its own
    parent.  This holds as long as no addComponent call builds a new
    transform from data that names a parent or children. *)
Theorem plain_calls_build_no_cycle s :
  built_plainly s →
  (∀ q t, getTransform s q = Some t → ¬ ancestor_of s q (parent t))
  ∧ (∀ q t, getTransform s q = Some t → parent t ≠ VNum q).
Proof.
  intros [_ Hs]%built_plainly_forest. split; [exact Hs|].
  intros q t Ht Hself. apply (Hs q t Ht). rewrite Hself. constructor.
Qed.

Lemma plain_calls_build_no_cycle_witness :
  ((∀ q t, getTransform parent_and_child q = Some t →
           ¬ ancestor_of parent_and_child q (parent t))
   ∧ (∀ q t, getTransform parent_and_child q = Some t → parent t ≠ VNum q))
  ∧ parent <$> getTransform parent_and_child 2 = Some (VNum 1)
  ∧ parent <$> getTransform parent_and_child 1 = Some VNull.
Proof.
  split; [|split; vm_compute; reflexivity].
  apply plain_calls_build_no_cycle.
  apply (built_call 1 two_roots (OpSetParent 2 (VNum 1))); [|done|vm_compute; reflexivity].
  apply (built_call 1
           (after (addComponent 1 transform_only two_entities 1 "transform" (VObj [])))
           (OpAddComponent transform_only 2 "transform" (VObj [])) two_roots);
    [|by intros _ _ t [= <-]|vm_compute; reflexivity].
  apply (built_call 1 two_entities
           (OpAddComponent transform_only 1 "transform" (VObj [])));
    [|by intros _ _ t [= <-]|vm_compute; reflexivity].
  apply (built_call 1 (created (createEntity 1 new_store)) OpCreateEntity);
    [|done|vm_compute; reflexivity].
  apply (built_call 1 new_store OpCreateEntity); [|done|vm_compute; reflexivity].
  apply built_new.
Defined.

(** ** Every call returns *)

(** The parent links go down some rank of the entities. *)
Definition ranked_by (rank : Z → nat) (s : Store) : Prop :=
  ∀ q t p, getTransform s q = Some t → parent t = VNum p → (rank p < rank q)%nat.

Lemma ranked_by_no_new_links rank s s' :
  no_new_links s s' → ranked_by rank s → ranked_by rank s'.
Proof.
  intros Hl Hr q t' p Ht' Hp. destruct (Hl q t' Ht') as [Hn|(t & Ht & Hpar)]; [congruence|].
  apply (Hr q t p Ht). congruence.
Qed.

Lemma ranked_by_new_store rank : ranked_by rank new_store.
Proof. intros q t p Ht. by apply getTransform_lookup in Ht as [?%elem_of_empty _]. Qed.

Lemma check_ancestors_agree n m s entityId v b b' :
  check_ancestors n s entityId v = Some b → check_ancestors m s entityId v = Some b' →
  b = b'.
Proof.
  intros Hn Hm.
  apply (check_ancestors_mono n (n + m)) in Hn; [|lia].
  apply (check_ancestors_mono m (n + m)) in Hm; [|lia]. congruence.
Qed.

(** Whether the walk up from [q] meets [entityId], or breaks off. *)
Definition under (rank : Z → nat) (s : Store) (entityId q : Z) : bool :=
  match check_ancestors (rank q + 2) s entityId (VNum q) with
  | Some false => true
  | _ => false
  end.

Lemma under_parent rank s entityId q t p :
  ranked_by rank s → q ≠ entityId → getTransform s q = Some t → parent t = VNum p →
  under rank s entityId q = under rank s entityId p.
Proof.
  intros Hr Hne Ht Hp. unfold under.
  destruct (check_ancestors_ranked rank s entityId Hr (rank q + 2) q) as [b Hb]; [lia|].
  destruct (check_ancestors_ranked rank s entityId Hr (rank p + 2) p) as [b' Hb']; [lia|].
  rewrite Hb, Hb'. replace (rank q + 2)%nat with (S (rank q + 1)) in Hb by lia.
  simpl in Hb. destruct (Z.eqb_spec q entityId) as [|_]; [done|].
  rewrite Ht, Hp in Hb. by rewrite (check_ancestors_agree _ _ _ _ _ _ _ Hb Hb').
Qed.

(** setParent keeps the links going down a rank: the entity that gets a
    new parent is lifted above it, with everything under it. *)
Lemma setParent_ranked rank fuel s entityId newParentId s' b :
  ranked_by rank s → setParent fuel s entityId newParentId = Some (s', b) →
  ∃ rank', ranked_by rank' s'.
Proof.
  intros Hr H. destruct b; [|apply setParent_false_unchanged in H as ->; by exists rank].
  destruct (setParent_true _ _ _ _ _ H) as (t & Ht & Hnew & [[_ ->]|[Hchange _]]);
    [by exists rank|].
  destruct (setParent_effect _ _ _ _ _ _ H Ht Hchange) as [Hparents _].
  pose proof (setParent_checked _ _ _ _ _ _ H Ht Hchange) as Hcheck.
  destruct Hnew as [->|(p & -> & Hpe & Hp)].
  { exists rank. apply (ranked_by_no_new_links rank s); [|done].
    by apply detaches_no_new_links, (setParent_null _ _ _ _ _ H). }
  exists (λ q, if under rank s entityId q then (rank q + rank p + 1)%nat else rank q).
  assert (under rank s entityId entityId = true) as Hself.
  { unfold under. replace (rank entityId + 2)%nat with (S (rank entityId + 1)) by lia.
    simpl. by rewrite Z.eqb_refl. }
  assert (under rank s entityId p = false) as Hout.
  { unfold under.
    destruct (check_ancestors_ranked rank s entityId Hr (rank p + 2) p) as [b Hb]; [lia|].
    rewrite Hb. by rewrite (check_ancestors_agree _ _ _ _ _ _ _ Hb Hcheck). }
  intros q t' p' Ht' Hp'. pose proof (Hparents q) as Hq. rewrite Ht' in Hq. simpl in Hq.
  destruct (decide (entityId = q)) as [<-|Hne].
  - assert (p' = p) as -> by congruence. rewrite Hself, Hout. lia.
  - destruct (getTransform s q) as [tq|] eqn:Htq; [|done]. injection Hq as Hq.
    rewrite Hp' in Hq. symmetry in Hq.
    rewrite (under_parent rank s entityId q tq p' Hr) by done.
    specialize (Hr q tq p' Htq Hq). destruct (under rank s entityId p'); lia.
Qed.

Lemma setParent_returns rank M s :
  ranked_by rank s → (∀ i, i ∈ entities s → (rank i ≤ M)%nat) →
  ∀ fuel entityId newParentId,
    (M + 2 ≤ fuel)%nat → is_Some (setParent fuel s entityId newParentId).
Proof.
  intros Hr HM fuel entityId newParentId Hfuel. unfold setParent.
  destruct newParentId as [| | | p | | |]; try by eexists.
  - rewrite check_ancestors_null. repeat (case_match; try by eexists).
  - destruct (negb (hasEntity s entityId)); [by eexists|]. simpl.
    destruct (hasEntity s p) eqn:Hp; simpl; [|by eexists].
    apply hasEntity_true, HM in Hp.
    destruct (check_ancestors_ranked rank s entityId Hr fuel p) as [b Hb]; [lia|].
    rewrite Hb. simpl. destruct b; simpl; repeat (case_match; try by eexists).
Qed.

Lemma setParent_null_returns fuel s entityId : is_Some (setParent fuel s entityId VNull).
Proof.
  unfold setParent. rewrite check_ancestors_null. repeat (case_match; try by eexists).
Qed.

(** A loop whose body returns on every element returns. *)
Lemma for_each_returns {A} (Inv : Store → Prop) (Q : A → Prop)
    (body : Store → A → option Store) s l :
  (∀ acc x, Inv acc → Q x → ∃ acc', body acc x = Some acc' ∧ Inv acc') →
  Inv s → Forall Q l → ∃ s', for_each body s l = Some s' ∧ Inv s'.
Proof.
  intros Hbody Hs Hl. revert s Hs. induction Hl as [|x l Hx Hl IH]; intros s Hs; simpl.
  - by exists s.
  - destruct (Hbody s x Hs Hx) as (s1 & -> & Hs1). simpl. by apply IH.
Qed.

Lemma removeComponent_returns fuel s entityId T : is_Some (removeComponent fuel s entityId T).
Proof.
  unfold removeComponent. destruct (blank T); [by eexists|].
  destruct (negb (hasEntity s entityId)); [by eexists|].
  destruct (entityComponents s !! entityId ≫= λ m, m !! T) as [component|]; [|by eexists].
  destruct (bool_decide (T = "transform")); simpl; [|by eexists].
  destruct component as [t|cls fields]; simpl; [|by eexists].
  destruct (for_each_returns (λ _, True) (λ _ : Z, True)
              (λ acc childId,
                 if hasEntity acc childId
                 then fst <$> setParent fuel acc childId VNull
                 else Some acc) s (elements (children t))) as (sa & -> & _).
  - intros acc x _ _. destruct (hasEntity acc x); [|by exists acc].
    destruct (setParent_null_returns fuel acc x) as [[s2 b2] ->]. by exists s2.
  - done.
  - by apply Forall_true.
  - simpl. by eexists.
Qed.

Lemma removeEntity_returns rank M fuel : ∀ s entityId,
  hierarchy_coherent s → ranked_by rank s → (∀ i, i ∈ entities s → (rank i ≤ M)%nat) →
  (M - rank entityId < fuel)%nat → is_Some (removeEntity fuel s entityId).
Proof.
  induction fuel as [|fuel IH]; intros s e Hc Hr HM Hfuel; [lia|].
  simpl. destruct (negb (hasEntity s e)) eqn:Hlive; [by eexists|].
  apply negb_false_iff in Hlive.
  destruct (getTransform s e) as [t|] eqn:Ht; simpl; [|by eexists].
  assert (∃ sa, (if negb (strict_eq (parent t) VNull)
                 then fst <$> setParent fuel s e VNull else Some s) = Some sa
                ∧ hierarchy_coherent sa ∧ no_new_links s sa ∧ entities sa = entities s)
    as (sa & -> & Hca & Hla & Hea).
  { destruct (negb _).
    - destruct (setParent_null_returns fuel s e) as [[s2 b2] E2]. rewrite E2.
      exists s2. split; [done|]. split; [by eapply setParent_coherent|].
      split; [by apply detaches_no_new_links, (setParent_null _ _ _ _ _ E2)|].
      by apply setParent_same_shape in E2 as (_ & ? & _).
    - exists s. split; [done|]. split; [done|]. split; [apply no_new_links_refl|done]. }
  simpl.
  match goal with
  | |- context [for_each ?body sa ?l] =>
    destruct (for_each_returns
                (λ acc, hierarchy_coherent acc ∧ ranked_by rank acc
                        ∧ entities acc ⊆ entities s)
                (λ x, (rank e < rank x)%nat) body sa l) as (sb & -> & _)
  end.
  - intros acc x (Hcacc & Hracc & Hsub) Hx.
    destruct (hasEntity acc x) eqn:Hlx; [|by exists acc].
    assert (rank x ≤ M)%nat as HxM by (apply HM, Hsub; by apply hasEntity_true).
    destruct (IH acc x Hcacc Hracc) as [[s2 b2] E2];
      [intros i Hi; by apply HM, Hsub|lia|].
    rewrite E2. exists s2. split; [done|].
    destruct (removeEntity_coherent _ _ _ _ _ Hcacc E2) as [Hc2 Hd2].
    split; [done|].
    split; [apply (ranked_by_no_new_links rank acc); [by apply detaches_no_new_links|done]|].
    apply removeEntity_shrinks in E2 as [[_ ?] _]. set_solver.
  - split; [done|]. split; [by apply (ranked_by_no_new_links rank s)|]. by rewrite Hea.
  - apply Forall_forall. intros x Hx%elem_of_elements.
    destruct Hca as [_ Hdown]. specialize (Hdown _ _ Hx).
    destruct (getTransform sa x) as [tx|] eqn:Htx; [|done]. simpl in Hdown.
    injection Hdown as Hdown.
    by apply (ranked_by_no_new_links rank s sa Hla Hr x tx e).
  - simpl. by eexists.
Qed.

Lemma clear_returns rank M fuel s :
  hierarchy_coherent s → ranked_by rank s → (∀ i, i ∈ entities s → (rank i ≤ M)%nat) →
  (M < fuel)%nat → is_Some (clear fuel s).
Proof.
  intros Hc Hr HM Hfuel. unfold clear.
  match goal with
  | |- context [for_each ?body s ?l] =>
    destruct (for_each_returns
                (λ acc, hierarchy_coherent acc ∧ ranked_by rank acc
                        ∧ entities acc ⊆ entities s)
                (λ _, True) body s l) as (sb & -> & _)
  end.
  - intros acc x (Hcacc & Hracc & Hsub) _.
    destruct (removeEntity_returns rank M fuel acc x Hcacc Hracc) as [[s2 b2] E2];
      [intros i Hi; by apply HM, Hsub|lia|].
    rewrite E2. exists s2. split; [done|].
    destruct (removeEntity_coherent _ _ _ _ _ Hcacc E2) as [Hc2 Hd2].
    split; [done|].
    split; [apply (ranked_by_no_new_links rank acc); [by apply detaches_no_new_links|done]|].
    apply removeEntity_shrinks in E2 as [[_ ?] _]. set_solver.
  - done.
  - by apply Forall_true.
  - simpl. by eexists.
Qed.

Lemma addComponent_returns rank M fuel reg s entityId T data :
  ranked_by rank s → (∀ i, i ∈ entities s → (rank i ≤ M)%nat) → (M + 2 ≤ fuel)%nat →
  is_Some (addComponent fuel reg s entityId T data).
Proof.
  intros Hr HM Hfuel. unfold addComponent.
  destruct (blank T); [by eexists|].
  destruct (negb (hasEntity s entityId)); [by eexists|].
  destruct (registry_get reg T) as [ctor|]; [|by eexists].
  destruct (getComponent s entityId T) as [[t|cls fields]|] eqn:Hold;
    [|repeat (case_match; try by eexists)..].
  set (s1 := store_component entityId T
               (CTransform (update_transform t
                  (del (if is_object data then entries data else []) "source"))) s).
  assert (ranked_by rank s1) as Hr1.
  { apply (ranked_by_no_new_links rank s); [|done].
    destruct (update_transform_hierarchy t
                (del (if is_object data then entries data else []) "source")) as [Hp Hc].
    apply no_new_links_parents. intros i _. unfold s1.
    rewrite getTransform_store_component.
    destruct (decide (entityId = i ∧ T = "transform")) as [[<- ->]|Hne]; [|done].
    unfold getTransform. rewrite Hold.
    unfold getComponent in Hold. destruct (hasEntity s entityId); [|done].
    destruct (entityComponents s !! entityId); [|done]. simpl. by rewrite Hp. }
  destruct (target_parent _) as [targetParent|]; simpl; [|by eexists].
  destruct (_ && _); simpl; [|by eexists].
  destruct (setParent_returns rank M s1 Hr1 HM fuel entityId targetParent Hfuel)
    as [[s2 b2] ->].
  simpl. by eexists.
Qed.

(** The stores built by plain calls have their links going down a rank. *)
Lemma built_plainly_ranked s :
  built_plainly s → hierarchy_coherent s ∧ ∃ rank, ranked_by rank s.
Proof.
  apply (built_plainly_keeps (λ s, hierarchy_coherent s ∧ ∃ rank, ranked_by rank s)).
  - split; [apply hierarchy_coherent_new_store|]. exists (λ _, 0%nat).
    apply ranked_by_new_store.
  - intros s0 s' Hsame [Hc [rank Hr]].
    split; [by apply (hierarchy_coherent_same_transforms s0)|]. exists rank.
    apply (ranked_by_no_new_links rank s0); [|done]. apply no_new_links_parents.
    intros i _. by rewrite Hsame.
  - intros fuel s0 entityId newParentId s' b [Hc [rank Hr]] H.
    split; [by eapply setParent_coherent|by eapply setParent_ranked].
  - intros fuel s0 entityId T s' b [Hc [rank Hr]] H.
    split; [by eapply removeComponent_coherent|]. exists rank.
    by eapply ranked_by_no_new_links; [eapply removeComponent_no_new_links|].
  - intros fuel s0 entityId s' b [Hc [rank Hr]] H.
    destruct (removeEntity_coherent _ _ _ _ _ Hc H) as [Hc' Hdet].
    split; [done|]. exists rank.
    by apply (ranked_by_no_new_links rank s0); [apply detaches_no_new_links|].
  - intros fuel reg s0 entityId T data s' r [Hc [rank Hr]] H Hguard.
    split; [by eapply addComponent_coherent|].
    destruct (addComponent_links _ _ _ _ _ _ _ _ H Hguard)
      as [Hlinks|(s1 & targetParent & b & Hlinks & Hset)].
    + exists rank. by apply (ranked_by_no_new_links rank s0).
    + eapply setParent_ranked; [|exact Hset]. by apply (ranked_by_no_new_links rank s0).
Qed.

(** On a store built by createEntity, removeEntity, addComponent,
    removeComponent, setParent, deserialize and clear calls, none of which
    builds a new transform from data naming a parent or children, every
    createEntity, setParent, addComponent, removeComponent, removeEntity
    and clear call comes to an end (createEntity by returning an id or by
    throwing at the largest safe integer, the others by returning): no
    search for an id, no ancestor walk and no recursive removal goes on for
    ever. *)
Theorem plain_calls_leave_every_call_returning s :
  built_plainly s →
  ∃ n, ∀ fuel, (n ≤ fuel)%nat →
    is_Some (createEntity fuel s)
    ∧ (∀ entityId newParentId, is_Some (setParent fuel s entityId newParentId))
    ∧ (∀ reg entityId T data, is_Some (addComponent fuel reg s entityId T data))
    ∧ (∀ entityId T, is_Some (removeComponent fuel s entityId T))
    ∧ (∀ entityId, is_Some (removeEntity fuel s entityId))
    ∧ is_Some (clear fuel s).
Proof.
  intros (Hc & rank & Hr)%built_plainly_ranked.
  set (M := max_list (rank <$> elements (entities s))).
  assert (∀ i, i ∈ entities s → (rank i ≤ M)%nat) as HM.
  { intros i Hi. apply max_list_elem_of_le, list_elem_of_fmap. exists i.
    split; [done|]. by apply elem_of_elements. }
  exists (M + 2 + size (entities s))%nat. intros fuel Hfuel.
  split; [|split; [|split; [|split; [|split]]]].
  - unfold createEntity.
    destruct (next_free_enough (entities s) fuel (nextEntityId s)) as [r ->].
    { etrans; [|exact (Nat.le_trans _ _ _ (Nat.le_add_l _ _) Hfuel)].
      apply subseteq_size. intros x. rewrite elem_of_filter. tauto. }
    simpl. destruct r; by eexists.
  - intros entityId newParentId. apply (setParent_returns rank M); [done|done|lia].
  - intros reg entityId T data. apply (addComponent_returns rank M); [done|done|lia].
  - intros entityId T. apply removeComponent_returns.
  - intros entityId. apply (removeEntity_returns rank M); [done|done|done|lia].
  - apply (clear_returns rank M); [done|done|done|lia].
Qed.

Lemma plain_calls_leave_every_call_returning_witness :
  ∃ n, ∀ fuel, (n ≤ fuel)%nat →
    is_Some (createEntity fuel orphaned)
    ∧ (∀ entityId newParentId, is_Some (setParent fuel orphaned entityId newParentId))
    ∧ (∀ reg entityId T data, is_Some (addComponent fuel reg orphaned entityId T data))
    ∧ (∀ entityId T, is_Some (removeComponent fuel orphaned entityId T))
    ∧ (∀ entityId, is_Some (removeEntity fuel orphaned entityId))
    ∧ is_Some (clear fuel orphaned).
Proof. exact (plain_calls_leave_every_call_returning orphaned built_plainly_orphaned). Defined.

(** ** removeEntity on a store built by plain calls *)

Lemma built_plainly_reachable s : built_plainly s → reachable s.
Proof.
  induction 1 as [|fuel s op s' _ IH _ H]; [constructor|by eapply reachable_call].
Qed.

Lemma built_plainly_parent_and_child : built_plainly parent_and_child.
Proof.
  apply (built_call 1 two_roots (OpSetParent 2 (VNum 1))); [|done|vm_compute; reflexivity].
  apply (built_call 1
           (after (addComponent 1 transform_only two_entities 1 "transform" (VObj [])))
           (OpAddComponent transform_only 2 "transform" (VObj [])) two_roots);
    [|by intros _ _ t [= <-]|vm_compute; reflexivity].
  apply (built_call 1 two_entities
           (OpAddComponent transform_only 1 "transform" (VObj [])));
    [|by intros _ _ t [= <-]|vm_compute; reflexivity].
  apply (built_call 1 (created (createEntity 1 new_store)) OpCreateEntity);
    [|done|vm_compute; reflexivity].
  apply (built_call 1 new_store OpCreateEntity); [|done|vm_compute; reflexivity].
  apply built_new.
Qed.

(** On a store built from a new manager by calls none of which builds a
    new transform from data naming a parent or children, removeEntity
    comes to an end, the recursion into the children included, and returns
    whether the entity was live.  If it was not, the store is untouched.
    If it was, the entity is gone afterwards, it has no component and no
    index set lists it; the id counter is where it was, and no entity has
    appeared. *)
Theorem removeEntity_forgets_the_entity s entityId :
  built_plainly s →
  ∃ n, ∀ fuel, (n ≤ fuel)%nat →
    ∃ s', removeEntity fuel s entityId = Some (s', hasEntity s entityId)
          ∧ (hasEntity s entityId = false → s' = s)
          ∧ (hasEntity s entityId = true →
               hasEntity s' entityId = false
               ∧ (∀ T, hasComponent s' entityId T = false
                       ∧ (entityId ∉ getEntitiesWithComponent s' T))
               ∧ nextEntityId s' = nextEntityId s
               ∧ entities s' ⊆ entities s ∖ {[entityId]}).
Proof.
  intros Hbuilt.
  pose proof (reachable_consistent _ (built_plainly_reachable _ Hbuilt)) as Hs.
  destruct (built_plainly_ranked _ Hbuilt) as (Hc & rank & Hr).
  set (M := max_list (rank <$> elements (entities s))).
  assert (∀ i, i ∈ entities s → (rank i ≤ M)%nat) as HM.
  { intros i Hi. apply max_list_elem_of_le, list_elem_of_fmap. exists i.
    split; [done|]. by apply elem_of_elements. }
  exists (S M). intros fuel Hfuel.
  destruct (removeEntity_returns rank M fuel s entityId Hc Hr HM) as [[s' b] H]; [lia|].
  exists s'. rewrite <-(removeEntity_result _ _ _ _ _ H). split; [done|].
  destruct (removeEntity_shrinks _ _ _ _ _ H) as ([Hnext Hsub] & Hgone & Hsame).
  split; [done|]. intros ->. specialize (Hgone eq_refl).
  pose proof (removeEntity_consistent _ _ _ _ _ H Hs) as Hs'.
  assert (hasEntity s' entityId = false) as Hdead by by apply hasEntity_false.
  split; [done|]. split; [|split; [done|set_solver]].
  intros T. assert (hasComponent s' entityId T = false) as Hnone.
  { unfold hasComponent. by rewrite Hdead. }
  split; [done|]. rewrite (consistent_index_hasComponent s' T entityId Hs'). by rewrite Hnone.
Qed.

Lemma removeEntity_forgets_the_entity_witness :
  ∃ n, ∀ fuel, (n ≤ fuel)%nat →
    ∃ s', removeEntity fuel parent_and_child 1 = Some (s', true)
          ∧ hasEntity s' 1 = false
          ∧ hasComponent s' 1 "transform" = false
          ∧ nextEntityId s' = nextEntityId parent_and_child.
Proof.
  destruct (removeEntity_forgets_the_entity parent_and_child 1 built_plainly_parent_and_child)
    as [n Hn].
  exists n. intros fuel Hfuel. destruct (Hn fuel Hfuel) as (s' & H & _ & Hgone).
  exists s'. split; [exact H|].
  destruct (Hgone eq_refl) as (Hdead & Hcomponents & Hnext & _).
  split; [exact Hdead|]. split; [apply Hcomponents|exact Hnext].
Defined.

End EntityManagerProofs.

Module SystemManagerProofs.
Import SystemManager.
Section Proofs.
Context {World Err : Type}.
Implicit Types (m : Manager World Err) (w : World) (t : SystemTiming).

Lemma run_order_app m l1 l2 t w d :
  run_order m (l1 ++ l2) t w d =
    match thrown (run_order m l1 t w d) with
    | Some _ => run_order m l1 t w d
    | None => run_order m l2 t (world (run_order m l1 t w d)) (ran (run_order m l1 t w d))
    end.
Proof.
  revert w d. induction l1 as [|n l1 IH]; intros w d; simpl; [done|].
  destruct (runnable m n) as [sys|]; [|apply IH].
  destruct (run_callbacks sys t w); [apply IH|done].
Qed.

Lemma runnable_None m name :
  runnable m name = None ↔
    systems m !! name = None ∨ systemStates m !! name = None
    ∨ (∃ st, systemStates m !! name = Some st
             ∧ (isInitialized st = false ∨ isActive st = false)).
Proof.
  unfold runnable.
  destruct (systems m !! name) as [sys|]; [|by split; [left|]].
  destruct (systemStates m !! name) as [st|]; [|by split; [right; left|]].
  destruct (isInitialized st) eqn:E1, (isActive st) eqn:E2; simpl;
    (split;
     [ intros H; try discriminate; right; right; exists st; by auto
     | intros [H|[H|(st' & H & [H'|H'])]]; try discriminate; try done;
       injection H as <-; congruence ]).
Qed.

(** The loop reads the two maps only. *)
Lemma run_order_ext m m' l t w d :
  systems m = systems m' → systemStates m = systemStates m' →
  run_order m l t w d = run_order m' l t w d.
Proof.
  intros Hs Hst. revert w d.
  induction l as [|n l IH]; intros w d; simpl; [done|].
  unfold runnable. rewrite Hs, Hst.
  destruct (systems m' !! n) as [sys|]; [|apply IH].
  destruct (systemStates m' !! n) as [st|]; [|apply IH].
  destruct (_ || _); [apply IH|].
  destruct (run_callbacks sys t w); [apply IH|done].
Qed.

Lemma tick_order m t d w :
  deltaTime t = Some d →
  (tick m (Some t) w).2 = run_order m (executionOrder m) t w [].
Proof.
  intros Hd. unfold tick. rewrite Hd. simpl. by apply run_order_ext.
Qed.

(** [system.method?.(time)] came back: an absent method leaves the world
    as it was, a present one returned normally with [w1]. *)
Definition returned (cb : option (Callback World Err)) t w (w1 : World) : Prop :=
  match cb with
  | None => w1 = w
  | Some f => f t w = Returns w1
  end.

(** One of the three callbacks of [sys], entered on world [w] in the order
    of the source, throws [e] and leaves the world [w']: preUpdate; or
    update, preUpdate having come back; or postUpdate, both having come
    back. *)
Inductive callback_throws (sys : ISystem World Err) t w (w' : World) (e : Err) : Prop :=
| preUpdate_throws f :
    preUpdate sys = Some f → f t w = Throws w' e →
    callback_throws sys t w w' e
| update_throws g w1 :
    returned (preUpdate sys) t w w1 →
    update sys = Some g → g t w1 = Throws w' e →
    callback_throws sys t w w' e
| postUpdate_throws h w1 w2 :
    returned (preUpdate sys) t w w1 → returned (update sys) t w1 w2 →
    postUpdate sys = Some h → h t w2 = Throws w' e →
    callback_throws sys t w w' e.

Lemma returned_call cb t w w1 : returned cb t w w1 → call cb t w = Returns w1.
Proof. destruct cb as [f|]; simpl; [done|]. by intros ->. Qed.

Lemma callback_throws_run_callbacks sys t w w' e :
  callback_throws sys t w w' e → run_callbacks sys t w = Throws w' e.
Proof.
  unfold run_callbacks.
  intros [f Hf Hthrow|g w1 Hpre Hg Hthrow|h w1 w2 Hpre Hupd Hh Hthrow].
  - rewrite Hf. simpl. by rewrite Hthrow.
  - rewrite (returned_call _ _ _ _ Hpre), Hg. simpl. by rewrite Hthrow.
  - rewrite (returned_call _ _ _ _ Hpre), (returned_call _ _ _ _ Hupd), Hh.
    simpl. by rewrite Hthrow.
Qed.

(** C8: when the systems before [name] in the execution order have run
    without throwing and a callback of [name], a present, initialized and
    active system, throws [e] (its preUpdate, or its update after preUpdate
    came back, or its postUpdate after both came back), the tick re-throws
    [e], leaves the world as the throwing callback left it, and runs nothing
    after [name], whatever follows it in the order; and a name whose
    system or state is missing, or whose state is uninitialized or inactive,
    is passed over: the tick goes on with the rest of the order. *)
Theorem update_is_fail_fast_and_skips_idle_systems :
  (∀ m t d w before name after sys st w' e,
     deltaTime t = Some d →
     executionOrder m = before ++ name :: after →
     thrown (run_order m before t w []) = None →
     systems m !! name = Some sys →
     systemStates m !! name = Some st →
     isInitialized st = true → isActive st = true →
     callback_throws sys t (world (run_order m before t w [])) w' e →
     (tick m (Some t) w).2 =
       {| world := w'; ran := ran (run_order m before t w []) ++ [name];
          thrown := Some e; engineStopped := false |})
  ∧ (∀ m t w name rest done_,
       (systems m !! name = None ∨ systemStates m !! name = None
        ∨ (∃ st, systemStates m !! name = Some st
                 ∧ (isInitialized st = false ∨ isActive st = false))) →
       run_order m (name :: rest) t w done_ = run_order m rest t w done_).
Proof.
  split.
  - intros m t d w before name after sys st w' e Hd Hord Hbefore Hsys Hst Hi Ha Hthrow.
    rewrite (tick_order m t d w Hd), Hord, run_order_app, Hbefore. simpl.
    unfold runnable. rewrite Hsys, Hst, Hi, Ha. simpl.
    by rewrite (callback_throws_run_callbacks _ _ _ _ _ Hthrow).
  - intros m t w name rest done_ Hskip. simpl.
    by apply runnable_None in Hskip as ->.
Qed.

(** ** Which systems a tick runs *)

Lemma run_order_ran m l t w d :
  ∃ k, ran (run_order m l t w d) = d ++ k
       ∧ k `prefix_of` filter (λ n, is_Some (runnable m n)) l
       ∧ (thrown (run_order m l t w d) = None →
          k = filter (λ n, is_Some (runnable m n)) l).
Proof.
  revert w d. induction l as [|n l IH]; intros w d.
  - exists []. simpl. by rewrite app_nil_r.
  - simpl. destruct (runnable m n) as [sys|] eqn:Hn.
    + rewrite filter_cons_True by by rewrite Hn.
      destruct (run_callbacks sys t w) as [w'|w' e].
      * destruct (IH w' (d ++ [n])) as (k & Hk & Hpre & Hall).
        exists (n :: k). rewrite Hk, <-app_assoc. split; [done|].
        split; [by apply prefix_cons|]. intros H. by rewrite (Hall H).
      * exists [n]. simpl. split; [done|]. split; [|done].
        apply prefix_cons, prefix_nil.
    + rewrite filter_cons_False by (rewrite Hn; by intros [? ?]). apply IH.
Qed.

(** A tick with a valid time runs, in execution order, the systems that
    are registered, initialized and active, once for each time their name
    stands in the order, stopping at the first that throws.  It never
    stops the engine itself. *)
Theorem tick_runs_the_runnable_systems_in_order m t d w :
  deltaTime t = Some d →
  ran (tick m (Some t) w).2
    `prefix_of` filter (λ n, is_Some (runnable m n)) (executionOrder m)
  ∧ (thrown (tick m (Some t) w).2 = None →
     ran (tick m (Some t) w).2 = filter (λ n, is_Some (runnable m n)) (executionOrder m))
  ∧ engineStopped (tick m (Some t) w).2 = false.
Proof.
  intros Hd. rewrite (tick_order m t d w Hd).
  destruct (run_order_ran m (executionOrder m) t w []) as (k & Hk & Hpre & Hall).
  rewrite Hk. simpl. split; [done|]. split; [done|].
  clear. generalize (@nil string). revert w.
  induction (executionOrder m) as [|n l IH]; intros w acc; [done|]. simpl.
  destruct (runnable m n) as [sys|]; [|apply IH].
  destruct (run_callbacks sys t w); [apply IH|done].
Qed.

End Proofs.

(** A scheduler with an inactive system, a failing one and a third behind
    it; the world counts the callbacks that ran. *)
Definition counting : Callback nat string := λ _ w, Returns (S w).
Definition failing : Callback nat string := λ _ w, Throws w "Update Failed"%string.

Definition demo : Manager nat string :=
  {| systems := <["idle"%string := mkSystem None (Some counting) None]>
                (<["failUpdate"%string := mkSystem (Some counting) (Some failing) (Some counting)]>
                (<["sysA"%string := mkSystem None (Some counting) None]> ∅));
     systemStates := <["idle"%string := mkState true 0 false]>
                     (<["failUpdate"%string := mkState true 1 true]>
                     (<["sysA"%string := mkState true 10 true]> ∅));
     executionOrder := ["idle"; "failUpdate"; "sysA"]%string;
     _updateCounter := 0 |}.

(** Three systems that throw, one in each callback, the callbacks before
    the throwing one counting; and a scheduler that runs [first], passes
    over [idle], runs [bad] and has [last] behind it. *)
Definition failsInPreUpdate : ISystem nat string :=
  mkSystem (Some failing) (Some counting) (Some counting).
Definition failsInUpdate : ISystem nat string :=
  mkSystem (Some counting) (Some failing) (Some counting).
Definition failsInPostUpdate : ISystem nat string :=
  mkSystem (Some counting) (Some counting) (Some failing).

Definition demo_with (bad : ISystem nat string) : Manager nat string :=
  {| systems := <["first"%string := mkSystem None (Some counting) None]>
                (<["idle"%string := mkSystem None (Some counting) None]>
                (<["bad"%string := bad]>
                (<["last"%string := mkSystem None (Some counting) None]> ∅)));
     systemStates := <["first"%string := mkState true 0 true]>
                     (<["idle"%string := mkState true 1 false]>
                     (<["bad"%string := mkState true 2 true]>
                     (<["last"%string := mkState true 3 true]> ∅)));
     executionOrder := ["first"; "idle"; "bad"; "last"]%string;
     _updateCounter := 0 |}.

Lemma update_is_fail_fast_and_skips_idle_systems_witness :
  (tick (demo_with failsInPreUpdate) (Some (mkTiming (Some 16))) 0%nat).2 =
    {| world := 1%nat; ran := ["first"; "bad"]%string;
       thrown := Some "Update Failed"%string; engineStopped := false |}
  ∧ (tick (demo_with failsInUpdate) (Some (mkTiming (Some 16))) 0%nat).2 =
    {| world := 2%nat; ran := ["first"; "bad"]%string;
       thrown := Some "Update Failed"%string; engineStopped := false |}
  ∧ (tick (demo_with failsInPostUpdate) (Some (mkTiming (Some 16))) 0%nat).2 =
    {| world := 3%nat; ran := ["first"; "bad"]%string;
       thrown := Some "Update Failed"%string; engineStopped := false |}
  ∧ run_order demo ["idle"; "sysA"]%string (mkTiming (Some 16)) 0%nat []
    = run_order demo ["sysA"%string] (mkTiming (Some 16)) 0%nat [].
Proof.
  destruct (@update_is_fail_fast_and_skips_idle_systems nat string) as [Hfail Hskip].
  split; [|split; [|split]].
  - apply (Hfail (demo_with failsInPreUpdate) (mkTiming (Some 16)) 16 0%nat
             ["first"; "idle"]%string "bad"%string ["last"%string]
             failsInPreUpdate (mkState true 2 true) 1%nat "Update Failed"%string);
      try reflexivity.
    by apply (preUpdate_throws _ _ _ _ _ failing).
  - apply (Hfail (demo_with failsInUpdate) (mkTiming (Some 16)) 16 0%nat
             ["first"; "idle"]%string "bad"%string ["last"%string]
             failsInUpdate (mkState true 2 true) 2%nat "Update Failed"%string);
      try reflexivity.
    by apply (update_throws _ _ _ _ _ failing 2%nat).
  - apply (Hfail (demo_with failsInPostUpdate) (mkTiming (Some 16)) 16 0%nat
             ["first"; "idle"]%string "bad"%string ["last"%string]
             failsInPostUpdate (mkState true 2 true) 3%nat "Update Failed"%string);
      try reflexivity.
    by apply (postUpdate_throws _ _ _ _ _ failing 2%nat 3%nat).
  - apply Hskip. right. right. exists (mkState true 0 false).
    split; [reflexivity|]. right. reflexivity.
Defined.

Lemma tick_runs_the_runnable_systems_in_order_witness :
  ran (tick demo (Some (mkTiming (Some 16))) 0%nat).2
    `prefix_of` filter (λ n, is_Some (runnable demo n)) (executionOrder demo)
  ∧ engineStopped (tick demo (Some (mkTiming (Some 16))) 0%nat).2 = false.
Proof.
  destruct (@tick_runs_the_runnable_systems_in_order nat string demo
              (mkTiming (Some 16)) 16 0%nat eq_refl) as (Hprefix & _ & Hstop).
  split; [exact Hprefix|exact Hstop].
Defined.

End SystemManagerProofs.

Module SystemRegistryProofs.
Import SystemManager SystemRegistry.
Section Proofs.
Context {World Err : Type}.
Implicit Types (r : Registry World Err) (l : list (string * SystemState)).

(** ** The insertion-ordered maps *)

Lemma map_get_None {A : Type} (m : NameMap A) name :
  map_get m name = None ↔ name ∉ m.*1.
Proof.
  induction m as [|[k v] m IH]; simpl; [split; [by intros _ ?%elem_of_nil|done]|].
  case_bool_decide as Hk.
  - subst. split; [done|]. intros H. destruct H. left.
  - rewrite IH, not_elem_of_cons. naive_solver.
Qed.

Lemma map_get_Some_elem {A : Type} (m : NameMap A) name v :
  map_get m name = Some v → (name, v) ∈ m.
Proof.
  induction m as [|[k x] m IH]; simpl; [done|].
  case_bool_decide as Hk; [intros [= ->]; subst; left|right; auto].
Qed.

Lemma map_get_elem {A : Type} (m : NameMap A) name v :
  NoDup m.*1 → (name, v) ∈ m → map_get m name = Some v.
Proof.
  induction m as [|[k x] m IH]; [by intros _ ?%elem_of_nil|].
  rewrite fmap_cons. simpl. intros [Hk Hnodup]%NoDup_cons Hin.
  apply elem_of_cons in Hin as [[= <- <-]|Hin].
  - by rewrite bool_decide_eq_true_2.
  - rewrite bool_decide_eq_false_2; [by apply IH|].
    intros ->. apply Hk. apply list_elem_of_fmap. by exists (name, v).
Qed.

Lemma map_delete_keys {A : Type} (m : NameMap A) name k :
  k ∈ (map_delete m name).*1 ↔ k ∈ m.*1 ∧ k ≠ name.
Proof.
  unfold map_delete. rewrite !list_elem_of_fmap. split.
  - intros ([k' v] & -> & [Hne Hin]%list_elem_of_filter). split; [|done].
    by exists (k', v).
  - intros (([k' v] & -> & Hin) & Hne). exists (k', v). split; [done|].
    by apply list_elem_of_filter.
Qed.

Lemma map_delete_get {A : Type} (m : NameMap A) name : map_get (map_delete m name) name = None.
Proof. apply map_get_None. rewrite map_delete_keys. naive_solver. Qed.

Lemma map_delete_absent {A : Type} (m : NameMap A) name :
  map_get m name = None → map_delete m name = m.
Proof.
  unfold map_delete, NameMap. induction m as [|[k v] m IH]; simpl; [done|].
  case_bool_decide as Hk; [done|]. intros H.
  rewrite filter_cons_True by done. by rewrite IH.
Qed.

Lemma map_delete_set {A : Type} (m : NameMap A) name v :
  map_delete (map_set m name v) name = map_delete m name.
Proof.
  unfold map_delete, NameMap. induction m as [|[k x] m IH]; cbn [map_set].
  - rewrite filter_cons_False; [done|]. simpl. by intros ?.
  - case_bool_decide as Hk.
    + subst. rewrite !filter_cons_False; [done|simpl; by intros ?|simpl; by intros ?].
    + rewrite !filter_cons_True by done. by rewrite IH.
Qed.

Lemma map_delete_idemp {A : Type} (m : NameMap A) name :
  map_delete (map_delete m name) name = map_delete m name.
Proof. apply map_delete_absent, map_delete_get. Qed.

(** ** _sortSystems *)

Definition by_priority (a b : string * SystemState) : Prop := priority a.2 <= priority b.2.

Lemma insert_by_priority_Permutation x l : insert_by_priority x l ≡ₚ x :: l.
Proof.
  induction l as [|y l IH]; simpl; [done|].
  destruct (_ <=? _); [done|]. rewrite IH. apply Permutation_swap.
Qed.

Lemma sort_by_priority_Permutation l : sort_by_priority l ≡ₚ l.
Proof.
  induction l as [|x l IH]; simpl; [done|].
  by rewrite insert_by_priority_Permutation, IH.
Qed.

Lemma insert_by_priority_sorted x l :
  StronglySorted by_priority l → StronglySorted by_priority (insert_by_priority x l).
Proof.
  induction 1 as [|y l Hsorted IH Hy]; simpl.
  - by repeat constructor.
  - destruct (Z.leb_spec (priority x.2) (priority y.2)) as [Hle|Hgt].
    + constructor; [by constructor|]. constructor; [done|].
      eapply Forall_impl; [exact Hy|]. unfold by_priority. intros z ?. lia.
    + constructor; [done|]. rewrite insert_by_priority_Permutation.
      constructor; [unfold by_priority; lia|done].
Qed.

Lemma sort_by_priority_sorted l : StronglySorted by_priority (sort_by_priority l).
Proof.
  induction l as [|x l IH]; simpl; [constructor|]. by apply insert_by_priority_sorted.
Qed.

Lemma insert_by_priority_stable x l p :
  filter (λ a, priority a.2 = p) (insert_by_priority x l)
  = filter (λ a, priority a.2 = p) (x :: l).
Proof.
  induction l as [|y l IH]; simpl; [done|].
  destruct (Z.leb_spec (priority x.2) (priority y.2)) as [Hle|Hgt]; [done|].
  rewrite (filter_cons _ y), IH, !(filter_cons _ x), (filter_cons _ y).
  repeat case_decide; simplify_eq/=; done || lia.
Qed.

Lemma sort_by_priority_stable l p :
  filter (λ a, priority a.2 = p) (sort_by_priority l) = filter (λ a, priority a.2 = p) l.
Proof.
  induction l as [|x l IH]; simpl; [done|].
  by rewrite insert_by_priority_stable, !(filter_cons _ x), IH.
Qed.

(** _sortSystems makes the execution order the names of the states sorted
    by priority, lowest first: the same entries, in non-decreasing
    priority, those of equal priority in the order of registration. *)
Theorem sortSystems_orders_by_priority_stably r :
  order (_sortSystems r) = (sort_by_priority (statesMap r)).*1
  ∧ sort_by_priority (statesMap r) ≡ₚ statesMap r
  ∧ StronglySorted (λ a b, priority a.2 <= priority b.2) (sort_by_priority (statesMap r))
  ∧ ∀ p, filter (λ a, priority a.2 = p) (sort_by_priority (statesMap r))
         = filter (λ a, priority a.2 = p) (statesMap r).
Proof.
  split; [done|]. split; [apply sort_by_priority_Permutation|].
  split; [apply sort_by_priority_sorted|]. intros p. apply sort_by_priority_stable.
Qed.

(** ** Registration and the scheduler *)

Lemma list_to_map_get {A : Type} (m : NameMap A) name :
  (list_to_map m : gmap string A) !! name = map_get m name.
Proof.
  induction m as [|[k v] m IH]; simpl; [done|].
  case_bool_decide as Hk; [subst; by rewrite lookup_insert_eq|].
  by rewrite lookup_insert_ne.
Qed.

Lemma map_get_fmap {A B : Type} (f : A → B) (m : NameMap A) name :
  map_get (prod_map id f <$> m) name = f <$> map_get m name.
Proof.
  induction m as [|[k v] m IH]; simpl; [done|]. by case_bool_decide.
Qed.

Lemma map_get_set {A : Type} (m : NameMap A) name v k :
  map_get (map_set m name v) k = if bool_decide (name = k) then Some v else map_get m k.
Proof.
  induction m as [|[k' x] m IH]; simpl.
  - by case_bool_decide.
  - destruct (decide (k' = name)) as [->|Hne].
    + rewrite bool_decide_eq_true_2 by done. simpl. by case_bool_decide.
    + rewrite (bool_decide_eq_false_2 (k' = name)) by done. simpl. rewrite IH.
      repeat case_bool_decide; simplify_eq; done.
Qed.

Lemma runnable_manager_of r counter name :
  runnable (manager_of r counter) name =
    match map_get (systemsMap r) name, map_get (statesMap r) name with
    | Some sys, Some st =>
      if negb (isInitialized st) || negb (isActive st) then None else Some (methods sys)
    | _, _ => None
    end.
Proof.
  unfold runnable, manager_of. simpl.
  rewrite !list_to_map_get, map_get_fmap.
  by destruct (map_get (systemsMap r) name).
Qed.

Lemma ran_scheduled (m : Manager World Err) time w name :
  name ∈ ran (tick m time w).2 →
  name ∈ executionOrder m ∧ is_Some (runnable m name).
Proof.
  unfold tick. destruct time as [t|]; [|by intros ?%elem_of_nil].
  destruct (deltaTime t); [|by intros ?%elem_of_nil]. simpl.
  set (m' := {| systems := systems m; systemStates := systemStates m;
                executionOrder := executionOrder m;
                _updateCounter := _updateCounter m + 1 |}).
  destruct (SystemManagerProofs.run_order_ran m' (executionOrder m) t w [])
    as (k & -> & Hprefix & _).
  simpl. intros Hin. destruct Hprefix as [k' Hk'].
  assert (name ∈ filter (λ n, is_Some (runnable m' n)) (executionOrder m)) as Hf.
  { rewrite Hk'. apply elem_of_app. by left. }
  by apply list_elem_of_filter in Hf as [? ?].
Qed.

(** A registration whose [initialize] throws leaves no trace: the manager
    is as an unregister of the name leaves it (the previous registration
    under that name being replaced first), and as it was when the name was
    unknown. *)
Theorem failed_initialization_unregisters (name : string) (system : System World Err) r :
  Js.blank name = false →
  (is_Some (map_get (systemsMap r) name) →
   register_finish name false <$> register_begin name system r = Some (unregister name r))
  ∧ (map_get (systemsMap r) name = None → map_get (statesMap r) name = None →
     register_finish name false <$> register_begin name system r = Some r).
Proof.
  intros Hname. unfold register_begin. rewrite Hname. split.
  - intros [old Hold]. rewrite Hold. simpl. unfold unregister. rewrite Hold.
    unfold register_finish, _sortSystems. simpl.
    by rewrite !map_delete_set, !map_delete_idemp.
  - intros Hsys Hst. rewrite Hsys. simpl. unfold register_finish. simpl.
    rewrite !map_delete_set, !map_delete_absent by done. by destruct r.
Qed.

(** Once a registered system is unregistered its name is gone from the
    maps and from the execution order, and no tick runs it. *)
Theorem unregistered_system_never_runs (name : string) r :
  is_Some (map_get (systemsMap r) name) →
  map_get (systemsMap (unregister name r)) name = None
  ∧ map_get (statesMap (unregister name r)) name = None
  ∧ (name ∉ order (unregister name r))
  ∧ ∀ counter time w,
      name ∉ ran (tick (manager_of (unregister name r) counter) time w).2.
Proof.
  intros [old Hold]. unfold unregister. rewrite Hold. simpl.
  split; [apply map_delete_get|]. split; [apply map_delete_get|].
  assert (name ∉ (sort_by_priority (map_delete (statesMap r) name)).*1) as Hgone.
  { rewrite sort_by_priority_Permutation, map_delete_keys. naive_solver. }
  split; [done|]. intros counter time w Hran.
  by apply ran_scheduled in Hran as [Hin _].
Qed.

(** Deactivating an initialized system takes it, and it alone, out of the
    ticks; on a system whose initialization has not finished the call
    changes nothing. *)
Theorem setSystemActive_gates_the_system (name : string) r :
  (∀ st a, map_get (statesMap r) name = Some st → isInitialized st = false →
     setSystemActive name a r = r)
  ∧ (∀ st, map_get (statesMap r) name = Some st → isInitialized st = true →
       ∀ counter,
         (∀ time w,
            name ∉ ran (tick (manager_of (setSystemActive name (Some false) r) counter)
                          time w).2)
         ∧ ∀ n, n ≠ name →
             runnable (manager_of (setSystemActive name (Some false) r) counter) n
             = runnable (manager_of r counter) n).
Proof.
  split.
  - intros st a Hst Hinit. unfold setSystemActive. rewrite Hst, Hinit.
    by destruct a.
  - intros st Hst Hinit counter.
    assert (isActive <$> map_get (statesMap (setSystemActive name (Some false) r)) name
            = Some false) as Hoff.
    { unfold setSystemActive. rewrite Hst, Hinit. simpl.
      destruct (isActive st) eqn:Ha; simpl.
      - by rewrite map_get_set, bool_decide_eq_true_2.
      - rewrite Hst. simpl. by f_equal. }
    split.
    + intros time w Hran. apply ran_scheduled in Hran as [_ [sys Hsys]].
      rewrite runnable_manager_of in Hsys.
      destruct (map_get (systemsMap (setSystemActive name (Some false) r)) name); [|done].
      destruct (map_get (statesMap (setSystemActive name (Some false) r)) name) as [st'|];
        [|done].
      simpl in Hoff. injection Hoff as Hoff. rewrite Hoff in Hsys.
      by rewrite orb_true_r in Hsys.
    + intros n Hn. rewrite !runnable_manager_of.
      unfold setSystemActive. rewrite Hst, Hinit. simpl.
      destruct (Bool.eqb (isActive st) false); [done|]. simpl.
      by rewrite map_get_set, bool_decide_eq_false_2 by done.
Qed.

Lemma StronglySorted_filter_names (R : string → string → Prop) (P : string → Prop)
    `{!∀ n, Decision (P n)} (l : list string) :
  StronglySorted R l → StronglySorted R (filter P l).
Proof.
  induction 1 as [|x l Hsorted IH Hx]; [constructor|].
  rewrite filter_cons. case_decide; [|done].
  constructor; [done|]. apply Forall_forall. intros y [_ Hy]%list_elem_of_filter.
  rewrite Forall_forall in Hx. by apply Hx.
Qed.

(** After _sortSystems (the last step of a successful register, of
    unregister and of an effective setPriority) every tick runs the systems
    by non-decreasing priority. *)
Theorem ticks_follow_the_priorities r :
  NoDup (statesMap r).*1 →
  ∀ counter time w,
    StronglySorted
      (λ a b, ∀ sa sb, map_get (statesMap r) a = Some sa → map_get (statesMap r) b = Some sb →
                       priority sa <= priority sb)
      (ran (tick (manager_of (_sortSystems r) counter) time w).2).
Proof.
  intros Hnodup counter time w.
  assert (StronglySorted
            (λ a b, ∀ sa sb, map_get (statesMap r) a = Some sa →
                             map_get (statesMap r) b = Some sb → priority sa <= priority sb)
            (sort_by_priority (statesMap r)).*1) as Hnames.
  { assert (∀ x, x ∈ sort_by_priority (statesMap r) → map_get (statesMap r) x.1 = Some x.2)
      as Hget.
    { intros [a sa] Hin. apply map_get_elem; [done|].
      by rewrite sort_by_priority_Permutation in Hin. }
    revert Hget. generalize (sort_by_priority_sorted (statesMap r)).
    generalize (sort_by_priority (statesMap r)).
    induction 1 as [|x l Hsorted IH Hx]; intros Hget; [constructor|].
    rewrite fmap_cons. constructor.
    - apply IH. intros y Hy. apply Hget. by right.
    - apply Forall_fmap, Forall_forall. intros y Hy sa sb Ha Hb. simpl in *.
      rewrite Forall_forall in Hx. specialize (Hx y Hy). unfold by_priority in Hx.
      rewrite (Hget x) in Ha by left. rewrite (Hget y) in Hb by by right.
      by simplify_eq. }
  unfold tick. destruct time as [t|]; [|constructor].
  destruct (deltaTime t); [|constructor]. simpl.
  match goal with
  | |- context [run_order ?m ?l t w []] =>
    destruct (SystemManagerProofs.run_order_ran m l t w []) as (k & -> & [k' Hk'] & _)
  end.
  simpl. eapply StronglySorted_app_1_l. rewrite <-Hk'.
  by apply StronglySorted_filter_names.
Qed.


(** ** The registry between calls *)

Lemma map_set_keys {A : Type} (m : NameMap A) name v :
  (map_set m name v).*1 = if bool_decide (name ∈ m.*1) then m.*1 else m.*1 ++ [name].
Proof.
  induction m as [|[k x] m IH]; [done|].
  cbn [map_set]. rewrite (fmap_cons fst (k, x)). cbn [fst].
  destruct (decide (k = name)) as [->|Hk].
  - rewrite (bool_decide_eq_true_2 (name = name)) by done.
    rewrite fmap_cons. cbn [fst]. by rewrite bool_decide_eq_true_2 by left.
  - rewrite (bool_decide_eq_false_2 (k = name)) by done.
    rewrite fmap_cons, IH. cbn [fst]. destruct (decide (name ∈ m.*1)) as [Hin|Hout].
    + by rewrite !bool_decide_eq_true_2 by (done || by right).
    + rewrite !bool_decide_eq_false_2; [done| |done].
      rewrite not_elem_of_cons. by split; [intros ->|].
Qed.

Lemma map_delete_fst {A : Type} (m : NameMap A) name :
  (map_delete m name).*1 = filter (λ k, k ≠ name) m.*1.
Proof.
  unfold map_delete, NameMap. induction m as [|[k x] m IH]; [done|].
  rewrite fmap_cons. simpl. destruct (decide (k = name)) as [->|Hne].
  - by rewrite !filter_cons_False by (simpl; by intros ?).
  - rewrite !filter_cons_True by done. by rewrite fmap_cons, IH.
Qed.

Lemma map_set_set {A : Type} (m : NameMap A) name a b :
  map_set (map_set m name a) name b = map_set m name b.
Proof.
  induction m as [|[k x] m IH]; simpl.
  - by rewrite bool_decide_eq_true_2.
  - case_bool_decide; simpl.
    + by rewrite bool_decide_eq_true_2.
    + rewrite bool_decide_eq_false_2 by done. by rewrite IH.
Qed.

Lemma map_set_elem {A : Type} (m : NameMap A) name v k x :
  (k, x) ∈ map_set m name v → (k, x) ∈ m ∨ (k = name ∧ x = v).
Proof.
  induction m as [|[k' x'] m IH]; simpl.
  - intros [[= -> ->]|?%elem_of_nil]%elem_of_cons; [by right|done].
  - case_bool_decide as Hk.
    + intros [[= -> ->]|?]%elem_of_cons; [by right|]. left. by right.
    + intros [[= -> ->]|?]%elem_of_cons; [left; left|].
      destruct IH as [?|?]; [done|left; by right|by right].
Qed.

Lemma map_delete_elem {A : Type} (m : NameMap A) name k x :
  (k, x) ∈ map_delete m name → (k, x) ∈ m.
Proof. unfold map_delete. by intros [_ ?]%list_elem_of_filter. Qed.

(** The sorted names depend on the names and the priorities only. *)
Definition same_rank (a b : string * SystemState) : Prop :=
  a.1 = b.1 ∧ priority a.2 = priority b.2.

Lemma insert_by_priority_same_rank x x' l l' :
  same_rank x x' → Forall2 same_rank l l' →
  Forall2 same_rank (insert_by_priority x l) (insert_by_priority x' l').
Proof.
  intros Hx Hl. induction Hl as [|y y' l l' Hy Hl IH]; simpl.
  - constructor; [done|constructor].
  - rewrite <-(proj2 Hx), <-(proj2 Hy).
    destruct (_ <=? _); (constructor; [done|]); [by constructor|exact IH].
Qed.

Lemma sort_by_priority_same_rank l l' :
  Forall2 same_rank l l' → (sort_by_priority l).*1 = (sort_by_priority l').*1.
Proof.
  intros H.
  assert (Forall2 same_rank (sort_by_priority l) (sort_by_priority l')) as Hsorted.
  { induction H; simpl; [constructor|]. by apply insert_by_priority_same_rank. }
  induction Hsorted as [|x y ? ? [Hxy _] _ IH]; [done|].
  rewrite !fmap_cons. by rewrite Hxy, IH.
Qed.

Lemma map_set_same_rank (m : NameMap SystemState) name st st' :
  map_get m name = Some st → priority st' = priority st →
  Forall2 same_rank (map_set m name st') m.
Proof.
  intros Hget Hp. induction m as [|[k x] m IH]; simpl in *; [done|].
  case_bool_decide as Hk.
  - injection Hget as ->. constructor; [done|].
    clear. induction m; by constructor.
  - constructor; [done|]. by apply IH.
Qed.

(** [register] is async: it runs up to [await system.initialize(...)]
    ([StepRegister]) and goes on once initialize has returned or thrown
    ([StepInitialized]).  While it waits, anything else can be called on
    the manager, another register included; the other methods are
    synchronous and are one step each. *)
Inductive RegistryStep :=
| StepRegister (name : string) (system : System World Err)
| StepInitialized (name : string) (ok : bool)
| StepUnregister (name : string)
| StepSetPriority (name : string) (p : option Z)
| StepSetSystemActive (name : string) (a : option bool).

Definition after_step r (s : RegistryStep) : Registry World Err :=
  match s with
  | StepRegister name system => default r (register_begin name system r)
  | StepInitialized name ok => register_finish name ok r
  | StepUnregister name => unregister name r
  | StepSetPriority name p => setPriority name p r
  | StepSetSystemActive name a => setSystemActive name a r
  end.

(** The manager after the given steps, in any interleaving, on a new
    manager.  A [StepInitialized] is taken whether or not a register of
    that name is waiting, which only adds runs to those of the source. *)
Definition registry_after (steps : list RegistryStep) : Registry World Err :=
  foldl after_step new_registry steps.

(** One call on the manager that is run to its end before anything else is
    called; for [register], whether [initialize] returned or threw. *)
Inductive RegistryCall :=
| CallRegister (name : string) (system : System World Err) (initialized : bool)
| CallUnregister (name : string)
| CallSetPriority (name : string) (p : option Z)
| CallSetSystemActive (name : string) (a : option bool).

(** The steps of such a call: the two halves of a register follow each
    other with nothing in between; a register whose name is rejected has
    no second half. *)
Definition steps_of (c : RegistryCall) : list RegistryStep :=
  match c with
  | CallRegister name system initialized =>
    if Js.blank name then [StepRegister name system]
    else [StepRegister name system; StepInitialized name initialized]
  | CallUnregister name => [StepUnregister name]
  | CallSetPriority name p => [StepSetPriority name p]
  | CallSetSystemActive name a => [StepSetSystemActive name a]
  end.

Definition awaited (calls : list RegistryCall) : list RegistryStep :=
  concat (steps_of <$> calls).

(** A system whose state is there and marked initialized. *)
Definition ready r (name : string) : bool :=
  match map_get (statesMap r) name with
  | Some st => isInitialized st
  | None => false
  end.

(** What holds of the registry whenever no call is under way. *)
Record settled r : Prop := mkSettled {
  settled_keys : (systemsMap r).*1 = (statesMap r).*1;
  settled_NoDup : NoDup (statesMap r).*1;
  settled_initialized : ∀ name st, (name, st) ∈ statesMap r → isInitialized st = true;
  settled_order : order r = (sort_by_priority (statesMap r)).*1
}.

Lemma settled_new : settled new_registry.
Proof. split; try done; [constructor|by intros ? ? ?%elem_of_nil]. Qed.

Lemma settled_sortSystems r :
  (systemsMap r).*1 = (statesMap r).*1 → NoDup (statesMap r).*1 →
  (∀ name st, (name, st) ∈ statesMap r → isInitialized st = true) →
  settled (_sortSystems r).
Proof. by split. Qed.

Lemma settled_unregister name r : settled r → settled (unregister name r).
Proof.
  intros [Hkeys Hnodup Hinit Horder]. unfold unregister.
  destruct (map_get (systemsMap r) name); [|done].
  apply settled_sortSystems; simpl.
  - by rewrite !map_delete_fst, Hkeys.
  - rewrite map_delete_fst. by apply NoDup_filter.
  - intros k st ?%map_delete_elem. by eapply Hinit.
Qed.

Lemma settled_absent name r :
  settled r → map_get (systemsMap r) name = None → map_get (statesMap r) name = None.
Proof. intros [Hkeys _ _ _]. rewrite !map_get_None. by rewrite Hkeys. Qed.

Lemma settled_register name system initialized r r1 :
  settled r → register_begin name system r = Some r1 →
  settled (register_finish name initialized r1).
Proof.
  intros Hr. unfold register_begin. destruct (Js.blank name); [done|]. intros [= <-].
  set (r0 := match map_get (systemsMap r) name with
             | Some _ => unregister name r
             | None => r
             end).
  assert (settled r0 ∧ map_get (systemsMap r0) name = None) as [Hr0 Hsys].
  { unfold r0. destruct (map_get (systemsMap r) name) as [old|] eqn:Hold; [|done].
    split; [by apply settled_unregister|].
    unfold unregister. rewrite Hold. simpl. apply map_delete_get. }
  pose proof (settled_absent _ _ Hr0 Hsys) as Hst.
  destruct Hr0 as [Hkeys Hnodup Hinit Horder].
  unfold register_finish. simpl. destruct initialized.
  - rewrite map_get_set, bool_decide_eq_true_2 by done. rewrite map_set_set.
    apply settled_sortSystems; simpl.
    + rewrite !map_set_keys, Hkeys. done.
    + rewrite map_set_keys. apply map_get_None in Hst.
      rewrite bool_decide_eq_false_2 by done.
      apply NoDup_app. split; [done|]. split; [|apply NoDup_singleton].
      intros k Hk ->%list_elem_of_singleton. done.
    + intros k st [?|[-> ->]]%map_set_elem; [by eapply Hinit|done].
  - rewrite !map_delete_set, !map_delete_absent by done. by split.
Qed.

Lemma settled_setPriority name p r : settled r → settled (setPriority name p r).
Proof.
  intros Hr. unfold setPriority.
  destruct (map_get (statesMap r) name) as [st|] eqn:Hst; [|done].
  destruct p as [v|]; [|done]. destruct (priority st =? v); [done|].
  destruct Hr as [Hkeys Hnodup Hinit Horder].
  assert (name ∈ (statesMap r).*1) as Hin
    by (apply dec_stable; intros Hout; apply map_get_None in Hout; congruence).
  apply settled_sortSystems; simpl.
  - by rewrite map_set_keys, bool_decide_eq_true_2.
  - by rewrite map_set_keys, bool_decide_eq_true_2.
  - intros k st' [?|[-> ->]]%map_set_elem; [by eapply Hinit|]. simpl.
    apply (Hinit name). by apply map_get_Some_elem.
Qed.

Lemma settled_setSystemActive name a r : settled r → settled (setSystemActive name a r).
Proof.
  intros Hr. unfold setSystemActive. destruct a as [v|]; [|done].
  destruct (map_get (statesMap r) name) as [st|] eqn:Hst; [|done].
  destruct (negb (isInitialized st)); [done|]. destruct (Bool.eqb _ _); [done|].
  destruct Hr as [Hkeys Hnodup Hinit Horder].
  assert (name ∈ (statesMap r).*1) as Hin
    by (apply dec_stable; intros Hout; apply map_get_None in Hout; congruence).
  split; simpl.
  - by rewrite map_set_keys, bool_decide_eq_true_2.
  - by rewrite map_set_keys, bool_decide_eq_true_2.
  - intros k st' [?|[-> ->]]%map_set_elem; [by eapply Hinit|]. simpl.
    apply (Hinit name). by apply map_get_Some_elem.
  - rewrite Horder. symmetry. apply sort_by_priority_same_rank.
    by apply (map_set_same_rank _ _ st).
Qed.

Lemma settled_steps_of r c : settled r → settled (foldl after_step r (steps_of c)).
Proof.
  intros Hr. destruct c; simpl.
  - destruct (Js.blank name) eqn:Hname; simpl.
    + unfold register_begin. by rewrite Hname.
    + destruct (register_begin name system r) as [r1|] eqn:E.
      * simpl. by eapply settled_register.
      * unfold register_begin in E. by rewrite Hname in E.
  - by apply settled_unregister.
  - by apply settled_setPriority.
  - by apply settled_setSystemActive.
Qed.

Lemma settled_awaited calls : settled (registry_after (awaited calls)).
Proof.
  unfold registry_after, awaited.
  assert (∀ r, settled r → settled (foldl after_step r (concat (steps_of <$> calls))))
    as Hrun.
  { induction calls as [|c calls IH]; intros r Hr; [done|].
    rewrite fmap_cons. simpl. rewrite foldl_app. by apply IH, settled_steps_of. }
  apply Hrun, settled_new.
Qed.

(** ** The registry while registrations overlap *)

Lemma filter_ext_in {A : Type} (P Q : A → Prop)
    `{!∀ x, Decision (P x), !∀ x, Decision (Q x)} (l : list A) :
  (∀ x, x ∈ l → P x ↔ Q x) → filter P l = filter Q l.
Proof.
  induction l as [|x l IH]; intros Hext; [done|].
  rewrite !(filter_cons _ x), IH by (intros y Hy; apply Hext; by right).
  destruct (decide (P x)) as [HP|HP], (decide (Q x)) as [HQ|HQ]; try done.
  - destruct HQ. by apply (Hext x); [left|].
  - destruct HP. by apply (Hext x); [left|].
Qed.

Lemma filter_fst {A : Type} (Q : string → Prop) `{!∀ n, Decision (Q n)}
    (l : list (string * A)) :
  filter Q l.*1 = (filter (λ kv, Q kv.1) l).*1.
Proof.
  induction l as [|[k x] l IH]; [done|].
  rewrite fmap_cons, !filter_cons. simpl.
  destruct (decide (Q k)); [by rewrite fmap_cons, IH|done].
Qed.

Lemma insert_by_priority_head x l :
  Forall (by_priority x) l → insert_by_priority x l = x :: l.
Proof.
  destruct l as [|y l]; [done|]. intros [Hy _]%Forall_cons. simpl.
  unfold by_priority in Hy. by rewrite (proj2 (Z.leb_le _ _) Hy).
Qed.

(** Taking entries out of a sorted list and inserting commute: the sort
    of a part of the states is that part of the sort. *)
Lemma insert_by_priority_filter (P : string * SystemState → Prop)
    `{!∀ x, Decision (P x)} x l :
  StronglySorted by_priority l →
  filter P (insert_by_priority x l)
  = if decide (P x) then insert_by_priority x (filter P l) else filter P l.
Proof.
  induction 1 as [|y l Hsorted IH Hy]; simpl.
  - rewrite filter_cons. by destruct (decide (P x)).
  - destruct (Z.leb_spec (priority x.2) (priority y.2)) as [Hle|Hgt].
    + rewrite (filter_cons _ x). destruct (decide (P x)); [|done].
      rewrite insert_by_priority_head; [done|].
      apply Forall_forall. intros z [_ Hz]%list_elem_of_filter.
      apply elem_of_cons in Hz as [->|Hz]; [done|].
      rewrite Forall_forall in Hy. specialize (Hy z Hz).
      unfold by_priority in *. lia.
    + rewrite (filter_cons _ y), IH, (filter_cons _ y).
      destruct (decide (P y)), (decide (P x)); try done.
      simpl. by rewrite (proj2 (Z.leb_gt _ _) Hgt).
Qed.

Lemma sort_by_priority_filter (P : string * SystemState → Prop)
    `{!∀ x, Decision (P x)} l :
  filter P (sort_by_priority l) = sort_by_priority (filter P l).
Proof.
  induction l as [|x l IH]; [done|]. simpl.
  rewrite insert_by_priority_filter by apply sort_by_priority_sorted.
  rewrite (filter_cons _ x), IH. by destruct (decide (P x)).
Qed.

Lemma map_set_absent {A : Type} (m : NameMap A) name v :
  map_get m name = None → map_set m name v = m ++ [(name, v)].
Proof.
  induction m as [|[k x] m IH]; simpl; [done|].
  case_bool_decide; [done|]. intros Hnone. by rewrite IH.
Qed.

Lemma map_get_delete {A : Type} (m : NameMap A) name k :
  map_get (map_delete m name) k = if bool_decide (k = name) then None else map_get m k.
Proof.
  unfold map_delete, NameMap. induction m as [|[k' x] m IH]; simpl.
  - by case_bool_decide.
  - destruct (decide (k' = name)) as [->|Hne].
    + rewrite filter_cons_False by (simpl; by intros ?). rewrite IH.
      repeat case_bool_decide; simplify_eq; done.
    + rewrite filter_cons_True by done. simpl. rewrite IH.
      repeat case_bool_decide; simplify_eq; done.
Qed.

(** The sorted names of the initialized states depend on the names, the
    priorities and the initialized flags only. *)
Definition same_standing (a b : string * SystemState) : Prop :=
  a.1 = b.1 ∧ priority a.2 = priority b.2 ∧ isInitialized a.2 = isInitialized b.2.

Lemma map_set_same_standing (m : NameMap SystemState) name st st' :
  map_get m name = Some st → priority st' = priority st →
  isInitialized st' = isInitialized st →
  Forall2 same_standing (map_set m name st') m.
Proof.
  intros Hget Hp Hi. induction m as [|[k x] m IH]; simpl in *; [done|].
  case_bool_decide as Hk.
  - injection Hget as ->. constructor; [done|].
    clear. induction m; by constructor.
  - constructor; [done|]. by apply IH.
Qed.

Lemma same_standing_initialized l l' :
  Forall2 same_standing l l' →
  Forall2 same_rank (filter (λ kv, isInitialized kv.2 = true) l)
                    (filter (λ kv, isInitialized kv.2 = true) l').
Proof.
  induction 1 as [|x y l l' (Hn & Hp & Hi) _ IH]; [constructor|].
  rewrite !filter_cons. rewrite Hi.
  destruct (decide (isInitialized y.2 = true)); [|done].
  by constructor.
Qed.

(** What holds of the registry at every moment, registrations waiting for
    their initialize or not. *)
Record kept r : Prop := mkKept {
  kept_keys : (systemsMap r).*1 = (statesMap r).*1;
  kept_NoDup : NoDup (statesMap r).*1;
  kept_order_NoDup : NoDup (order r);
  kept_ready :
    filter (λ n, ready r n = true) (order r)
    = (sort_by_priority (filter (λ kv, isInitialized kv.2 = true) (statesMap r))).*1
}.

Lemma kept_new : kept new_registry.
Proof. split; try done; constructor. Qed.

Lemma kept_sortSystems r :
  (systemsMap r).*1 = (statesMap r).*1 → NoDup (statesMap r).*1 → kept (_sortSystems r).
Proof.
  intros Hkeys Hnodup. split; simpl; [done|done| |].
  - by rewrite sort_by_priority_Permutation.
  - rewrite filter_fst, <-sort_by_priority_filter. f_equal.
    apply filter_ext_in. intros [k st] Hin. unfold ready. simpl.
    rewrite sort_by_priority_Permutation in Hin.
    by rewrite (map_get_elem _ _ _ Hnodup Hin).
Qed.

Lemma kept_unregister name r : kept r → kept (unregister name r).
Proof.
  intros [Hkeys Hnodup Horder Hready]. unfold unregister.
  destruct (map_get (systemsMap r) name); [|done].
  apply kept_sortSystems; simpl.
  - by rewrite !map_delete_fst, Hkeys.
  - rewrite map_delete_fst. by apply NoDup_filter.
Qed.

Lemma kept_absent name r :
  kept r → map_get (systemsMap r) name = None → map_get (statesMap r) name = None.
Proof. intros [Hkeys _ _ _]. rewrite !map_get_None. by rewrite Hkeys. Qed.

Lemma kept_present name r st :
  map_get (statesMap r) name = Some st → name ∈ (statesMap r).*1.
Proof.
  intros Hst. apply dec_stable. intros Hout. apply map_get_None in Hout. congruence.
Qed.

Lemma kept_register_begin name system r r1 :
  kept r → register_begin name system r = Some r1 → kept r1.
Proof.
  intros Hr. unfold register_begin. destruct (Js.blank name); [done|]. intros [= <-].
  set (r0 := match map_get (systemsMap r) name with
             | Some _ => unregister name r
             | None => r
             end).
  assert (kept r0 ∧ map_get (systemsMap r0) name = None) as [Hr0 Hsys].
  { unfold r0. destruct (map_get (systemsMap r) name) as [old|] eqn:Hold; [|done].
    split; [by apply kept_unregister|].
    unfold unregister. rewrite Hold. simpl. apply map_delete_get. }
  pose proof (kept_absent _ _ Hr0 Hsys) as Hst.
  destruct Hr0 as [Hkeys Hnodup Horder Hready].
  split; simpl.
  - by rewrite !map_set_keys, Hkeys.
  - rewrite map_set_keys. apply map_get_None in Hst.
    rewrite bool_decide_eq_false_2 by done.
    apply NoDup_app. split; [done|]. split; [|apply NoDup_singleton].
    intros k Hk ->%list_elem_of_singleton. done.
  - done.
  - rewrite (map_set_absent (statesMap r0)) by done. unfold NameMap in *.
    rewrite filter_app, filter_cons_False, filter_nil, app_nil_r by done.
    rewrite <-Hready. apply filter_ext_in. intros n _. unfold ready. simpl.
    rewrite <-(map_set_absent (statesMap r0)) by done. rewrite map_get_set.
    case_bool_decide as Hn; [|done]. subst. by rewrite Hst.
Qed.

Lemma kept_register_finish name ok r : kept r → kept (register_finish name ok r).
Proof.
  intros [Hkeys Hnodup Horder Hready]. unfold register_finish. destruct ok.
  - apply kept_sortSystems; simpl.
    + destruct (map_get (statesMap r) name) as [st|] eqn:Hst; [|done].
      by rewrite map_set_keys, bool_decide_eq_true_2 by by eapply kept_present.
    + destruct (map_get (statesMap r) name) as [st|] eqn:Hst; [|done].
      by rewrite map_set_keys, bool_decide_eq_true_2 by by eapply kept_present.
  - split; simpl.
    + by rewrite !map_delete_fst, Hkeys.
    + rewrite map_delete_fst. by apply NoDup_filter.
    + done.
    + transitivity (filter (λ n, n ≠ name) (filter (λ n, ready r n = true) (order r))).
      { rewrite list_filter_filter. apply filter_ext_in. intros n _.
        unfold ready. simpl. rewrite map_get_delete.
        case_bool_decide; naive_solver. }
      rewrite Hready, filter_fst, sort_by_priority_filter. do 2 f_equal.
      unfold map_delete, NameMap in *. rewrite !list_filter_filter.
      apply filter_ext_in. intros kv _. naive_solver.
Qed.

Lemma kept_setPriority name p r : kept r → kept (setPriority name p r).
Proof.
  intros Hr. unfold setPriority.
  destruct (map_get (statesMap r) name) as [st|] eqn:Hst; [|done].
  destruct p as [v|]; [|done]. destruct (priority st =? v); [done|].
  destruct Hr as [Hkeys Hnodup Horder Hready].
  apply kept_sortSystems; simpl;
    by rewrite map_set_keys, bool_decide_eq_true_2 by by eapply kept_present.
Qed.

Lemma kept_setSystemActive name a r : kept r → kept (setSystemActive name a r).
Proof.
  intros Hr. unfold setSystemActive. destruct a as [v|]; [|done].
  destruct (map_get (statesMap r) name) as [st|] eqn:Hst; [|done].
  destruct (negb (isInitialized st)); [done|]. destruct (Bool.eqb _ _); [done|].
  destruct Hr as [Hkeys Hnodup Horder Hready].
  split; simpl.
  - by rewrite map_set_keys, bool_decide_eq_true_2 by by eapply kept_present.
  - by rewrite map_set_keys, bool_decide_eq_true_2 by by eapply kept_present.
  - done.
  - transitivity (filter (λ n, ready r n = true) (order r)).
    { apply filter_ext_in. intros n _. unfold ready. simpl. rewrite map_get_set.
      case_bool_decide as Hn; [|done]. subst. by rewrite Hst. }
    rewrite Hready. symmetry. apply sort_by_priority_same_rank.
    apply same_standing_initialized. by apply (map_set_same_standing _ _ st).
Qed.

Lemma kept_after_step r s : kept r → kept (after_step r s).
Proof.
  intros Hr. destruct s; simpl.
  - destruct (register_begin name system r) as [r1|] eqn:E; [|done].
    simpl. by eapply kept_register_begin.
  - by apply kept_register_finish.
  - by apply kept_unregister.
  - by apply kept_setPriority.
  - by apply kept_setSystemActive.
Qed.

Lemma kept_registry_after steps : kept (registry_after steps).
Proof.
  unfold registry_after.
  assert (∀ r, kept r → kept (foldl after_step r steps)) as Hrun.
  { induction steps as [|s steps IH]; intros r Hr; simpl; [done|].
    by apply IH, kept_after_step. }
  apply Hrun, kept_new.
Qed.

Lemma runnable_ready_active r counter name :
  (systemsMap r).*1 = (statesMap r).*1 →
  is_Some (runnable (manager_of r counter) name)
  ↔ ready r name = true ∧ isSystemActive name r = true.
Proof.
  intros Hkeys. rewrite runnable_manager_of. unfold ready, isSystemActive.
  destruct (map_get (statesMap r) name) as [st|] eqn:Hst.
  - destruct (map_get (systemsMap r) name) as [sys|] eqn:Hsys.
    + destruct (isInitialized st), (isActive st); simpl; split;
        (by intros [? ?] || by intros [_ [=]] || by intros [[=] _] || by eexists).
    + apply map_get_None in Hsys. rewrite Hkeys in Hsys.
      destruct Hsys. by eapply kept_present.
  - destruct (map_get (systemsMap r) name); split;
      (by intros [? ?] || by intros [[=] _]).
Qed.

(** register is async, so calls on the manager can overlap: while one
    register waits for its initialize, others can be started and finished,
    and systems unregistered, re-prioritized or switched.  At every moment
    of any such run on a new manager: the registered names are distinct;
    the execution order has no repetition; the systems that are
    initialized stand in it, sorted by priority with ties in registration
    order (whatever other names it still lists); a tick can run a system
    exactly when it is registered, initialized and active; and a tick that
    throws nothing runs exactly these, in that order.  When every call is
    run to its end before the next is made, the execution order moreover
    lists exactly the registered systems, and every registered system is
    initialized. *)
Theorem overlapping_registrations_keep_the_initialized_systems_in_order :
  (∀ steps : list RegistryStep,
     NoDup (getSystemNames (registry_after steps))
     ∧ NoDup (order (registry_after steps))
     ∧ filter (λ n, ready (registry_after steps) n = true) (order (registry_after steps))
       = (sort_by_priority
            (filter (λ kv, isInitialized kv.2 = true) (statesMap (registry_after steps)))).*1
     ∧ (∀ counter name,
          is_Some (runnable (manager_of (registry_after steps) counter) name)
          ↔ name ∈ getSystemNames (registry_after steps)
            ∧ ready (registry_after steps) name = true
            ∧ isSystemActive name (registry_after steps) = true)
     ∧ (∀ counter t d w,
          deltaTime t = Some d →
          thrown (tick (manager_of (registry_after steps) counter) (Some t) w).2 = None →
          ran (tick (manager_of (registry_after steps) counter) (Some t) w).2
          = filter (λ n, isSystemActive n (registry_after steps) = true)
              (sort_by_priority
                 (filter (λ kv, isInitialized kv.2 = true)
                    (statesMap (registry_after steps)))).*1))
  ∧ (∀ calls : list RegistryCall,
       NoDup (getSystemNames (registry_after (awaited calls)))
       ∧ order (registry_after (awaited calls))
         ≡ₚ getSystemNames (registry_after (awaited calls))
       ∧ order (registry_after (awaited calls))
         = (sort_by_priority (statesMap (registry_after (awaited calls)))).*1
       ∧ (∀ name, name ∈ getSystemNames (registry_after (awaited calls)) →
            ∃ st, map_get (statesMap (registry_after (awaited calls))) name = Some st
                  ∧ isInitialized st = true)
       ∧ ∀ counter name,
           is_Some (runnable (manager_of (registry_after (awaited calls)) counter) name)
           ↔ name ∈ getSystemNames (registry_after (awaited calls))
             ∧ isSystemActive name (registry_after (awaited calls)) = true).
Proof.
  split.
  - intros steps.
    destruct (kept_registry_after steps) as [Hkeys Hnodup Horder Hready].
    remember (registry_after steps) as r eqn:Hr. clear Hr steps.
    unfold getSystemNames. rewrite Hkeys.
    split; [done|]. split; [done|]. split; [done|]. split.
    + intros counter name. rewrite (runnable_ready_active _ _ _ Hkeys). split.
      * intros [Hrdy Hact]. split; [|done]. unfold ready in Hrdy.
        destruct (map_get (statesMap r) name) as [st|] eqn:Hst; [|done].
        by eapply kept_present.
      * by intros (_ & ? & ?).
    + intros counter t d w Hd. unfold tick. rewrite Hd.
      change (run_order _ (executionOrder _) t w [])
        with (run_order (manager_of r (counter + 1)) (order r) t w []).
      cbn [snd].
      destruct (SystemManagerProofs.run_order_ran (manager_of r (counter + 1)) (order r) t w [])
        as (k & Hk & _ & Hall).
      intros Hnone. rewrite Hk, (Hall Hnone). simpl.
      rewrite <-Hready, list_filter_filter. apply filter_ext_in. intros n _.
      rewrite (runnable_ready_active _ _ _ Hkeys). naive_solver.
  - intros calls.
    destruct (settled_awaited calls) as [Hkeys Hnodup Hinit Horder].
    remember (registry_after (awaited calls)) as r eqn:Hr. clear Hr calls.
    unfold getSystemNames. rewrite Hkeys.
    assert (∀ name, name ∈ (statesMap r).*1 →
              ∃ st, map_get (statesMap r) name = Some st ∧ isInitialized st = true) as Hstate.
    { intros name Hin. destruct (map_get (statesMap r) name) as [st|] eqn:Hst.
      - exists st. split; [done|]. apply (Hinit name). by apply map_get_Some_elem.
      - by apply map_get_None in Hst. }
    split; [done|]. split; [by rewrite Horder, sort_by_priority_Permutation|].
    split; [done|]. split; [done|].
    intros counter name. rewrite runnable_manager_of. unfold isSystemActive. split.
    + intros [sys Hrun].
      destruct (map_get (systemsMap r) name) as [sys'|] eqn:Hsys; [|done].
      destruct (map_get (statesMap r) name) as [st|] eqn:Hst; [|done].
      split.
      * apply dec_stable. intros Hout. apply map_get_None in Hout. congruence.
      * destruct (isActive st); [done|]. by rewrite orb_true_r in Hrun.
    + intros [Hin Hactive]. destruct (Hstate name Hin) as (st & Hst & Hi).
      rewrite Hst in Hactive |- *. rewrite Hi, Hactive. simpl.
      destruct (map_get (systemsMap r) name) as [sys|] eqn:Hsys; [by eexists|].
      apply map_get_None in Hsys. by rewrite Hkeys in Hsys.
Qed.

End Proofs.

(** A registry with two initialized systems, the later one of lower
    priority. *)
Definition two_systems : Registry nat string :=
  register_finish "input" true
    (default new_registry
       (register_begin "input"
          (mkSystemObject (mkSystem None (Some SystemManagerProofs.counting) None) (Some 1) None)
          (register_finish "render" true
             (default new_registry
                (register_begin "render"
                   (mkSystemObject (mkSystem None (Some SystemManagerProofs.counting) None)
                                   (Some 10) None)
                   new_registry))))).

Lemma failed_initialization_unregisters_witness :
  register_finish "physics" false
    <$> register_begin "physics"
          (mkSystemObject (mkSystem None None None) (Some 5) None) two_systems
  = Some two_systems.
Proof.
  destruct (@failed_initialization_unregisters nat string "physics"
              (mkSystemObject (mkSystem None None None) (Some 5) None) two_systems)
    as [_ H]; [reflexivity|].
  apply H; reflexivity.
Defined.

Lemma unregistered_system_never_runs_witness :
  order two_systems = ["input"; "render"]%string
  ∧ order (unregister "input" two_systems) = ["render"%string]
  ∧ ("input"%string ∉ ran (tick (manager_of (unregister "input" two_systems) 0)
                              (Some (mkTiming (Some 16))) 0%nat).2).
Proof.
  destruct (@unregistered_system_never_runs nat string "input" two_systems)
    as (_ & _ & _ & Hran); [by eexists|].
  split; [reflexivity|]. split; [reflexivity|]. apply Hran.
Defined.

Lemma setSystemActive_gates_the_system_witness :
  ran (tick (manager_of (setSystemActive "render" (Some false) two_systems) 0)
         (Some (mkTiming (Some 16))) 0%nat).2 = ["input"%string]
  ∧ ("render"%string ∉ ran (tick (manager_of (setSystemActive "render" (Some false) two_systems) 0)
                               (Some (mkTiming (Some 16))) 0%nat).2).
Proof.
  split; [reflexivity|].
  destruct (@setSystemActive_gates_the_system nat string "render" two_systems) as [_ H].
  destruct (H (mkState true 10 true) eq_refl eq_refl 0) as [Hran _].
  apply Hran.
Defined.

Lemma ticks_follow_the_priorities_witness :
  ran (tick (manager_of (_sortSystems two_systems) 0) (Some (mkTiming (Some 16))) 0%nat).2
    = ["input"; "render"]%string
  ∧ StronglySorted
      (λ a b, ∀ sa sb, map_get (statesMap two_systems) a = Some sa →
                       map_get (statesMap two_systems) b = Some sb →
                       priority sa <= priority sb)
      (ran (tick (manager_of (_sortSystems two_systems) 0)
              (Some (mkTiming (Some 16))) 0%nat).2).
Proof.
  split; [reflexivity|].
  apply (@ticks_follow_the_priorities nat string two_systems).
  repeat constructor; set_solver.
Defined.

(** Two registrations, a failed one, and a deactivation, each run to its
    end before the next. *)
Definition four_calls : list (@RegistryCall nat string) :=
  [CallRegister "render"
     (mkSystemObject (mkSystem None (Some SystemManagerProofs.counting) None) (Some 10) None)
     true;
   CallRegister "input"
     (mkSystemObject (mkSystem None (Some SystemManagerProofs.counting) None) (Some 1) None)
     true;
   CallRegister "physics" (mkSystemObject (mkSystem None None None) (Some 5) None) false;
   CallSetSystemActive "render" (Some false)].

(** Two registrations that overlap: "physics" is started and waits,
    "render" is started, initialized and sorted in, then the initialize of
    "physics" throws. *)
Definition overlapping : list (@RegistryStep nat string) :=
  [StepRegister "physics" (mkSystemObject (mkSystem None None None) (Some 5) None);
   StepRegister "render"
     (mkSystemObject (mkSystem None (Some SystemManagerProofs.counting) None) (Some 10) None);
   StepInitialized "render" true;
   StepInitialized "physics" false].

Lemma overlapping_registrations_keep_the_initialized_systems_in_order_witness :
  getSystemNames (registry_after overlapping) = ["render"%string]
  ∧ order (registry_after overlapping) = ["physics"; "render"]%string
  ∧ filter (λ n, ready (registry_after overlapping) n = true)
      (order (registry_after overlapping)) = ["render"%string]
  ∧ ran (tick (manager_of (registry_after overlapping) 0)
           (Some (mkTiming (Some 16))) 0%nat).2 = ["render"%string]
  ∧ order (registry_after (awaited four_calls)) = ["input"; "render"]%string
  ∧ NoDup (getSystemNames (registry_after (awaited four_calls)))
  ∧ (is_Some (runnable (manager_of (registry_after (awaited four_calls)) 0) "input")
     ↔ "input"%string ∈ getSystemNames (registry_after (awaited four_calls))
       ∧ isSystemActive "input" (registry_after (awaited four_calls)) = true).
Proof.
  destruct (@overlapping_registrations_keep_the_initialized_systems_in_order nat string)
    as [Hsteps Hcalls].
  destruct (Hsteps overlapping) as (_ & _ & Hready & _ & Hran).
  destruct (Hcalls four_calls) as (Hnodup & _ & _ & _ & Hruns).
  split; [reflexivity|]. split; [reflexivity|].
  split; [rewrite Hready; reflexivity|].
  split; [rewrite (Hran 0 (mkTiming (Some 16)) 16 0%nat eq_refl eq_refl); reflexivity|].
  split; [reflexivity|]. split; [exact Hnodup|]. apply Hruns.
Defined.

End SystemRegistryProofs.

Module CommandManagerProofs.
Import CommandManager.

(** The stacks together hold at most [maxStackSize] commands. *)
Definition within_capacity (m : Manager) : Prop :=
  Z.of_nat (length (undoStack m) + length (redoStack m)) <= maxStackSize m.

Lemma pop_length l c r : pop l = Some (c, r) → length l = S (length r).
Proof.
  unfold pop. destruct (reverse l) as [|x xs] eqn:E; [done|].
  intros [= <- <-]. rewrite <- (length_reverse l), E. simpl.
  by rewrite length_reverse.
Qed.


Lemma run_calls_maxStackSize m cs : maxStackSize (run_calls m cs) = maxStackSize m.
Proof.
  revert m. induction cs as [|r cs IH]; intros m; [done|].
  simpl. unfold run_calls in IH. rewrite IH. by destruct r.
Qed.

Lemma run_calls_isExecuting m cs : isExecuting (run_calls m cs) = isExecuting m.
Proof.
  revert m. induction cs as [|r cs IH]; intros m; [done|].
  simpl. unfold run_calls in IH. rewrite IH. by destruct r.
Qed.

(** Re-entrant calls only ever empty the stacks. *)
Lemma run_calls_stacks m cs :
  (undoStack (run_calls m cs) = undoStack m ∧ redoStack (run_calls m cs) = redoStack m)
  ∨ (undoStack (run_calls m cs) = [] ∧ redoStack (run_calls m cs) = []).
Proof.
  revert m. induction cs as [|r cs IH]; intros m; [by left|].
  simpl. destruct (IH (reenter m r)) as [[-> ->]|[-> ->]]; [|by right].
  destruct r; simpl; auto.
Qed.

Lemma run_calls_nil m : run_calls m [] = m.
Proof. done. Qed.

(** While a body runs the manager is busy, and the three guarded operations
    return without touching anything: [reenter] is what they do. *)
Lemma execute_busy m a b : isExecuting m = true → execute m a b = m.
Proof. intros H. unfold execute. destruct a; [done|]. by rewrite H. Qed.

Lemma undo_busy m b : isExecuting m = true → undo m b = m.
Proof. intros H. unfold undo. by rewrite H. Qed.

Lemma redo_busy m b : isExecuting m = true → redo m b = m.
Proof. intros H. unfold redo. by rewrite H. Qed.

Lemma execute_maxStackSize m a b : maxStackSize (execute m a b) = maxStackSize m.
Proof.
  unfold execute. destruct a as [|c]; [done|].
  destruct (isExecuting m); [done|]. simpl.
  destruct (throws b); simpl; [by rewrite run_calls_maxStackSize|].
  destruct (isUndoable c); simpl.
  - destruct (_ >? _); simpl; by rewrite run_calls_maxStackSize.
  - destruct (0 <? _)%nat; simpl; by rewrite run_calls_maxStackSize.
Qed.

Lemma undo_maxStackSize m b : maxStackSize (undo m b) = maxStackSize m.
Proof.
  unfold undo. destruct (_ || _); [done|].
  destruct (pop _) as [[c r]|]; [|done].
  destruct (isUndoable c); simpl; [|done].
  destruct (throws b); simpl; by rewrite run_calls_maxStackSize.
Qed.

Lemma redo_maxStackSize m b : maxStackSize (redo m b) = maxStackSize m.
Proof.
  unfold redo. destruct (_ || _); [done|].
  destruct (pop _) as [[c r]|]; [|done].
  destruct (isUndoable c); simpl; [|done].
  destruct (throws b); simpl; by rewrite run_calls_maxStackSize.
Qed.

Lemma step_maxStackSize m o : maxStackSize (step m o) = maxStackSize m.
Proof.
  destruct o; simpl;
    auto using execute_maxStackSize, undo_maxStackSize, redo_maxStackSize.
Qed.

Lemma run_maxStackSize m ops : maxStackSize (run m ops) = maxStackSize m.
Proof.
  revert m. induction ops as [|o ops IH]; intros m; [done|].
  simpl. unfold run in IH. by rewrite IH, step_maxStackSize.
Qed.

Lemma execute_within_capacity m a b :
  0 <= maxStackSize m → within_capacity m → within_capacity (execute m a b).
Proof.
  unfold within_capacity. intros Hmax Hcap.
  rewrite execute_maxStackSize.
  unfold execute. destruct a as [|c]; [done|].
  destruct (isExecuting m); [done|].
  pose proof (run_calls_stacks (set_isExecuting true m) (calls b)) as Hst.
  pose proof (run_calls_maxStackSize (set_isExecuting true m) (calls b)) as Hm.
  set (m1 := run_calls (set_isExecuting true m) (calls b)) in *.
  simpl in Hst, Hm.
  destruct (throws b); simpl.
  - destruct Hst as [[-> ->]|[-> ->]]; simpl; lia.
  - destruct (isUndoable c); simpl.
    + rewrite Hm. destruct (_ >? _) eqn:E; simpl.
      * apply Z.gtb_lt in E. rewrite length_app in E. simpl in E.
        unfold shift. destruct (undoStack m1 ++ [c]) as [|x xs] eqn:E2.
        { by destruct (undoStack m1). }
        apply (f_equal length) in E2. rewrite length_app in E2. simpl in *.
        destruct Hst as [[Hu Hr]|[Hu Hr]]; rewrite Hu in *; simpl in *; lia.
      * rewrite Z.gtb_ltb in E. apply Z.ltb_ge in E. lia.
    + destruct (0 <? _)%nat; simpl;
        destruct Hst as [[Hu Hr]|[Hu Hr]]; rewrite ?Hu, ?Hr; simpl; lia.
Qed.

Lemma undo_within_capacity m b :
  0 <= maxStackSize m → within_capacity m → within_capacity (undo m b).
Proof.
  unfold within_capacity. intros Hmax Hcap.
  rewrite undo_maxStackSize.
  unfold undo. destruct (_ || _); [done|].
  destruct (pop _) as [[c r]|] eqn:Hpop; [|done].
  apply pop_length in Hpop.
  destruct (isUndoable c); simpl; [|lia].
  pose proof (run_calls_stacks (set_isExecuting true (set_undoStack r m)) (calls b)) as Hst.
  set (m1 := run_calls _ (calls b)) in *. simpl in Hst.
  destruct (throws b); simpl; rewrite ?length_app; simpl;
    destruct Hst as [[-> ->]|[-> ->]]; simpl; lia.
Qed.

Lemma redo_within_capacity m b :
  0 <= maxStackSize m → within_capacity m → within_capacity (redo m b).
Proof.
  unfold within_capacity. intros Hmax Hcap.
  rewrite redo_maxStackSize.
  unfold redo. destruct (_ || _); [done|].
  destruct (pop _) as [[c r]|] eqn:Hpop; [|done].
  apply pop_length in Hpop.
  destruct (isUndoable c); simpl; [|lia].
  pose proof (run_calls_stacks (set_isExecuting true (set_redoStack r m)) (calls b)) as Hst.
  set (m1 := run_calls _ (calls b)) in *. simpl in Hst.
  destruct (throws b); simpl; rewrite ?length_app; simpl;
    destruct Hst as [[-> ->]|[-> ->]]; simpl; lia.
Qed.

Lemma step_within_capacity m o :
  0 <= maxStackSize m → within_capacity m → within_capacity (step m o).
Proof.
  destruct o; simpl;
    auto using execute_within_capacity, undo_within_capacity, redo_within_capacity.
Qed.

Lemma run_within_capacity m ops :
  0 <= maxStackSize m → within_capacity m → within_capacity (run m ops).
Proof.
  revert m. induction ops as [|o ops IH]; intros m Hmax Hcap; [done|].
  simpl. apply IH; [by rewrite step_maxStackSize|by apply step_within_capacity].
Qed.

(** What an accepted, successful execute of an undoable command leaves on the
    undo stack: the command on top, and the oldest entry gone when the push
    went over the maximum. *)
Lemma execute_undoable_stack m c b :
  isExecuting m = false → throws b = false → isUndoable c = true →
  undoStack (execute m (IsCommand c) b) =
    (let u := undoStack (run_calls (set_isExecuting true m) (calls b)) ++ [c] in
     if Z.of_nat (length u) >? maxStackSize m then shift u else u).
Proof.
  intros Hbusy Hok Hu. unfold execute. rewrite Hbusy, Hok, Hu. simpl.
  rewrite run_calls_maxStackSize. simpl.
  by destruct (_ >? _).
Qed.

Lemma execute_success_redo m c b :
  isExecuting m = false → throws b = false →
  redoStack (execute m (IsCommand c) b) = [].
Proof.
  intros Hbusy Hok. unfold execute. rewrite Hbusy, Hok. simpl.
  destruct (isUndoable c); simpl.
  - by destruct (_ >? _).
  - destruct (0 <? _)%nat eqn:E; simpl; [done|].
    apply Nat.ltb_ge in E. destruct (redoStack _); [done|simpl in E; lia].
Qed.

(** C6 (amended): from any manager whose stacks together hold at most
    [maxStackSize] commands (a fresh or a cleared one with a non-negative
    maximum does), no run of execute, undo, redo and clear brings the undo
    stack over the maximum; a successful undoable execute pushes the command
    and, when that goes over the maximum, drops the oldest entry; an
    accepted execute whose command returns normally leaves the redo stack
    empty; an accepted execute whose command throws leaves the redo stack
    as the command's own calls into the manager left it, hence as it was
    when the command made none; an execute that the reentrancy guard
    rejects changes nothing; and with [maxStackSize = 2] three undoable
    commands executed in a row leave the last two on the undo stack. *)
Theorem undo_stack_bounded_redo_cleared_on_success (m : Manager) :
  0 <= maxStackSize m → within_capacity m →
  (∀ ops, Z.of_nat (length (undoStack (run m ops))) <= maxStackSize m)
  ∧ (∀ c b, isExecuting m = false → throws b = false → isUndoable c = true →
       undoStack (execute m (IsCommand c) b) =
         (let u := undoStack (run_calls (set_isExecuting true m) (calls b)) ++ [c] in
          if Z.of_nat (length u) >? maxStackSize m then shift u else u))
  ∧ (∀ c b, isExecuting m = false → throws b = false →
       redoStack (execute m (IsCommand c) b) = [])
  ∧ (∀ c b, isExecuting m = false → throws b = true →
       redoStack (execute m (IsCommand c) b)
         = redoStack (run_calls (set_isExecuting true m) (calls b))
       ∧ (calls b = [] → redoStack (execute m (IsCommand c) b) = redoStack m))
  ∧ (∀ a b, isExecuting m = true → execute m a b = m)
  ∧ (∀ n1 n2 n3,
       undoStack (run (set_maxStackSize 2 new_manager)
                      [OExecute (IsCommand (mkCommand n1 true)) succeeds;
                       OExecute (IsCommand (mkCommand n2 true)) succeeds;
                       OExecute (IsCommand (mkCommand n3 true)) succeeds])
       = [mkCommand n2 true; mkCommand n3 true]).
Proof.
  intros Hmax Hcap. split; [|split; [|split; [|split; [|split]]]].
  - intros ops. pose proof (run_within_capacity m ops Hmax Hcap) as H.
    unfold within_capacity in H. rewrite run_maxStackSize in H. lia.
  - intros c b. apply execute_undoable_stack.
  - intros c b. apply execute_success_redo.
  - intros c b Hbusy Hthrow. unfold execute. rewrite Hbusy, Hthrow.
    split; [done|]. by intros ->.
  - intros a b. apply execute_busy.
  - reflexivity.
Qed.

(** A manager with one command on the redo stack: "a" executed, then
    undone. *)
Definition one_undone : Manager :=
  run (set_maxStackSize 2 new_manager)
      [OExecute (IsCommand (mkCommand "a" true)) succeeds; OUndo succeeds].

Lemma undo_stack_bounded_redo_cleared_on_success_witness :
  (∀ ops, Z.of_nat (length (undoStack (run one_undone ops))) <= 2)
  ∧ undoStack (execute one_undone (IsCommand (mkCommand "move" true)) succeeds)
    = [mkCommand "move" true]
  ∧ redoStack (execute one_undone (IsCommand (mkCommand "move" true)) succeeds) = []
  ∧ redoStack (execute one_undone (IsCommand (mkCommand "move" true)) fails)
    = [mkCommand "a" true]
  ∧ redoStack (execute one_undone (IsCommand (mkCommand "load" true))
                       {| calls := [CallClear]; throws := true |})
    = [].
Proof.
  assert (H0 : 0 <= maxStackSize one_undone) by (simpl; lia).
  assert (H1 : within_capacity one_undone)
    by (unfold within_capacity; simpl; lia).
  destruct (undo_stack_bounded_redo_cleared_on_success one_undone H0 H1)
    as (Hb & Hpush & Hclear & Hthrow & _ & _).
  split; [exact Hb|]. split; [|split; [|split]].
  - rewrite (Hpush (mkCommand "move" true) succeeds); reflexivity.
  - apply Hclear; reflexivity.
  - destruct (Hthrow (mkCommand "move" true) fails eq_refl eq_refl) as [_ Hsame].
    rewrite (Hsame eq_refl). reflexivity.
  - destruct (Hthrow (mkCommand "load" true) {| calls := [CallClear]; throws := true |}
                eq_refl eq_refl) as [Hcalls _].
    rewrite Hcalls. reflexivity.
Defined.

(** C6 as stated fails: an execute call whose command throws is accepted,
    yet the redo stack keeps its entry. *)
Lemma failed_execute_keeps_redo_stack :
  isExecuting (run new_manager [OExecute (IsCommand (mkCommand "a" true)) succeeds;
                                OUndo succeeds]) = false
  ∧ redoStack (run new_manager [OExecute (IsCommand (mkCommand "a" true)) succeeds;
                                OUndo succeeds]) = [mkCommand "a" true]
  ∧ redoStack (run new_manager [OExecute (IsCommand (mkCommand "a" true)) succeeds;
                                OUndo succeeds;
                                OExecute (IsCommand (mkCommand "b" true)) fails])
    = [mkCommand "a" true].
Proof. repeat split. Qed.

(** What execute does keep of its contract when the command throws: the
    busy flag is cleared and the manager pushes nothing, the stacks being as
    the command's own calls into the manager left them; a command that
    returns normally is followed by a 'change' event. *)
Lemma execute_clears_busy_and_pushes_nothing_on_failure (m : Manager) (c : Command) (b : Body) :
  isExecuting m = false →
  isExecuting (execute m (IsCommand c) b) = false
  ∧ (throws b = false →
       emitted (execute m (IsCommand c) b)
       = emitted (run_calls (set_isExecuting true m) (calls b)) ++ ["change"])
  ∧ (throws b = true →
       undoStack (execute m (IsCommand c) b)
         = undoStack (run_calls (set_isExecuting true m) (calls b))
       ∧ redoStack (execute m (IsCommand c) b)
         = redoStack (run_calls (set_isExecuting true m) (calls b))).
Proof.
  intros Hbusy. unfold execute. rewrite Hbusy.
  split; [|split].
  - done.
  - intros ->. simpl. destruct (isUndoable c); simpl.
    + by destruct (_ >? _).
    + by destruct (0 <? _)%nat.
  - by intros ->.
Qed.

(** C7: the code does not do what the claim asks.  A valid command whose
    execute() throws passes the reentrancy guard; the call returns with
    the busy flag cleared and nothing pushed, but no 'change' event has
    been emitted: [this.emit('change')] stands inside the [try], after
    [command.execute()], and the [catch] only logs.  undo() and redo() of
    the same class, given a command that throws, put the command back and
    do emit 'change' from their [catch]. *)
Lemma failed_execute_skips_the_change_event :
  isExecuting new_manager = false
  ∧ emitted (execute new_manager (IsCommand (mkCommand "move" true)) fails) = []
  ∧ isExecuting (execute new_manager (IsCommand (mkCommand "move" true)) fails) = false
  ∧ undoStack (execute new_manager (IsCommand (mkCommand "move" true)) fails) = []
  ∧ emitted (execute new_manager (IsCommand (mkCommand "move" true)) succeeds)
    = ["change"]
  ∧ emitted (undo (execute new_manager (IsCommand (mkCommand "move" true)) succeeds) fails)
    = ["change"; "change"]
  ∧ emitted (redo (undo (execute new_manager (IsCommand (mkCommand "move" true)) succeeds)
                        succeeds) fails)
    = ["change"; "change"; "change"].
Proof. repeat split. Qed.

(** ** Undo and redo *)

Lemma run_calls_emitted m cs :
  ∃ l, emitted (run_calls m cs) = emitted m ++ l.
Proof.
  revert m. induction cs as [|r cs IH]; intros m; [exists []; by rewrite app_nil_r|].
  simpl. destruct (IH (reenter m r)) as [l ->].
  destruct r; simpl; eauto. eexists. by rewrite <-app_assoc.
Qed.

(** undo does nothing at all when canUndo() is false, and announces a
    change whenever canUndo() is true, whatever the command does. *)
Theorem undo_acts_exactly_when_canUndo (m : Manager) (b : Body) :
  (canUndo m = false → undo m b = m)
  ∧ (canUndo m = true →
       ∃ l, emitted (undo m b) = emitted m ++ l ++ ["change"]).
Proof.
  unfold canUndo, undo. split.
  - intros H. destruct (isExecuting m); [done|]. simpl in *.
    rewrite andb_true_r in H. apply Nat.ltb_ge in H.
    destruct (undoStack m); [done|simpl in H; lia].
  - intros [Hlen Hidle%negb_true_iff]%andb_true_iff. rewrite Hidle. simpl.
    apply Nat.ltb_lt in Hlen.
    destruct (undoStack m) as [|x xs] eqn:Hstack; [simpl in Hlen; lia|]. simpl.
    destruct (pop (x :: xs)) as [[c rest]|] eqn:Hpop.
    2:{ unfold pop in Hpop. destruct (reverse (x :: xs)) eqn:E; [|done].
        apply (f_equal length) in E. rewrite length_reverse in E. done. }
    destruct (isUndoable c); simpl; [|by exists []].
    destruct (run_calls_emitted (set_isExecuting true (set_undoStack rest m)) (calls b))
      as [l Hl].
    exists l. destruct (throws b); simpl; rewrite Hl; simpl; by rewrite <-app_assoc.
Qed.

Lemma undo_acts_exactly_when_canUndo_witness :
  undo new_manager succeeds = new_manager
  ∧ ∃ l, emitted (undo (execute new_manager (IsCommand (mkCommand "move" true)) succeeds) fails)
         = emitted (execute new_manager (IsCommand (mkCommand "move" true)) succeeds)
           ++ l ++ ["change"].
Proof.
  split.
  - apply (proj1 (undo_acts_exactly_when_canUndo new_manager succeeds)). reflexivity.
  - apply (proj2 (undo_acts_exactly_when_canUndo
                    (execute new_manager (IsCommand (mkCommand "move" true)) succeeds) fails)).
    reflexivity.
Defined.





End CommandManagerProofs.

Module ReparentEntityCommandProofs.
Import Js EntityManager EntityManagerProofs ReparentEntityCommand.

(** The hierarchies on which undo can always walk back: every parent field
    is [null] or names an entity of strictly lower rank. *)
Definition ranked (rank : Z → nat) (s : Store) : Prop :=
  ∀ q t, getTransform s q = Some t →
    parent t = VNull ∨ ∃ p, parent t = VNum p ∧ (rank p < rank q)%nat.

Lemma check_ancestors_below (rank : Z → nat) s s1 entityId :
  hierarchy_coherent s → ranked rank s →
  (∀ i, i ≠ entityId → parent <$> getTransform s1 i = parent <$> getTransform s i) →
  ∀ fuel q, is_Some (getTransform s q) → (rank q < rank entityId)%nat → (rank q < fuel)%nat →
    check_ancestors fuel s1 entityId (VNum q) = Some true.
Proof.
  intros [Hup _] Hranked Hsame fuel.
  induction fuel as [|fuel IH]; intros q [tq Hq] Hlt Hfuel; [lia|].
  simpl. assert (q ≠ entityId) as Hne by (intros ->; lia).
  rewrite (proj2 (Z.eqb_neq q entityId) Hne).
  pose proof (Hsame q Hne) as Hq1. rewrite Hq in Hq1. simpl in Hq1.
  destruct (getTransform s1 q) as [tq1|]; [|done]. simpl in Hq1. injection Hq1 as ->.
  destruct (Hranked q tq Hq) as [->|(p & Hp & Hrank)]; [apply check_ancestors_null|].
  rewrite Hp. apply IH; [|lia|lia].
  pose proof (Hup q tq p Hq Hp) as Hchild. unfold getChildren in Hchild.
  destruct (getTransform s p); [by eexists|set_solver].
Qed.

(** A first execute that succeeds, then undo: every entity has the parent
    and the children it had before, on a store whose parent fields and
    children sets agree and whose parent links form no cycle. *)
Theorem undo_restores_the_hierarchy (rank : Z → nat) fuel s child newParent s1 c1 :
  hierarchy_coherent s → ranked rank s →
  (∀ i, i ∈ entities s → (rank i < fuel)%nat) →
  execute fuel s (new_command child newParent) = Some (Done s1 c1) →
  ∃ s2 c2,
    undo fuel s1 c1 = Some (s2, c2)
    ∧ (∀ i, parent <$> getTransform s2 i = parent <$> getTransform s i)
    ∧ (∀ i, getChildren s2 i = getChildren s i)
    ∧ entities s2 = entities s.
Proof.
  intros Hs Hranked Hfuel Hexec. pose proof Hs as [Hup Hdown].
  unfold execute, new_command in Hexec. simpl in Hexec.
  destruct (hasEntity s child) eqn:Hlive; [|done]. simpl in Hexec.
  destruct (_ && _); [done|].
  destruct (getTransform s child) as [t|] eqn:Ht; [|done]. simpl in Hexec.
  destruct (setParent fuel s child newParent) as [[s1' []]|] eqn:Hset; simplify_eq/=.
  pose proof (setParent_same_shape _ _ _ _ _ _ Hset) as (_ & Hent1 & _).
  unfold undo. simpl.
  assert (hasEntity s1 child = true) as ->.
  { apply hasEntity_true. rewrite Hent1. by apply hasEntity_true. }
  simpl.
  destruct (setParent_true _ _ _ _ _ Hset) as (t0 & Ht0 & Hnew & Hcases).
  assert (t0 = t) as -> by congruence.
  destruct Hcases as [[Hsame ->]|[Hchange _]].
  { (* already parented: nothing changed, and undo changes nothing *)
    assert (negb (strict_eq (parent t) VNull) && negb (hasEntityV s (parent t)) = false) as ->.
    { destruct (Hranked child t Ht) as [->|(p & Hp & _)]; [done|].
      rewrite Hp. simpl. pose proof (Hup child t p Ht Hp) as Hchild.
      unfold getChildren in Hchild.
      destruct (getTransform s p) eqn:Hp'; [|set_solver].
      apply getTransform_lookup in Hp' as [Hplive _].
      by rewrite (proj2 (hasEntity_true s p) Hplive). }
    simpl. unfold setParent.
    destruct (Hranked child t Ht) as [Hroot|(p & Hp & Hrank)].
    - rewrite Hroot. rewrite Hlive. simpl. rewrite Ht, Hroot. simpl.
      by exists s, (mkCommand child newParent VNull true).
    - pose proof (Hup child t p Ht Hp) as Hchild. unfold getChildren in Hchild.
      destruct (getTransform s p) as [tp|] eqn:Hp'; [|set_solver].
      pose proof Hp' as Hp''. apply getTransform_lookup in Hp'' as [Hplive _].
      rewrite Hp, Hlive. simpl. rewrite (proj2 (hasEntity_true s p) Hplive). simpl.
      assert (child ≠ p) as Hne by (intros ->; lia).
      rewrite (proj2 (Z.eqb_neq child p) Hne), Ht, Hp', Hp. simpl. rewrite Z.eqb_refl.
      by exists s, (mkCommand child newParent (VNum p) true). }
  destruct (setParent_effect _ _ _ _ _ _ Hset Ht Hchange) as [Hparents1 Hchildren1].
  (* the old parent is still a live entity with a transform *)
  assert (negb (strict_eq (parent t) VNull) && negb (hasEntityV s1 (parent t)) = false) as ->.
  { destruct (Hranked child t Ht) as [->|(p & Hp & _)]; [done|].
    rewrite Hp. simpl. pose proof (Hup child t p Ht Hp) as Hchild.
    unfold getChildren in Hchild.
    destruct (getTransform s p) eqn:Hp'; [|set_solver].
    apply getTransform_lookup in Hp' as [Hplive _].
    assert (hasEntity s1 p = true) as ->; [|done].
    apply hasEntity_true. by rewrite Hent1. }
  simpl.
  assert (∃ t1, getTransform s1 child = Some t1 ∧ parent t1 = newParent) as (t1 & Ht1 & Hp1).
  { specialize (Hparents1 child). rewrite decide_True in Hparents1 by done.
    destruct (getTransform s1 child) as [t1|]; [|done]. exists t1. split; [done|].
    simpl in Hparents1. congruence. }
  assert (∃ s2, setParent fuel s1 child (parent t) = Some (s2, true)) as [s2 Hundo].
  { unfold setParent.
    destruct (Hranked child t Ht) as [Hroot|(o & Ho & Hrank)].
    - rewrite Hroot.
      assert (hasEntity s1 child = true) as ->.
      { apply hasEntity_true. rewrite Hent1. by apply hasEntity_true. }
      simpl. rewrite Ht1, Hp1.
      destruct (strict_eq newParent VNull) eqn:Hnull.
      { apply strict_eq_null in Hnull. congruence. }
      rewrite check_ancestors_null. simpl. by eexists.
    - pose proof (Hup child t o Ht Ho) as Hchild. unfold getChildren in Hchild.
      destruct (getTransform s o) as [to|] eqn:Ho'; [|set_solver].
      pose proof Ho' as Ho''. apply getTransform_lookup in Ho'' as [Holive _].
      assert (child ≠ o) as Hne by (intros ->; lia).
      assert (is_Some (getTransform s1 o)) as [to1 Ho1].
      { specialize (Hparents1 o). rewrite decide_False, Ho' in Hparents1 by done.
        destruct (getTransform s1 o); [by eexists|done]. }
      rewrite Ho.
      assert (hasEntity s1 child = true) as ->.
      { apply hasEntity_true. rewrite Hent1. by apply hasEntity_true. }
      assert (hasEntity s1 o = true) as Holive1.
      { apply hasEntity_true. by rewrite Hent1. }
      simpl. rewrite Holive1. simpl.
      rewrite (proj2 (Z.eqb_neq child o) Hne), Ht1, Ho1, Hp1. simpl.
      destruct (strict_eq newParent (VNum o)) eqn:Hsame.
      { apply strict_eq_num in Hsame. congruence. }
      rewrite (check_ancestors_below rank s s1 child Hs Hranked); [simpl; by eexists| | | |].
      + intros i Hi. specialize (Hparents1 i). by rewrite decide_False in Hparents1.
      + by eexists.
      + done.
      + by apply Hfuel. }
  rewrite Hundo. simpl. exists s2, (mkCommand child newParent (parent t) true).
  split; [done|].
  assert (parent t1 ≠ parent t) as Hchange2 by congruence.
  destruct (setParent_effect _ _ _ _ _ _ Hundo Ht1 Hchange2) as [Hparents2 Hchildren2].
  pose proof (setParent_same_shape _ _ _ _ _ _ Hundo) as (_ & Hent2 & _).
  split; [|split; [|congruence]].
  - intros i. rewrite Hparents2, Hparents1.
    destruct (decide (child = i)) as [<-|Hne]; [|done]. by rewrite Ht.
  - intros i. rewrite Hchildren2, Hchildren1, Hp1.
    destruct (strict_eq (parent t) (VNum i)) eqn:Hold.
    + apply strict_eq_num in Hold.
      destruct (strict_eq newParent (VNum i)) eqn:Hnew'.
      { apply strict_eq_num in Hnew'. congruence. }
      pose proof (Hup child t i Ht Hold) as Hchild.
      apply set_eq. intros x. rewrite elem_of_union, elem_of_difference, elem_of_singleton.
      destruct (decide (x = child)) as [->|]; naive_solver.
    + destruct (strict_eq newParent (VNum i)) eqn:Hnew'; [|done].
      apply strict_eq_num in Hnew'.
      assert (child ∉ getChildren s i) as Hnot.
      { intros Hin. specialize (Hdown _ _ Hin). rewrite Ht in Hdown. simpl in Hdown.
        congruence. }
      set_solver.
Qed.

Lemma undo_restores_the_hierarchy_witness :
  ∃ s2 c2,
    undo 3 (after (setParent 3 parent_and_child 2 VNull)) (mkCommand 2 VNull (VNum 1) true)
      = Some (s2, c2)
    ∧ (∀ i, parent <$> getTransform s2 i = parent <$> getTransform parent_and_child i)
    ∧ (∀ i, getChildren s2 i = getChildren parent_and_child i)
    ∧ entities s2 = entities parent_and_child.
Proof.
  apply (undo_restores_the_hierarchy child_rank 3 parent_and_child 2 VNull).
  - apply hierarchy_coherent_parent_and_child.
  - intros q t Ht.
    destruct (accepted_parent _ _ _ _ _ restorable_parent_and_child Ht)
      as [?|(p & ? & _ & ?)]; [by left|right; by exists p].
  - intros i _. unfold child_rank. destruct (i =? 2); lia.
  - vm_compute; reflexivity.
Defined.

(** ** Redo *)

(** Two stores with the same entities, parent fields and children sets. *)
Definition same_hierarchy (s s' : Store) : Prop :=
  entities s' = entities s
  ∧ (∀ i, parent <$> getTransform s' i = parent <$> getTransform s i)
  ∧ (∀ i, getChildren s' i = getChildren s i).

Lemma check_ancestors_same s s' :
  (∀ i, parent <$> getTransform s' i = parent <$> getTransform s i) →
  ∀ fuel entityId v, check_ancestors fuel s' entityId v = check_ancestors fuel s entityId v.
Proof.
  intros Hsame fuel entityId. induction fuel as [|fuel IH]; intros v; [done|].
  destruct v as [| | |q| | |]; try done. simpl.
  destruct (q =? entityId); [done|]. specialize (Hsame q).
  destruct (getTransform s' q) as [t'|], (getTransform s q) as [t|]; try done.
  simpl in Hsame. injection Hsame as ->. apply IH.
Qed.

(** setParent takes the same decision on both, and leaves them with the
    same hierarchy again. *)
Lemma setParent_same_hierarchy fuel s s' entityId newParentId s1 b :
  same_hierarchy s s' →
  setParent fuel s entityId newParentId = Some (s1, b) →
  ∃ s1', setParent fuel s' entityId newParentId = Some (s1', b) ∧ same_hierarchy s1 s1'.
Proof.
  intros (Hent & Hparents & Hchildren) H.
  assert (∀ i, hasEntity s' i = hasEntity s i) as Hlive
    by (intros i; unfold hasEntity; by rewrite Hent).
  assert (∀ i, is_Some (getTransform s' i) ↔ is_Some (getTransform s i)) as Hsome.
  { intros i. specialize (Hparents i).
    destruct (getTransform s' i), (getTransform s i); try done; split; by eauto. }
  assert (∃ r, setParent fuel s' entityId newParentId = Some (r, b)) as [s1' H'].
  { unfold setParent in H |- *.
    destruct newParentId as [| | |p| | |]; try (simplify_eq; by eexists).
    - rewrite Hlive. destruct (negb (hasEntity s entityId)); [simplify_eq; by eexists|].
      simpl in *. pose proof (Hparents entityId) as He.
      destruct (getTransform s entityId) as [t|], (getTransform s' entityId) as [t'|];
        try done; [|simplify_eq; by eexists].
      simpl in He. injection He as He. rewrite He. simpl in *.
      destruct (strict_eq (parent t) VNull); [simplify_eq; by eexists|].
      rewrite check_ancestors_null in *. simpl in *. simplify_eq. by eexists.
    - cbn [hasEntityV getTransformV strict_eq negb andb] in *. rewrite !Hlive.
      destruct (negb (hasEntity s entityId)); [simplify_eq; by eexists|].
      simpl in *. destruct (negb (hasEntity s p)); [simplify_eq; by eexists|]. simpl in *.
      destruct (entityId =? p); [simplify_eq; by eexists|].
      pose proof (Hparents entityId) as He.
      destruct (getTransform s entityId) as [t|], (getTransform s' entityId) as [t'|];
        try done; [|simplify_eq; by eexists].
      simpl in He. injection He as He. rewrite He.
      assert (bool_decide (is_Some (getTransform s' p))
              = bool_decide (is_Some (getTransform s p))) as ->
        by (apply bool_decide_ext, Hsome).
      destruct (negb (bool_decide (is_Some (getTransform s p)))); simpl in *;
        [simplify_eq; by eexists|].
      destruct (strict_eq (parent t) (VNum p)); [simplify_eq; by eexists|].
      rewrite (check_ancestors_same s s' Hparents).
      destruct (check_ancestors fuel s entityId (VNum p)) as [[]|]; simpl in *;
        simplify_eq; by eexists. }
  exists s1'. split; [done|]. destruct b.
  2:{ apply setParent_false_unchanged in H as ->.
      by apply setParent_false_unchanged in H' as ->. }
  pose proof (setParent_same_shape _ _ _ _ _ _ H) as (_ & He1 & _).
  pose proof (setParent_same_shape _ _ _ _ _ _ H') as (_ & He1' & _).
  destruct (setParent_true _ _ _ _ _ H) as (t & Ht & _ & Hcases).
  destruct (setParent_true _ _ _ _ _ H') as (t' & Ht' & _ & Hcases').
  assert (parent t' = parent t) as Hpar.
  { specialize (Hparents entityId). rewrite Ht, Ht' in Hparents. simpl in Hparents.
    congruence. }
  destruct Hcases as [[Hsame ->]|[Hchange _]].
  - destruct Hcases' as [[_ ->]|[Hchange' _]]; [done|congruence].
  - destruct Hcases' as [[Hsame' _]|[Hchange' _]]; [congruence|].
    destruct (setParent_effect _ _ _ _ _ _ H Ht Hchange) as [Hp1 Hc1].
    destruct (setParent_effect _ _ _ _ _ _ H' Ht' Hchange') as [Hp1' Hc1'].
    split; [congruence|]. split.
    + intros i. by rewrite Hp1', Hp1, Hparents.
    + intros i. by rewrite Hc1', Hc1, Hpar, Hchildren.
Qed.

(** Redo: the command that has been executed once, executed again on a
    store with the hierarchy it was first executed on (as undo leaves it),
    succeeds again, keeps the old parent it captured the first time, and
    leaves the hierarchy that the first execute left. *)
Theorem redo_reapplies_the_reparenting fuel s child newParent s1 c1 s2 :
  execute fuel s (new_command child newParent) = Some (Done s1 c1) →
  entities s2 = entities s →
  (∀ i, parent <$> getTransform s2 i = parent <$> getTransform s i) →
  (∀ i, getChildren s2 i = getChildren s i) →
  ∃ s3,
    execute fuel s2 c1 = Some (Done s3 c1)
    ∧ Some (oldParentId c1) = parent <$> getTransform s child
    ∧ (∀ i, parent <$> getTransform s3 i = parent <$> getTransform s1 i)
    ∧ (∀ i, getChildren s3 i = getChildren s1 i)
    ∧ entities s3 = entities s1.
Proof.
  intros Hexec Hent Hparents Hchildren.
  unfold execute, new_command in Hexec. simpl in Hexec.
  destruct (hasEntity s child) eqn:Hlive; [|done]. simpl in Hexec.
  destruct (negb (strict_eq newParent VNull) && negb (hasEntityV s newParent)) eqn:Hnew;
    [done|].
  destruct (getTransform s child) as [t|] eqn:Ht; [|done]. simpl in Hexec.
  destruct (setParent fuel s child newParent) as [[s1' []]|] eqn:Hset; simplify_eq/=.
  destruct (setParent_same_hierarchy fuel s s2 child newParent s1 true) as (s3 & Hset' & Hs3);
    [done|done|].
  exists s3. unfold execute. simpl.
  assert (hasEntity s2 child = true) as -> by (unfold hasEntity in *; by rewrite Hent).
  assert (hasEntityV s2 newParent = hasEntityV s newParent) as ->.
  { destruct newParent; try done. unfold hasEntityV, hasEntity. by rewrite Hent. }
  simpl. rewrite Hnew, Hset'. destruct Hs3 as (? & ? & ?). done.
Qed.

Lemma redo_reapplies_the_reparenting_witness :
  ∃ s3,
    execute 3 parent_and_child (mkCommand 2 VNull (VNum 1) true)
      = Some (Done s3 (mkCommand 2 VNull (VNum 1) true))
    ∧ Some (VNum 1) = parent <$> getTransform parent_and_child 2.
Proof.
  destruct (redo_reapplies_the_reparenting 3 parent_and_child 2 VNull
              (after (setParent 3 parent_and_child 2 VNull))
              (mkCommand 2 VNull (VNum 1) true) parent_and_child)
    as (s3 & Hexec & Hold & _); [vm_compute; reflexivity|done..|].
  by exists s3.
Defined.

End ReparentEntityCommandProofs.

Module EventEmitterProofs.
Import EventEmitter.

(** ** Arrays of listeners *)

Lemma remove_first_absent x l : x ∉ l → remove_first x l = l.
Proof.
  induction l as [|y l IH]; [done|]. intros [Hne Hout]%not_elem_of_cons. simpl.
  rewrite decide_False by done. by rewrite IH.
Qed.

Lemma remove_first_app_r x l1 l2 :
  x ∉ l1 → remove_first x (l1 ++ l2) = l1 ++ remove_first x l2.
Proof.
  induction l1 as [|y l1 IH]; [done|]. intros [Hne Hout]%not_elem_of_cons. simpl.
  rewrite decide_False by done. by rewrite IH.
Qed.

Lemma remove_first_head x l : remove_first x (x :: l) = l.
Proof. simpl. by rewrite decide_True. Qed.

Lemma remove_first_length x l : x ∈ l → S (length (remove_first x l)) = length l.
Proof.
  induction l as [|y l IH]; [by intros ?%elem_of_nil|]. simpl.
  destruct (decide (y = x)) as [->|Hne]; [done|].
  intros [->|Hin]%elem_of_cons; [done|]. simpl. by rewrite IH.
Qed.

(** The function a listener ends up calling. *)
Definition callback_of (l : Listener) : nat :=
  match l with
  | Callback f => f
  | OnceWrapper _ f => f
  end.

(** The listeners added by [on]. *)
Definition lasting (l : Listener) : Prop := original l = None.

#[local] Instance lasting_dec l : Decision (lasting l).
Proof. unfold lasting. apply _. Defined.

Lemma wrapper_not_lasting w f (l : list Listener) : OnceWrapper w f ∉ filter lasting l.
Proof. by intros [? _]%list_elem_of_filter. Qed.

Section Proofs.
Context {World Data : Type} (run : nat → Data → World → World * bool).
Implicit Types (e : Emitter) (st : Emission World) (w : World).

(** Calling the functions one after the other, each in its own [try]. *)
Definition enter_all (data : Data) (fs : list nat) (st : Emission World) : Emission World :=
  foldl (λ acc f, enter run f data acc) st fs.

Lemma enter_all_emitter data fs st : emitter (enter_all data fs st) = emitter st.
Proof. revert st. induction fs as [|f fs IH]; intros st; simpl; [done|]. by rewrite IH. Qed.

Lemma enter_all_called data fs st : called (enter_all data fs st) = called st ++ fs.
Proof.
  revert st. induction fs as [|f fs IH]; intros st; simpl; [by rewrite app_nil_r|].
  rewrite IH. simpl. by rewrite <-app_assoc.
Qed.

Lemma enter_all_errors data fs st :
  (errors st ≤ errors (enter_all data fs st) ≤ errors st + length fs)%nat.
Proof.
  revert st. induction fs as [|f fs IH]; intros st; simpl; [lia|].
  specialize (IH (enter run f data st)). simpl in IH.
  destruct (run f data (world st)).2; lia.
Qed.

(** The world, the calls and the errors do not depend on the emitter. *)
Lemma enter_all_ext data fs st st' :
  world st = world st' → called st = called st' → errors st = errors st' →
  world (enter_all data fs st) = world (enter_all data fs st')
  ∧ called (enter_all data fs st) = called (enter_all data fs st')
  ∧ errors (enter_all data fs st) = errors (enter_all data fs st').
Proof.
  revert st st'. induction fs as [|f fs IH]; intros st st' Hw Hc He; simpl; [done|].
  apply IH; simpl; by rewrite ?Hw, ?Hc, ?He.
Qed.

(** The loop of [emit], from any point of the copied array on: [seen] is
    what has been gone through, [rest] what is to come. *)
Lemma emit_loop event data rest seen st :
  listeners (emitter st) !! event = Some (filter lasting seen ++ rest) →
  world (foldl (invoke run event data) st rest)
    = world (enter_all data (callback_of <$> rest) st)
  ∧ called (foldl (invoke run event data) st rest)
    = called (enter_all data (callback_of <$> rest) st)
  ∧ errors (foldl (invoke run event data) st rest)
    = errors (enter_all data (callback_of <$> rest) st)
  ∧ listeners (emitter (foldl (invoke run event data) st rest))
    = <[event := filter lasting (seen ++ rest)]> (listeners (emitter st))
  ∧ onceListeners (emitter (foldl (invoke run event data) st rest))
    = onceListeners (emitter st)
  ∧ wrappersMade (emitter (foldl (invoke run event data) st rest))
    = wrappersMade (emitter st).
Proof.
  revert seen st. induction rest as [|x rest IH]; intros seen st Hst.
  - simpl. rewrite !app_nil_r in *. by rewrite insert_id.
  - cbn [foldl]. rewrite fmap_cons. cbn [enter_all foldl]. fold (enter_all data).
    destruct x as [f|k f]; cbn [invoke callback_of].
    + destruct (IH (seen ++ [Callback f]) (enter run f data st)) as (Hw & Hc & He & Hl & Ho & Hn).
      { simpl. rewrite Hst, filter_app, filter_cons_True by done.
        by rewrite filter_nil, <-app_assoc. }
      rewrite <-app_assoc in Hl. done.
    + remember {| emitter := off event (OnceWrapper k f) (emitter st); world := world st;
                  called := called st; errors := errors st |} as st1 eqn:Hst1.
      assert (emitter st1
              = {| listeners := <[event := filter lasting seen ++ rest]> (listeners (emitter st));
                   onceListeners := onceListeners (emitter st);
                   wrappersMade := wrappersMade (emitter st) |}) as Hoff.
      { rewrite Hst1. simpl. unfold off. rewrite Hst.
        rewrite bool_decide_eq_true_2 by (apply elem_of_app; right; left).
        rewrite remove_first_app_r by apply wrapper_not_lasting.
        by rewrite remove_first_head. }
      destruct (IH (seen ++ [OnceWrapper k f]) (enter run f data st1))
        as (Hw & Hc & He & Hl & Ho & Hn).
      { simpl. rewrite Hoff. simpl. rewrite lookup_insert_eq.
        rewrite filter_app, filter_cons_False by (by intros ?).
        by rewrite filter_nil, app_nil_r. }
      destruct (enter_all_ext data (callback_of <$> rest) (enter run f data st1)
                  (enter run f data st)) as (Hw' & Hc' & He');
        [by rewrite Hst1..|].
      rewrite Hw, Hc, He, Hl, Ho, Hn. simpl. rewrite Hoff. simpl.
      rewrite insert_insert_eq, <-app_assoc. done.
Qed.

Lemma emit_spec event data e w :
  world (emit run event data e w)
    = world (enter_all data (callback_of <$> default [] (listeners e !! event))
               {| emitter := e; world := w; called := []; errors := 0 |})
  ∧ called (emit run event data e w) = callback_of <$> default [] (listeners e !! event)
  ∧ errors (emit run event data e w)
    = errors (enter_all data (callback_of <$> default [] (listeners e !! event))
                {| emitter := e; world := w; called := []; errors := 0 |})
  ∧ listeners (emitter (emit run event data e w)) = alter (filter lasting) event (listeners e)
  ∧ onceListeners (emitter (emit run event data e w)) = onceListeners e
  ∧ wrappersMade (emitter (emit run event data e w)) = wrappersMade e.
Proof.
  unfold emit. destruct (listeners e !! event) as [l|] eqn:Hl.
  - destruct (emit_loop event data l []
                {| emitter := e; world := w; called := []; errors := 0 |})
      as (Hw & Hc & He & Hls & Ho & Hn); [done|].
    rewrite Hw, Hc, He, Hls, Ho, Hn. rewrite enter_all_called. simpl.
    split; [done|]. split; [done|]. split; [done|]. split; [|done].
    apply map_eq. intros k. rewrite lookup_alter.
    destruct (decide (event = k)) as [<-|Hne].
    + by rewrite lookup_insert_eq, Hl.
    + by rewrite lookup_insert_ne.
  - simpl. split; [done|]. split; [done|]. split; [done|]. split; [|done].
    apply map_eq. intros k. rewrite lookup_alter.
    destruct (decide (event = k)) as [<-|Hne]; [by rewrite Hl|done].
Qed.

(** emit enters every listener that was registered for the event when it
    began, in registration order, whether or not an earlier one throws: a
    throw is logged and the loop goes on.  It does nothing else to the
    world, and logs at most one error per listener. *)
Theorem emit_enters_every_listener_in_order event data e w :
  called (emit run event data e w) = callback_of <$> default [] (listeners e !! event)
  ∧ world (emit run event data e w)
    = foldl (λ acc f, (run f data acc).1) w
            (callback_of <$> default [] (listeners e !! event))
  ∧ (errors (emit run event data e w) ≤ length (default [] (listeners e !! event)))%nat.
Proof.
  destruct (emit_spec event data e w) as (Hw & Hc & He & _).
  split; [done|]. split.
  - assert (∀ fs st, world (enter_all data fs st)
                     = foldl (λ acc f, (run f data acc).1) (world st) fs) as Hfold.
    { induction fs as [|f fs IH]; intros st; simpl; [done|]. by rewrite IH. }
    by rewrite Hw, Hfold.
  - rewrite He.
    pose proof (enter_all_errors data (callback_of <$> default [] (listeners e !! event))
                  {| emitter := e; world := w; called := []; errors := 0 |}) as Hle.
    rewrite length_fmap in Hle. simpl in Hle. lia.
Qed.

(** After emit the listeners of the event are those added by [on]: every
    wrapper made by [once] has taken itself off the array.  The listeners
    of other events are untouched, and so is the set of wrappers: a wrapper
    that has fired stays in [onceListeners]. *)
Theorem emit_takes_the_once_wrappers_off event data e w :
  listeners (emitter (emit run event data e w)) = alter (filter lasting) event (listeners e)
  ∧ onceListeners (emitter (emit run event data e w)) = onceListeners e.
Proof. by destruct (emit_spec event data e w) as (_ & _ & _ & ? & ? & _). Qed.

Lemma once_listeners event f e :
  listeners (once event f e) !! event
  = Some (default [] (listeners e !! event) ++ [OnceWrapper (wrappersMade e) f]).
Proof. unfold once, on. simpl. by rewrite lookup_insert_eq. Qed.

(** A listener added by [once] is entered by the next emit of the event,
    after the listeners that were there before it, and by no later emit. *)
Theorem once_listener_fires_once event f data data' e w w' :
  called (emit run event data (once event f e) w)
    = (callback_of <$> default [] (listeners e !! event)) ++ [f]
  ∧ called (emit run event data' (emitter (emit run event data (once event f e) w)) w')
    = callback_of <$> filter lasting (default [] (listeners e !! event))
  ∧ listenerCount event (emitter (emit run event data (once event f e) w))
    = length (filter lasting (default [] (listeners e !! event))).
Proof.
  destruct (emit_spec event data (once event f e) w) as (_ & Hc & _ & Hl & _).
  rewrite once_listeners in Hc. simpl in Hc. rewrite fmap_app in Hc.
  split; [done|].
  assert (listeners (emitter (emit run event data (once event f e) w)) !! event
          = Some (filter lasting (default [] (listeners e !! event)))) as Hafter.
  { rewrite Hl, lookup_alter_eq, once_listeners. simpl.
    rewrite filter_app, filter_cons_False by (by intros ?).
    by rewrite filter_nil, app_nil_r. }
  split.
  - destruct (emit_spec event data' (emitter (emit run event data (once event f e) w)) w')
      as (_ & Hc' & _).
    by rewrite Hc', Hafter.
  - unfold listenerCount. by rewrite Hafter.
Qed.

(** ** on and off *)

(** [off] undoes the [on] of the same callback as far as the number of
    listeners goes, and exactly when the callback was not a listener of the
    event before.  When it was, it is the earlier registration that goes. *)
Theorem off_after_on event callback e :
  listeners (off event callback (on event callback e)) !! event
    = Some (remove_first callback (default [] (listeners e !! event) ++ [callback]))
  ∧ listenerCount event (off event callback (on event callback e)) = listenerCount event e
  ∧ (callback ∉ default [] (listeners e !! event) →
     listeners (off event callback (on event callback e)) !! event
       = Some (default [] (listeners e !! event))).
Proof.
  assert (listeners (off event callback (on event callback e)) !! event
          = Some (remove_first callback (default [] (listeners e !! event) ++ [callback])))
    as Hoff.
  { unfold off, on. simpl. rewrite lookup_insert_eq.
    rewrite bool_decide_eq_true_2 by (apply elem_of_app; right; left). simpl.
    by rewrite lookup_insert_eq. }
  split; [done|]. split.
  - unfold listenerCount at 1. rewrite Hoff.
    assert (callback ∈ default [] (listeners e !! event) ++ [callback]) as Hin
      by (apply elem_of_app; right; left).
    apply remove_first_length in Hin. rewrite length_app in Hin. simpl in Hin.
    unfold listenerCount. destruct (listeners e !! event); simpl in *; lia.
  - intros Hout. rewrite Hoff, remove_first_app_r by done.
    by rewrite remove_first_head, app_nil_r.
Qed.

(** ** The emitters the methods can produce *)

(** The emitters reached from a new one by [on] (with a callback of the
    caller's), [once], [off] (with a callback, or with a wrapper through
    the closure that [once] returns), [offAll] and [emit]. *)
Inductive reached : Emitter → Prop :=
| reached_new : reached new_emitter
| reached_on event f e : reached e → reached (on event (Callback f) e)
| reached_once event f e : reached e → reached (once event f e)
| reached_off event listener e : reached e → reached (off event listener e)
| reached_offAll event e : reached e → reached (offAll event e)
| reached_emit event data w e : reached e → reached (emitter (emit run event data e w)).

(** Every wrapper among the listeners was made by an earlier [once]. *)
Definition numbered (e : Emitter) : Prop :=
  ∀ event l k f, listeners e !! event = Some l → OnceWrapper k f ∈ l →
                 (k < wrappersMade e)%nat.

Lemma remove_first_elem x y l : x ∈ remove_first y l → x ∈ l.
Proof.
  induction l as [|z l IH]; [done|]. simpl. destruct (decide (z = y)); [by right|].
  intros [->|?]%elem_of_cons; [left|right; auto].
Qed.

Lemma numbered_insert event l e e' :
  numbered e → listeners e' = <[event := l]> (listeners e) →
  (wrappersMade e ≤ wrappersMade e')%nat →
  (∀ k f, OnceWrapper k f ∈ l →
          OnceWrapper k f ∈ default [] (listeners e !! event)
          ∨ (k < wrappersMade e')%nat) →
  numbered e'.
Proof.
  intros He Hl Hn Hsub ev l' k f Hl' Hin. rewrite Hl in Hl'.
  destruct (decide (event = ev)) as [<-|Hne].
  - rewrite lookup_insert_eq in Hl'. injection Hl' as <-.
    destruct (Hsub k f Hin) as [Hold|?]; [|done].
    destruct (listeners e !! event) as [l0|] eqn:E; [|by apply elem_of_nil in Hold].
    specialize (He event l0 k f E Hold). lia.
  - rewrite lookup_insert_ne in Hl' by done. specialize (He ev l' k f Hl' Hin). lia.
Qed.

Lemma reached_numbered e : reached e → numbered e.
Proof.
  induction 1 as [|event f e _ IH|event f e _ IH|event listener e _ IH|event e _ IH
                  |event data w e _ IH].
  - intros ev l k f Hl. simpl in Hl. by rewrite lookup_empty in Hl.
  - eapply (numbered_insert event _ e); [exact IH|reflexivity|done|].
    intros k g [?|[=]%list_elem_of_singleton]%elem_of_app. by left.
  - eapply (numbered_insert event _ e); [exact IH|reflexivity|simpl; lia|].
    intros k g [?|[= -> ->]%list_elem_of_singleton]%elem_of_app; [by left|].
    right. simpl. lia.
  - unfold off. destruct (listeners e !! event) as [l|] eqn:Hl; [|done].
    case_bool_decide.
    + eapply (numbered_insert event _ e); [exact IH|reflexivity|done|].
      intros k g ?%remove_first_elem. left. by rewrite Hl.
    + destruct (onceListeners e !! event) as [ws|]; [|done].
      destruct (list_find _ ws) as [[? x]|]; [|done].
      eapply (numbered_insert event _ e); [exact IH|reflexivity|done|].
      intros k g ?%remove_first_elem. left. by rewrite Hl.
  - intros ev l k f Hl Hin. unfold offAll in *.
    destruct event as [name|]; [|simpl in Hl; by rewrite lookup_empty in Hl].
    destruct (bool_decide (name = "")); [simpl in Hl; by rewrite lookup_empty in Hl|].
    simpl in *. apply lookup_delete_Some in Hl as [_ Hl]. by apply (IH ev l k f).
  - destruct (emit_spec event data e w) as (_ & _ & _ & Hl & _ & Hn).
    intros ev l k f Hev Hin. rewrite Hl, lookup_alter in Hev. rewrite Hn.
    destruct (decide (event = ev)) as [<-|Hne]; [|by apply (IH ev l k f)].
    destruct (listeners e !! event) as [l0|] eqn:E; [|done]. simpl in Hev.
    injection Hev as <-. apply list_elem_of_filter in Hin as [_ Hin].
    by apply (IH event l0 k f).
Qed.

Lemma once_wrapper_is_new event f e :
  numbered e → OnceWrapper (wrappersMade e) f ∉ default [] (listeners e !! event).
Proof.
  intros He Hin. destruct (listeners e !! event) as [l|] eqn:E; [|by apply elem_of_nil in Hin].
  specialize (He event l _ f E Hin). lia.
Qed.

Lemma remove_first_last (x : Listener) l : x ∉ l → remove_first x (l ++ [x]) = l.
Proof.
  intros Hl. rewrite remove_first_app_r by done. by rewrite remove_first_head, app_nil_r.
Qed.

(** [off] with the callback that was handed to [once] takes the pending
    wrapper off, when the callback is not itself a listener of the event
    and no earlier wrapper of it is left in the set. *)
Theorem off_cancels_a_pending_once event f e :
  reached e →
  Callback f ∉ default [] (listeners e !! event) →
  (∀ x, x ∈ default [] (onceListeners e !! event) → original x ≠ Some (Callback f)) →
  listeners (off event (Callback f) (once event f e)) !! event
    = Some (default [] (listeners e !! event))
  ∧ onceListeners (off event (Callback f) (once event f e)) !! event
    = Some (default [] (onceListeners e !! event)).
Proof.
  intros He%reached_numbered Hout Hfresh. unfold off. rewrite once_listeners.
  rewrite bool_decide_eq_false_2.
  2:{ rewrite elem_of_app. by intros [?|[=]%list_elem_of_singleton]. }
  unfold once at 1. simpl. rewrite lookup_insert_eq.
  assert (list_find (λ x, original x = Some (Callback f))
            (default [] (onceListeners e !! event) ++ [OnceWrapper (wrappersMade e) f])
          = Some (length (default [] (onceListeners e !! event)),
                  OnceWrapper (wrappersMade e) f)) as ->.
  { apply list_find_Some. split; [by rewrite lookup_app_r, Nat.sub_diag by lia|].
    split; [done|]. intros i y Hy Hi. apply Hfresh.
    rewrite lookup_app_l in Hy by done. by eapply list_elem_of_lookup_2. }
  simpl. rewrite !lookup_insert_eq. split; f_equal; apply remove_first_last.
  - by apply once_wrapper_is_new.
  - intros Hin. by apply (Hfresh _ Hin).
Qed.

(** But once a wrapper of the callback has fired, it is that wrapper,
    still in the set, that [off] finds: a later [once] of the same callback
    is not cancelled by [off] with the callback, and the next emit enters
    it. *)
Theorem off_misses_a_once_after_an_earlier_one_fired event f data e w :
  Callback f ∉ default [] (listeners e !! event) →
  (∀ x, x ∈ default [] (onceListeners e !! event) → original x ≠ Some (Callback f)) →
  listeners (off event (Callback f)
               (once event f (emitter (emit run event data (once event f e) w)))) !! event
    = Some (filter lasting (default [] (listeners e !! event))
            ++ [OnceWrapper (S (wrappersMade e)) f])
  ∧ ∀ data' w',
      f ∈ called (emit run event data'
                    (off event (Callback f)
                       (once event f (emitter (emit run event data (once event f e) w))))
                    w').
Proof.
  intros Hout Hfresh.
  destruct (emit_spec event data (once event f e) w) as (_ & _ & _ & Hl & Ho & Hn).
  set (fired := emitter (emit run event data (once event f e) w)) in *.
  assert (listeners fired !! event = Some (filter lasting (default [] (listeners e !! event))))
    as Hfired.
  { rewrite Hl, lookup_alter_eq, once_listeners. simpl.
    rewrite filter_app, filter_cons_False by (by intros ?).
    by rewrite filter_nil, app_nil_r. }
  assert (onceListeners fired !! event
          = Some (default [] (onceListeners e !! event) ++ [OnceWrapper (wrappersMade e) f]))
    as Hset.
  { rewrite Ho. unfold once. simpl. by rewrite lookup_insert_eq. }
  assert (listeners (off event (Callback f) (once event f fired)) !! event
          = Some (filter lasting (default [] (listeners e !! event))
                  ++ [OnceWrapper (S (wrappersMade e)) f])) as Hleft.
  { unfold off. rewrite once_listeners, Hfired, Hn. simpl.
    rewrite bool_decide_eq_false_2.
    2:{ rewrite elem_of_app.
        intros [[_ ?]%list_elem_of_filter|[=]%list_elem_of_singleton]. done. }
    unfold once at 1. simpl. rewrite lookup_insert_eq, Hset, Hn. simpl.
    assert (list_find (λ x, original x = Some (Callback f))
              ((default [] (onceListeners e !! event) ++ [OnceWrapper (wrappersMade e) f])
               ++ [OnceWrapper (S (wrappersMade e)) f])
            = Some (length (default [] (onceListeners e !! event)),
                    OnceWrapper (wrappersMade e) f)) as ->.
    { apply list_find_Some. split.
      - rewrite lookup_app_l by (rewrite length_app; simpl; lia).
        by rewrite lookup_app_r, Nat.sub_diag by lia.
      - split; [done|]. intros i y Hy Hi. apply Hfresh.
        rewrite <-app_assoc, lookup_app_l in Hy by done. by eapply list_elem_of_lookup_2. }
    simpl. rewrite lookup_insert_eq. f_equal. apply remove_first_absent.
    rewrite elem_of_app.
    intros [?%wrapper_not_lasting|[= ?]%list_elem_of_singleton]; [done|lia]. }
  split; [done|]. intros data' w'.
  destruct (emit_spec event data' (off event (Callback f) (once event f fired)) w')
    as (_ & -> & _).
  rewrite Hleft. simpl. rewrite fmap_app. apply elem_of_app. right. simpl. left.
Qed.

End Proofs.

(** Callbacks that count in a number: 1 adds one, 2 adds ten and throws. *)
Definition tally (f : nat) (data : nat) (w : nat) : nat * bool :=
  match f with
  | 1%nat => ((w + data)%nat, false)
  | _ => ((w + 10 * data)%nat, true)
  end.

Lemma off_cancels_a_pending_once_witness :
  listeners (off "change" (Callback 2) (once "change" 2 (on "change" (Callback 1) new_emitter)))
    !! "change"%string = Some [Callback 1].
Proof.
  destruct (off_cancels_a_pending_once tally "change" 2 (on "change" (Callback 1) new_emitter))
    as [Hl _].
  - apply reached_on, reached_new.
  - vm_compute. by intros [[=]|?%elem_of_nil]%elem_of_cons.
  - vm_compute. by intros x ?%elem_of_nil.
  - rewrite Hl. vm_compute. reflexivity.
Defined.

Lemma off_misses_a_once_after_an_earlier_one_fired_witness :
  2%nat ∈ called (emit tally "change" 1%nat
                (off "change" (Callback 2)
                   (once "change" 2
                      (emitter (emit tally "change" 1%nat (once "change" 2 new_emitter) 0%nat))))
                0%nat).
Proof.
  destruct (off_misses_a_once_after_an_earlier_one_fired tally "change" 2 1%nat
              new_emitter 0%nat) as [_ Hcalled].
  - vm_compute. by intros ?%elem_of_nil.
  - vm_compute. by intros x ?%elem_of_nil.
  - apply Hcalled.
Defined.

End EventEmitterProofs.
